(** * ddht: Discovery v5 DHT node

    A shallow embedding of the parts of [ddht] that the specification
    talks about:

    - [ddht/v5/tags.py]       : packet tags ([Tags]);
    - [ddht/app.py]           : the local ENR ([App]);
    - [ddht/v5_1/network.py]  : the high level network API, the request
      handlers and the recursive find-nodes engine ([Net], [Engine]).

    Python exceptions are values of [exn]; a call that may raise returns
    a [result].  Code that talks to the client or mutates the ENR
    database threads the [Network] state explicitly. *)

From Stdlib Require Import ZArith NArith QArith List Lia.
From Stdlib.Strings Require Import Byte.
From stdpp Require Import base option list sorting gmap sets strings.

Local Open Scope N_scope.

Abbreviation bytes := (list byte).

(** ** Byte strings as dictionary keys *)

#[global] Instance byte_eq_dec : EqDecision byte.
Proof.
  intros x y. destruct (N.eq_dec (Byte.to_N x) (Byte.to_N y)) as [E|E].
  - left. apply (f_equal Byte.of_N) in E.
    rewrite !Byte.of_to_N in E. congruence.
  - right. congruence.
Defined.

#[global] Instance byte_countable : Countable byte :=
  inj_countable Byte.to_N Byte.of_N Byte.of_to_N.

(** ** Exceptions and results *)

Inductive exn : Type :=
| TypeError
| KeyError
| ValueError
| TooSlowError
| Cancelled
| MissingEndpointFields
| ValidationError
| EmptyFindNodesResponse
| OldSequenceNumber
| ProtocolNotSupported (protocol : bytes)
| DuplicateProtocol
| IndexError
| PlainException
| RecursionDepthExceeded.

#[global] Instance exn_eq_dec : EqDecision exn.
Proof. solve_decision. Defined.

Inductive result (A : Type) : Type :=
| Ok (a : A)
| Raise (e : exn).
Arguments Ok {A} a.
Arguments Raise {A} e.

Definition is_ok {A} (r : result A) : bool :=
  match r with Ok _ => true | Raise _ => false end.

(** ** SHA-256, as [hashlib.sha256] computes it (FIPS 180-4) *)

Module Sha256.

Definition mask32 (x : N) : N := x mod 2 ^ 32.
Definition add32 (x y : N) : N := mask32 (x + y).
Definition rotr (n x : N) : N :=
  N.lor (N.shiftr x n) (mask32 (N.shiftl x (32 - n))).
Definition not32 (x : N) : N := N.lxor x 0xffffffff.

Definition ch (x y z : N) : N := N.lxor (N.land x y) (N.land (not32 x) z).
Definition maj (x y z : N) : N :=
  N.lxor (N.lxor (N.land x y) (N.land x z)) (N.land y z).
Definition big_sigma0 (x : N) : N :=
  N.lxor (N.lxor (rotr 2 x) (rotr 13 x)) (rotr 22 x).
Definition big_sigma1 (x : N) : N :=
  N.lxor (N.lxor (rotr 6 x) (rotr 11 x)) (rotr 25 x).
Definition small_sigma0 (x : N) : N :=
  N.lxor (N.lxor (rotr 7 x) (rotr 18 x)) (N.shiftr x 3).
Definition small_sigma1 (x : N) : N :=
  N.lxor (N.lxor (rotr 17 x) (rotr 19 x)) (N.shiftr x 10).

(** The first primes, by trial division. *)
Definition is_prime (n : nat) : bool :=
  forallb (fun d => negb (n mod d =? 0)%nat) (seq 2 (n - 2)).

Definition first_primes (count : nat) : list N :=
  N.of_nat <$> take count (List.filter is_prime (seq 2 400)).

(** The integer cube root, one bit at a time from bit [bits - 1] down. *)
Fixpoint cube_root_from (bits : nat) (x root : N) : N :=
  match bits with
  | O => root
  | S bits' =>
      let candidate := root + 2 ^ N.of_nat bits' in
      if candidate ^ 3 <=? x then cube_root_from bits' x candidate
      else cube_root_from bits' x root
  end.

Definition cube_root (x : N) : N := cube_root_from 40 x 0.

(** The round constants are the first 32 bits of the fractional parts
    of the cube roots of the first 64 primes; the initial hash value is
    made of those of the square roots of the first 8 primes. *)
Definition round_constants : list N :=
  (fun p => mask32 (cube_root (p * 2 ^ 96))) <$> first_primes 64.

Definition initial_words : list N :=
  (fun p => mask32 (N.sqrt (p * 2 ^ 64))) <$> first_primes 8.

(** The eight working variables, or the hash value between blocks. *)
Record state : Type := State { sa : N; sb : N; sc : N; sd : N;
                               se : N; sf : N; sg : N; sh : N }.

Definition initial_state : state :=
  State (nth 0 initial_words 0) (nth 1 initial_words 0)
        (nth 2 initial_words 0) (nth 3 initial_words 0)
        (nth 4 initial_words 0) (nth 5 initial_words 0)
        (nth 6 initial_words 0) (nth 7 initial_words 0).

(** The message with its padding: a 1 bit, zeros, and the bit length on
    eight bytes, up to a multiple of 64 bytes. *)
Definition byte_of (x : N) : byte :=
  match Byte.of_N (x mod 256) with Some c => c | None => x00 end.

Definition big_endian (width : nat) (x : N) : bytes :=
  (fun i => byte_of (N.shiftr x (8 * N.of_nat (width - 1 - i))))
    <$> seq 0 width.

Definition pad (message : bytes) : bytes :=
  let len := length message in
  message ++ [x80]
  ++ replicate ((64 + 55 - len mod 64) mod 64) x00
  ++ big_endian 8 (8 * N.of_nat len).

Definition word_of (x3 x2 x1 x0 : byte) : N :=
  N.lor (N.shiftl (Byte.to_N x3) 24)
    (N.lor (N.shiftl (Byte.to_N x2) 16)
       (N.lor (N.shiftl (Byte.to_N x1) 8) (Byte.to_N x0))).

Fixpoint words_of (data : bytes) : list N :=
  match data with
  | x3 :: x2 :: x1 :: x0 :: rest => word_of x3 x2 x1 x0 :: words_of rest
  | _ => []
  end.

(** The message schedule, latest word first. *)
Fixpoint extend (count : nat) (schedule : list N) : list N :=
  match count with
  | O => schedule
  | S count' =>
      let w := add32 (add32 (small_sigma1 (nth 1 schedule 0))
                            (nth 6 schedule 0))
                     (add32 (small_sigma0 (nth 14 schedule 0))
                            (nth 15 schedule 0)) in
      extend count' (w :: schedule)
  end.

Definition round (s : state) (kw : N * N) : state :=
  let t1 := add32 (add32 (add32 (sh s) (big_sigma1 (se s)))
                         (add32 (ch (se s) (sf s) (sg s)) kw.1)) kw.2 in
  let t2 := add32 (big_sigma0 (sa s)) (maj (sa s) (sb s) (sc s)) in
  State (add32 t1 t2) (sa s) (sb s) (sc s) (add32 (sd s) t1)
        (se s) (sf s) (sg s).

Definition compress (hash : state) (block : list N) : state :=
  let schedule := rev (extend 48 (rev block)) in
  let s := foldl round hash (zip round_constants schedule) in
  State (add32 (sa hash) (sa s)) (add32 (sb hash) (sb s))
        (add32 (sc hash) (sc s)) (add32 (sd hash) (sd s))
        (add32 (se hash) (se s)) (add32 (sf hash) (sf s))
        (add32 (sg hash) (sg s)) (add32 (sh hash) (sh s)).

Fixpoint blocks (count : nat) (words : list N) : list (list N) :=
  match count with
  | O => []
  | S count' => take 16 words :: blocks count' (drop 16 words)
  end.

Definition sha256 (message : bytes) : bytes :=
  let words := words_of (pad message) in
  let s := foldl compress initial_state
                 (blocks (length words / 16) words) in
  big_endian 4 (sa s) ++ big_endian 4 (sb s) ++ big_endian 4 (sc s)
  ++ big_endian 4 (sd s) ++ big_endian 4 (se s) ++ big_endian 4 (sf s)
  ++ big_endian 4 (sg s) ++ big_endian 4 (sh s).

End Sha256.

(** ** Packet tags: [ddht/v5/tags.py] *)

Module Tags.

Definition byte_xor (x y : byte) : byte :=
  match Byte.of_N (N.lxor (Byte.to_N x) (Byte.to_N y)) with
  | Some z => z
  | None => x00
  end.

(** Modelled from the spec: [ddht._utils.sxor] is defined in another
    module.  The spec calls the tag [sha256(dst) XOR src]: the byte-wise
    exclusive or of two byte strings of one length; strings of different
    lengths are an error. *)
Definition sxor (s1 s2 : bytes) : result bytes :=
  if decide (length s1 = length s2)
  then Ok (zip_with byte_xor s1 s2)
  else Raise ValueError.

Definition compute_tag (source_node_id destination_node_id : bytes)
  : result bytes :=
  let destination_node_id_hash := Sha256.sha256 destination_node_id in
  sxor destination_node_id_hash source_node_id.

Definition recover_source_id_from_tag (tag destination_node_id : bytes)
  : result bytes :=
  let destination_node_id_hash := Sha256.sha256 destination_node_id in
  sxor tag destination_node_id_hash.

End Tags.

(** A Python bytes literal [b"..."]. *)
Definition b (s : string) : bytes := String.list_byte_of_string s.

(** ** The local ENR: [ddht/app.py] *)

Module App.

(** Values of ENR pairs are byte strings or integers ([b"udp"] maps to
    the port number). *)
Inductive value : Type :=
| VBytes (x : bytes)
| VInt (n : Z).

#[global] Instance value_eq_dec : EqDecision value.
Proof. solve_decision. Defined.

Record ENR : Type := {
  sequence_number : Z;
  kv_pairs : gmap bytes value;
  signature : bytes;
}.

Record UnsignedENR : Type := {
  unsigned_sequence_number : Z;
  unsigned_kv_pairs : gmap bytes value;
}.

Record BootInfo : Type := { port : Z }.

(** [toolz.merge(d1, d2)]: the later dictionary wins on a common key. *)
Definition merge (d1 d2 : gmap bytes value) : gmap bytes value := d2 ∪ d1.

Section WithKeys.
(** The key material and the identity scheme are external
    (eth_keys and the "v4" identity scheme). *)
Context {PrivateKey : Type}.
Variable to_compressed_bytes : PrivateKey -> bytes.
Variable create_enr_signature : UnsignedENR -> PrivateKey -> bytes.
Variable extract_node_id : gmap bytes value -> bytes.

Definition to_signed_enr (u : UnsignedENR) (key : PrivateKey) : ENR :=
  {| sequence_number := unsigned_sequence_number u;
     kv_pairs := unsigned_kv_pairs u;
     signature := create_enr_signature u key |}.

Definition node_id (enr : ENR) : bytes := extract_node_id (kv_pairs enr).

(** The pairs of the minimal ENR built on lines 57-63. *)
Definition minimal_kv_pairs (boot_info : BootInfo) (key : PrivateKey)
  : gmap bytes value :=
  {[ b "id" := VBytes (b "v4");
     b "secp256k1" := VBytes (to_compressed_bytes key);
     b "udp" := VInt (port boot_info) ]}.

Definition get_local_enr (boot_info : BootInfo)
    (node_db : gmap bytes ENR) (local_private_key : PrivateKey) : ENR :=
  let minimal_enr :=
    to_signed_enr
      {| unsigned_sequence_number := 1;
         unsigned_kv_pairs := minimal_kv_pairs boot_info local_private_key |}
      local_private_key in
  let node_id := node_id minimal_enr in
  match node_db !! node_id with
  | None => minimal_enr
  | Some base_enr =>
      if existsb
           (fun '(key, value) =>
              bool_decide (kv_pairs base_enr !! key = None)
              || bool_decide (kv_pairs base_enr !! key ≠ Some value))
           (map_to_list (kv_pairs minimal_enr))
      then
        to_signed_enr
          {| unsigned_sequence_number := (sequence_number base_enr + 1)%Z;
             unsigned_kv_pairs :=
               merge (kv_pairs base_enr) (kv_pairs minimal_enr) |}
          local_private_key
      else base_enr
  end.
End WithKeys.

End App.

(** ** The v5.1 network: [ddht/v5_1/network.py] *)

Module Net.

(** A node id is a 32-byte string; the code compares node ids and
    takes the exclusive or of their big-endian integers, so a node id
    is kept as that integer. *)
Abbreviation NodeID := N.

Record Endpoint : Type := { ip_address : bytes; port : N }.

Record ENR : Type := {
  node_id : NodeID;
  sequence_number : N;
  ip : option bytes;
  udp : option N;
}.

#[global] Instance Endpoint_eq_dec : EqDecision Endpoint.
Proof. solve_decision. Defined.
#[global] Instance ENR_eq_dec : EqDecision ENR.
Proof. solve_decision. Defined.

(** Modelled from the spec: [ddht.endpoint.Endpoint.from_enr] is defined
    in another module.  An endpoint is the IPv4 address and UDP port
    advertised in an ENR; a record without them has no endpoint
    ([MissingEndpointFields], caught on lines 155 and 404). *)
Definition from_enr (enr : ENR) : result Endpoint :=
  match ip enr, udp enr with
  | Some i, Some p => Ok {| ip_address := i; port := p |}
  | _, _ => Raise MissingEndpointFields
  end.

(** Modelled from the spec: [ddht.kademlia.compute_log_distance] is
    defined in another module.  The glossary defines
    log_distance(a, b) = floor(log2(a XOR b)) + 1, or 0 when a = b. *)
Definition compute_log_distance (left right : NodeID) : N :=
  if decide (left = right) then 0 else N.log2 (N.lxor left right) + 1.

(** The distance constraint on an ENR found at a peer. *)
Definition at_requested_distance (peer : NodeID) (distances : list N)
    (enr : ENR) : Prop :=
  compute_log_distance peer (node_id enr) ∈ distances.

#[global] Instance at_requested_distance_dec peer distances enr :
  Decision (at_requested_distance peer distances enr).
Proof. unfold at_requested_distance. apply _. Defined.

(** Modelled from the spec: [ddht.validation.validate_found_nodes_distances]
    is defined in another module.  A response violates the distance
    constraint when one of its ENRs is not at one of the requested log
    distances from the queried node; this is a validation error. *)
Fixpoint validate_found_nodes_distances
    (enrs : list ENR) (local_node_id : NodeID) (distances : list N)
  : result unit :=
  match enrs with
  | [] => Ok tt
  | enr :: rest =>
      if decide (compute_log_distance local_node_id (node_id enr) ∈ distances)
      then validate_found_nodes_distances rest local_node_id distances
      else Raise ValidationError
  end.

(** Modelled from the spec: [ddht._utils.reduce_enrs] is defined in
    another module.  Per the comment on lines 545-546 it keeps, for each
    node id, the ENR with the highest sequence number. *)
Definition latest (first : ENR) (others : list ENR) : ENR :=
  foldl (fun best enr =>
           if sequence_number best <? sequence_number enr then enr else best)
        first others.

(** The keys of a [groupby] dictionary: first occurrences, in order. *)
Fixpoint group_keys (ids seen : list NodeID) : list NodeID :=
  match ids with
  | [] => []
  | id :: rest =>
      if decide (id ∈ seen) then group_keys rest seen
      else id :: group_keys rest (id :: seen)
  end.

Definition reduce_enrs (enrs : list ENR) : list ENR :=
  omap (fun id =>
          match filter (fun enr => node_id enr = id) enrs with
          | [] => None
          | first :: others => Some (latest first others)
          end)
       (group_keys (node_id <$> enrs) []).

(** *** The routing table, as far as the network uses it *)

(** Modelled from the spec: [ddht.kademlia.KademliaRoutingTable] is
    defined in another module.  It holds 256 buckets, each an ordered
    list of node ids; [get_nodes_at_log_distance d] is the bucket at
    index [d - 1], head to tail. *)
Record KademliaRoutingTable : Type := {
  center_node_id : NodeID;
  bucket_size : nat;
  buckets : list (list NodeID);
}.

Definition num_buckets (rt : KademliaRoutingTable) : N := 256.

Definition get_nodes_at_log_distance
    (rt : KademliaRoutingTable) (log_distance : N) : list NodeID :=
  nth (N.to_nat (log_distance - 1)) (buckets rt) [].

(** *** The client and the state of the network object *)

(** What the network object asks of its client, in order. *)
Inductive call : Type :=
| CallFindNodes (node_id : NodeID) (endpoint : Endpoint)
    (distances : list N) (request_id : option bytes)
| CallStreamFindNodes (node_id : NodeID) (endpoint : Endpoint)
    (distances : list N) (request_id : option bytes)
| CallTalk (node_id : NodeID) (endpoint : Endpoint)
    (protocol payload : bytes) (request_id : option bytes)
| SendFoundNodes (node_id : NodeID) (endpoint : Endpoint)
    (enrs : list ENR) (request_id : bytes)
| SendTalkResponse (node_id : NodeID) (endpoint : Endpoint)
    (payload : bytes) (request_id : bytes).

(** The answers of the remote peers, given the calls made so far.  A
    find-nodes answer is the list of NODES responses, each with its
    ENRs; a talk answer is the payload of the TALKRESP. *)
Record ClientAPI : Type := {
  client_find_nodes :
    list call -> NodeID -> Endpoint -> list N -> option bytes ->
    result (list (list ENR));
  client_stream_find_nodes :
    list call -> NodeID -> Endpoint -> list N -> option bytes ->
    result (list (list ENR));
  client_talk :
    list call -> NodeID -> Endpoint -> bytes -> bytes -> option bytes ->
    result bytes;
}.

Record Network : Type := {
  local_node_id : NodeID;
  local_enr : ENR;                       (* enr_manager.enr *)
  enr_db : gmap NodeID ENR;
  routing_table : KademliaRoutingTable;
  _talk_protocols : gset bytes;          (* the registered protocol ids *)
  calls : list call;
}.

Definition with_enr_db (db : gmap NodeID ENR) (net : Network) : Network :=
  {| local_node_id := local_node_id net; local_enr := local_enr net;
     enr_db := db; routing_table := routing_table net;
     _talk_protocols := _talk_protocols net; calls := calls net |}.

Definition with_call (c : call) (net : Network) : Network :=
  {| local_node_id := local_node_id net; local_enr := local_enr net;
     enr_db := enr_db net; routing_table := routing_table net;
     _talk_protocols := _talk_protocols net; calls := calls net ++ [c] |}.

Definition with_talk_protocols (ps : gset bytes) (net : Network) : Network :=
  {| local_node_id := local_node_id net; local_enr := local_enr net;
     enr_db := enr_db net; routing_table := routing_table net;
     _talk_protocols := ps; calls := calls net |}.

(** *** State and exceptions *)

Definition M (A : Type) : Type := Network -> result A * Network.

Definition ret {A} (a : A) : M A := fun net => (Ok a, net).
Definition raise {A} (e : exn) : M A := fun net => (Raise e, net).
Definition lift {A} (r : result A) : M A := fun net => (r, net).
Definition bind {A B} (m : M A) (k : A -> M B) : M B :=
  fun net =>
    match m net with
    | (Ok a, net') => k a net'
    | (Raise e, net') => (Raise e, net')
    end.

Notation "'let*' x ':=' m 'in' k" := (bind m (fun x => k))
  (at level 10, x name, m at level 100, k at level 200).

(** [for x in xs: f(x)] for an [f] that may raise. *)
Fixpoint for_each {A} (f : A -> result unit) (xs : list A) : result unit :=
  match xs with
  | [] => Ok tt
  | x :: rest =>
      match f x with
      | Ok _ => for_each f rest
      | Raise e => Raise e
      end
  end.

(** *** The ENR database *)

Definition get_enr (node_id : NodeID) : M ENR :=
  fun net =>
    match enr_db net !! node_id with
    | Some enr => (Ok enr, net)
    | None => (Raise KeyError, net)
    end.

(** Modelled from the spec: the ENR database (eth_enr) is defined in
    another package.  It rejects any [set_enr] whose sequence number is
    less than the stored value, signalling an old sequence number. *)
Definition set_enr (enr : ENR) : M unit :=
  fun net =>
    match enr_db net !! node_id enr with
    | Some stored =>
        if sequence_number enr <? sequence_number stored
        then (Raise OldSequenceNumber, net)
        else (Ok tt, with_enr_db (<[node_id enr := enr]> (enr_db net)) net)
    | None => (Ok tt, with_enr_db (<[node_id enr := enr]> (enr_db net)) net)
    end.

(** The database after a [set_enr] that was accepted or rejected. *)
Definition stored_unless_older (enr : ENR) (db : gmap NodeID ENR)
  : gmap NodeID ENR :=
  match db !! node_id enr with
  | Some stored =>
      if sequence_number enr <? sequence_number stored then db
      else <[node_id enr := enr]> db
  | None => <[node_id enr := enr]> db
  end.

(** [try: set_enr(enr) except OldSequenceNumber: pass] *)
Definition set_enr_ignoring_old (enr : ENR) : M unit :=
  fun net =>
    match set_enr enr net with
    | (Raise OldSequenceNumber, net') => (Ok tt, net')
    | other => other
    end.

(** *** Messages handed over by the dispatcher *)

Record FindNodeRequest : Type := {
  fn_sender_node_id : NodeID;
  fn_sender_endpoint : Endpoint;
  fn_request_id : bytes;
  fn_distances : list N;       (* request.message.distances *)
}.

Record TalkRequest : Type := {
  tr_sender_node_id : NodeID;
  tr_sender_endpoint : Endpoint;
  tr_request_id : bytes;
  tr_protocol : bytes;
  tr_payload : bytes;
}.

Section WithClient.
Variable client : ClientAPI.

(** [Network.recursive_find_nodes]: the stream of ENRs that the
    recursive engine delivers for a target, with its effect on the
    network object. *)
Variable recursive_find_nodes : NodeID -> M (list ENR).

(** **** Calls to the client *)

Definition call_find_nodes (node_id : NodeID) (endpoint : Endpoint)
    (distances : list N) (request_id : option bytes)
  : M (list (list ENR)) :=
  fun net =>
    (client_find_nodes client (calls net) node_id endpoint distances
       request_id,
     with_call (CallFindNodes node_id endpoint distances request_id) net).

Definition call_stream_find_nodes (node_id : NodeID) (endpoint : Endpoint)
    (distances : list N) (request_id : option bytes)
  : M (list (list ENR)) :=
  fun net =>
    (client_stream_find_nodes client (calls net) node_id endpoint
       distances request_id,
     with_call
       (CallStreamFindNodes node_id endpoint distances request_id) net).

Definition call_talk (node_id : NodeID) (endpoint : Endpoint)
    (protocol payload : bytes) (request_id : option bytes) : M bytes :=
  fun net =>
    (client_talk client (calls net) node_id endpoint protocol payload
       request_id,
     with_call (CallTalk node_id endpoint protocol payload request_id) net).

Definition send_found_nodes (node_id : NodeID) (endpoint : Endpoint)
    (enrs : list ENR) (request_id : bytes) : M unit :=
  fun net =>
    (Ok tt, with_call (SendFoundNodes node_id endpoint enrs request_id) net).

Definition send_talk_response (node_id : NodeID) (endpoint : Endpoint)
    (payload : bytes) (request_id : bytes) : M unit :=
  fun net =>
    (Ok tt,
     with_call (SendTalkResponse node_id endpoint payload request_id) net).

(** **** TALK API (lines 382-387) *)

Definition add_talk_protocol (protocol_id : bytes) : M unit :=
  fun net =>
    if decide (protocol_id ∈ _talk_protocols net)
    then (Raise DuplicateProtocol, net)
    else (Ok tt,
          with_talk_protocols ({[protocol_id]} ∪ _talk_protocols net) net).

(** **** High level API

    [find_nodes], [talk] and [_fetch_enr] resolve a missing endpoint
    through [endpoint_for_node_id], which falls back on [lookup_enr],
    which calls [_fetch_enr] again.  The functions are first written
    over the [lookup_enr] they call, then tied together by
    [lookup_enr], which recurses on a call depth. *)

Section WithLookup.
Variable lookup_enr_default : NodeID -> M ENR.   (* lookup_enr(node_id) *)

(** lines 807-813 *)
Definition endpoint_for_node_id_with (node_id : NodeID) : M Endpoint :=
  fun net =>
    match get_enr node_id net with
    | (Raise KeyError, net') =>
        (let* enr := lookup_enr_default node_id in lift (from_enr enr)) net'
    | (Raise e, net') => (Raise e, net')
    | (Ok enr, net') => (from_enr enr, net')
    end.

Definition resolve_endpoint (node_id : NodeID)
    (endpoint : option Endpoint) : M Endpoint :=
  match endpoint with
  | None => endpoint_for_node_id_with node_id
  | Some endpoint => ret endpoint
  end.

(** lines 451-472 *)
Definition find_nodes_with (node_id : NodeID) (distances : list N)
    (endpoint : option Endpoint) (request_id : option bytes)
  : M (list ENR) :=
  if decide (distances = []) then raise TypeError
  else
    let* endpoint := resolve_endpoint node_id endpoint in
    let* responses :=
      call_find_nodes node_id endpoint distances request_id in
    let* _ :=
      lift (for_each
              (fun enrs =>
                 validate_found_nodes_distances enrs node_id distances)
              responses) in
    ret (concat responses).

(** lines 281-324: what the returned channel delivers *)
Definition common_network_stream_find_nodes_with (node_id : NodeID)
    (endpoint : option Endpoint) (distances : list N)
    (request_id : option bytes) : M (list ENR) :=
  if decide (distances = []) then raise TypeError
  else
    let* endpoint := resolve_endpoint node_id endpoint in
    let* responses :=
      call_stream_find_nodes node_id endpoint distances request_id in
    ret (concat responses).

(** lines 486-503 *)
Definition talk_with (node_id : NodeID) (protocol payload : bytes)
    (endpoint : option Endpoint) (request_id : option bytes) : M bytes :=
  let* endpoint := resolve_endpoint node_id endpoint in
  let* payload :=
    call_talk node_id endpoint protocol payload request_id in
  if decide (payload = []) then raise (ProtocolNotSupported protocol)
  else ret payload.

(** lines 538-547 *)
Definition _fetch_enr_with (node_id : NodeID)
    (endpoint : option Endpoint) : M ENR :=
  let* enrs := find_nodes_with node_id [0] endpoint None in
  if decide (enrs = []) then raise EmptyFindNodesResponse
  else
    match reduce_enrs enrs with
    | enr :: _ => ret enr
    | [] => raise IndexError
    end.
End WithLookup.

(** lines 530-536 *)
Definition fetch_and_store (fetch : M ENR) : M ENR :=
  let* enr := fetch in
  let* _ := set_enr_ignoring_old enr in
  ret enr.

(** lines 505-536 *)
Fixpoint lookup_enr (depth : nat) (node_id : NodeID) (enr_seq : N)
    (endpoint : option Endpoint) : M ENR :=
  match depth with
  | O => raise RecursionDepthExceeded
  | S depth' =>
      let _fetch_enr :=
        _fetch_enr_with (fun id => lookup_enr depth' id 0 None) in
      fun net =>
        if decide (node_id = local_node_id net)
        then (Raise PlainException, net)
        else
          match get_enr node_id net with
          | (Raise KeyError, net') =>
              match endpoint with
              | None =>
                  (let* found := recursive_find_nodes node_id in
                   match
                     List.find (fun found_enr =>
                                  bool_decide (Net.node_id found_enr = node_id))
                               found
                   with
                   | Some found_enr =>
                       let* endpoint := lift (from_enr found_enr) in
                       fetch_and_store (_fetch_enr node_id (Some endpoint))
                   | None => raise KeyError
                   end) net'
              | Some _ =>
                  fetch_and_store (_fetch_enr node_id endpoint) net'
              end
          | (Raise e, net') => (Raise e, net')
          | (Ok enr, net') =>
              if enr_seq <=? sequence_number enr then (Ok enr, net')
              else fetch_and_store (_fetch_enr node_id endpoint) net'
          end
  end.

(** The functions of the class, at a call depth. *)
Definition endpoint_for_node_id (depth : nat) : NodeID -> M Endpoint :=
  endpoint_for_node_id_with (fun id => lookup_enr depth id 0 None).

Definition find_nodes (depth : nat)
  : NodeID -> list N -> option Endpoint -> option bytes -> M (list ENR) :=
  find_nodes_with (fun id => lookup_enr depth id 0 None).

Definition stream_find_nodes (depth : nat)
  : NodeID -> option Endpoint -> list N -> option bytes -> M (list ENR) :=
  common_network_stream_find_nodes_with
    (fun id => lookup_enr depth id 0 None).

Definition talk (depth : nat)
  : NodeID -> bytes -> bytes -> option Endpoint -> option bytes -> M bytes :=
  talk_with (fun id => lookup_enr depth id 0 None).

Definition _fetch_enr (depth : nat) : NodeID -> option Endpoint -> M ENR :=
  _fetch_enr_with (fun id => lookup_enr depth id 0 None).

(** **** Request handlers *)

(** The stored ENRs that answer one requested distance. *)
Definition enrs_at_distance (net : Network) (distance : N) : list ENR :=
  if decide (distance = 0) then [local_enr net]
  else
    omap (fun node_id => enr_db net !! node_id)
         (get_nodes_at_log_distance (routing_table net) distance).

(** lines 781-782 *)
Fixpoint append_enrs_of (node_ids : list NodeID) (response_enrs : list ENR)
  : M (list ENR) :=
  match node_ids with
  | [] => ret response_enrs
  | node_id :: rest =>
      let* enr := get_enr node_id in
      append_enrs_of rest (response_enrs ++ [enr])
  end.

(** lines 774-784 *)
Fixpoint collect_response_enrs (distances : list N)
    (response_enrs : list ENR) : M (list ENR) :=
  match distances with
  | [] => ret response_enrs
  | distance :: rest =>
      let* response_enrs :=
        (fun net =>
           if decide (distance = 0)
           then (Ok (response_enrs ++ [local_enr net]), net)
           else if decide (distance <= num_buckets (routing_table net))
           then
             append_enrs_of
               (get_nodes_at_log_distance (routing_table net) distance)
               response_enrs net
           else (Raise PlainException, net)) in
      collect_response_enrs rest response_enrs
  end.

(** lines 746-791: the body of the loop, for one request.  Ignoring a
    request ([continue]) leaves the state as it is. *)
Definition serve_find_nodes_request (request : FindNodeRequest) : M unit :=
  fun net =>
    let distances : gset N := list_to_set (fn_distances request) in
    if decide (size distances ≠ length (fn_distances request))
    then (Ok tt, net)
    else if decide (distances = ∅)
    then (Ok tt, net)
    else if existsb
              (fun distance =>
                 num_buckets (routing_table net) <? distance)
              (elements distances)
    then (Ok tt, net)
    else
      (let* response_enrs :=
         collect_response_enrs (elements distances) [] in
       send_found_nodes (fn_sender_node_id request)
         (fn_sender_endpoint request) response_enrs
         (fn_request_id request)) net.

(** lines 742-791 *)
Fixpoint _serve_find_nodes (subscription : list FindNodeRequest) : M unit :=
  match subscription with
  | [] => ret tt
  | request :: rest =>
      let* _ := serve_find_nodes_request request in
      _serve_find_nodes rest
  end.

(** lines 796-802: the body of the loop, for one request *)
Definition handle_unhandled_talk_request (request : TalkRequest) : M unit :=
  fun net =>
    if decide (tr_protocol request ∉ _talk_protocols net)
    then
      send_talk_response (tr_sender_node_id request)
        (tr_sender_endpoint request) [] (tr_request_id request) net
    else (Ok tt, net).

(** lines 793-802 *)
Fixpoint _handle_unhandled_talk_requests (subscription : list TalkRequest)
  : M unit :=
  match subscription with
  | [] => ret tt
  | request :: rest =>
      let* _ := handle_unhandled_talk_request request in
      _handle_unhandled_talk_requests rest
  end.

End WithClient.

End Net.

(** ** The recursive find-nodes engine: [common_recursive_find_nodes] *)

Module Engine.
Import Net.

(** Clock readings ([trio.current_time()]) are rational numbers of
    seconds. *)
#[global] Instance Qlt_dec (x y : Q) : Decision (x < y)%Q.
Proof. destruct (Qlt_le_dec x y); [left|right]; [assumption|]. now apply Qle_not_lt. Defined.

(** The [lru-dict] cache [LRU(2048)]: most recently set key first; a
    set moves the key to the front and drops what exceeds the size. *)
Definition lru_size : nat := 2048.
Abbreviation LRU := (list (NodeID * Q)).

Definition lru_setitem (key : NodeID) (value : Q) (cache : LRU) : LRU :=
  take lru_size ((key, value) :: filter (fun item => item.1 ≠ key) cache).

Definition lru_get (key : NodeID) (cache : LRU) : option Q :=
  snd <$> List.find (fun item => bool_decide (item.1 = key)) cache.

Definition lru_items (cache : LRU) : list (NodeID * Q) := cache.

(** [compute_distance(target, a) <= compute_distance(target, b)] *)
Definition closer (target a b : NodeID) : Prop :=
  N.lxor target a <= N.lxor target b.

#[global] Instance closer_dec target a b : Decision (closer target a b).
Proof. unfold closer. apply _. Defined.

(** Modelled from the spec: [ddht.kademlia.iter_closest_nodes] is
    defined in another module.  It yields every known node id, those of
    the routing table and those given, once and in ascending XOR distance
    to the target. *)
Definition iter_closest_nodes (target : NodeID) (rt : KademliaRoutingTable)
    (seen_nodes : gset NodeID) : list NodeID :=
  merge_sort (closer target)
    (elements (seen_nodes ∪ list_to_set (concat (buckets rt)))).

(** The variables of one invocation (lines 86-113), with the network
    object, the shared cache and what was sent over the channel. *)
Record Lookup : Type := {
  target : NodeID;
  queried_node_ids : gset NodeID;
  unresponsive_node_ids : gset NodeID;
  received_node_ids : gset NodeID;
  in_flight : gset NodeID;
  network : Network;
  unresponsive_cache : LRU;
  sent : list ENR;
}.

Definition with_queried (x : gset NodeID) (st : Lookup) : Lookup :=
  {| target := target st; queried_node_ids := x;
     unresponsive_node_ids := unresponsive_node_ids st;
     received_node_ids := received_node_ids st; in_flight := in_flight st;
     network := network st; unresponsive_cache := unresponsive_cache st;
     sent := sent st |}.

Definition with_unresponsive (x : gset NodeID) (st : Lookup) : Lookup :=
  {| target := target st; queried_node_ids := queried_node_ids st;
     unresponsive_node_ids := x;
     received_node_ids := received_node_ids st; in_flight := in_flight st;
     network := network st; unresponsive_cache := unresponsive_cache st;
     sent := sent st |}.

Definition with_received (x : gset NodeID) (st : Lookup) : Lookup :=
  {| target := target st; queried_node_ids := queried_node_ids st;
     unresponsive_node_ids := unresponsive_node_ids st;
     received_node_ids := x; in_flight := in_flight st;
     network := network st; unresponsive_cache := unresponsive_cache st;
     sent := sent st |}.

Definition with_in_flight (x : gset NodeID) (st : Lookup) : Lookup :=
  {| target := target st; queried_node_ids := queried_node_ids st;
     unresponsive_node_ids := unresponsive_node_ids st;
     received_node_ids := received_node_ids st; in_flight := x;
     network := network st; unresponsive_cache := unresponsive_cache st;
     sent := sent st |}.

Definition with_network (x : Network) (st : Lookup) : Lookup :=
  {| target := target st; queried_node_ids := queried_node_ids st;
     unresponsive_node_ids := unresponsive_node_ids st;
     received_node_ids := received_node_ids st; in_flight := in_flight st;
     network := x; unresponsive_cache := unresponsive_cache st;
     sent := sent st |}.

Definition with_cache (x : LRU) (st : Lookup) : Lookup :=
  {| target := target st; queried_node_ids := queried_node_ids st;
     unresponsive_node_ids := unresponsive_node_ids st;
     received_node_ids := received_node_ids st; in_flight := in_flight st;
     network := network st; unresponsive_cache := x;
     sent := sent st |}.

Definition with_sent (x : list ENR) (st : Lookup) : Lookup :=
  {| target := target st; queried_node_ids := queried_node_ids st;
     unresponsive_node_ids := unresponsive_node_ids st;
     received_node_ids := received_node_ids st; in_flight := in_flight st;
     network := network st; unresponsive_cache := unresponsive_cache st;
     sent := x |}.

(** lines 97-105: the cached node ids younger than 300 seconds *)
Definition recently_unresponsive (now : Q) (cache : LRU) : list NodeID :=
  fst <$> filter (fun item => (now - item.2 < 300)%Q) (lru_items cache).

(** lines 86-113: the state at the start of an invocation *)
Definition common_recursive_find_nodes (network : Network) (target : NodeID)
    (now : Q) (unresponsive_cache : LRU) : Lookup :=
  {| target := target;
     queried_node_ids := ∅;
     unresponsive_node_ids :=
       {[local_node_id network]}
       ∪ list_to_set (recently_unresponsive now unresponsive_cache);
     received_node_ids := ∅;
     in_flight := ∅;
     network := network;
     unresponsive_cache := unresponsive_cache;
     sent := [] |}.

(** lines 115-139 *)
Definition get_unqueried_node_ids (st : Lookup) : list NodeID :=
  let candidates :=
    iter_closest_nodes (target st) (routing_table (network st))
      (received_node_ids st) in
  let responsive_candidates :=
    filter (fun node_id => node_id ∉ unresponsive_node_ids st) candidates in
  let closest_k_candidates :=
    take (bucket_size (routing_table (network st))) responsive_candidates in
  let closest_k_unqueried :=
    filter (fun node_id =>
              ¬ (node_id ∈ queried_node_ids st ∨ node_id ∈ in_flight st))
           closest_k_candidates in
  take 3 closest_k_unqueried.

Section WithClient.
Variable client : ClientAPI.
Variable recursive_find_nodes : NodeID -> M (list ENR).
Variable depth : nat.

(** lines 165-169 *)
Fixpoint store_enrs (found_enrs : list ENR) (net : Network) : Network :=
  match found_enrs with
  | [] => net
  | enr :: rest => store_enrs rest (set_enr_ignoring_old enr net).2
  end.

(** lines 141-184; [now] is the clock reading at line 157 *)
Definition do_lookup (now : Q) (node_id : NodeID) (st : Lookup)
  : result unit * Lookup :=
  let distance :=
    if decide (node_id = target st) then 0
    else compute_log_distance node_id (target st) in
  match
    find_nodes client recursive_find_nodes depth node_id [distance]
      None None (network st)
  with
  | (Raise e, net') =>
      let st := with_network net' st in
      if decide (e = TooSlowError ∨ e = MissingEndpointFields
                 ∨ e = ValidationError)
      then
        let st :=
          with_unresponsive ({[node_id]} ∪ unresponsive_node_ids st) st in
        (Ok tt,
         with_cache (lru_setitem node_id now (unresponsive_cache st)) st)
      else if decide (e = Cancelled)
      then
        (Raise Cancelled,
         with_unresponsive ({[node_id]} ∪ unresponsive_node_ids st) st)
      else (Raise e, st)
  | (Ok found_enrs, net') =>
      let st := with_network (store_enrs found_enrs net') st in
      let new_enrs :=
        filter (fun enr => Net.node_id enr ∉ received_node_ids st)
               found_enrs in
      let st :=
        with_received
          (received_node_ids st ∪ list_to_set (Net.node_id <$> new_enrs))
          st in
      (Ok tt, with_sent (sent st ++ new_enrs) st)
  end.

(** lines 210-214 *)
Fixpoint send_known (node_ids : list NodeID) (st : Lookup)
  : result unit * Lookup :=
  match node_ids with
  | [] => (Ok tt, st)
  | node_id :: rest =>
      if decide (node_id ∉ received_node_ids st)
      then
        match get_enr node_id (network st) with
        | (Ok enr, _) =>
            let st :=
              with_received ({[node_id]} ∪ received_node_ids st) st in
            send_known rest (with_sent (sent st ++ [enr]) st)
        | (Raise e, _) => (Raise e, st)
        end
      else send_known rest st
  end.

(** lines 194-219: a worker takes its next batch *)
Definition worker_pick (st : Lookup) : result (list NodeID) * Lookup :=
  let node_ids := get_unqueried_node_ids st in
  if decide (node_ids = []) then (Ok [], st)
  else
    let st :=
      with_queried (queried_node_ids st ∪ list_to_set node_ids) st in
    let st := with_in_flight (in_flight st ∪ list_to_set node_ids) st in
    match send_known node_ids st with
    | (Ok _, st) => (Ok node_ids, st)
    | (Raise e, st) => (Raise e, st)
    end.

(** lines 232-236 *)
Definition worker_release (node_ids : list NodeID) (st : Lookup) : Lookup :=
  with_in_flight (in_flight st ∖ list_to_set node_ids) st.

(** The workers interleave at their suspension points: one step is a
    worker taking a batch, one lookup running to its end, or a worker
    releasing its batch.  A lookup step is labelled with the peer, the
    clock reading and what [find_nodes] gave. *)
Inductive label : Type :=
| LPick (outcome : result (list NodeID))
| LLookup (node_id : NodeID) (now : Q) (outcome : result (list ENR))
| LRelease (node_ids : list NodeID).

Definition lookup_distance (node_id : NodeID) (st : Lookup) : N :=
  if decide (node_id = target st) then 0
  else compute_log_distance node_id (target st).

Inductive step : Lookup -> label -> Lookup -> Prop :=
| step_pick st :
    step st (LPick (worker_pick st).1) (worker_pick st).2
| step_lookup st now node_id :
    step st
      (LLookup node_id now
         (find_nodes client recursive_find_nodes depth node_id
            [lookup_distance node_id st] None None (network st)).1)
      (do_lookup now node_id st).2
| step_release st node_ids :
    step st (LRelease node_ids) (worker_release node_ids st).

Inductive run : Lookup -> list label -> Lookup -> Prop :=
| run_nil st : run st [] st
| run_snoc st trace st' l st'' :
    run st trace st' -> step st' l st'' -> run st (trace ++ [l]) st''.

End WithClient.

(** *** The batch, in the words of the specification *)

(** The known node ids: the received set united with the routing table. *)
Definition known_node_ids (st : Lookup) : gset NodeID :=
  received_node_ids st
  ∪ list_to_set (concat (buckets (routing_table (network st)))).

(** The known responsive node ids strictly closer to the target than [n]. *)
Definition closer_responsive (st : Lookup) (n : NodeID) : gset NodeID :=
  filter (fun m => (m ∉ unresponsive_node_ids st)
                   /\ N.lxor (target st) m < N.lxor (target st) n)
         (known_node_ids st).

(** [n] is one of the closest [bucket_size] known responsive node ids
    and is neither queried nor in flight. *)
Definition eligible (st : Lookup) (n : NodeID) : Prop :=
  n ∈ known_node_ids st
  /\ (n ∉ unresponsive_node_ids st)
  /\ (size (closer_responsive st n)
      < bucket_size (routing_table (network st)))%nat
  /\ (n ∉ queried_node_ids st)
  /\ (n ∉ in_flight st).

#[global] Instance eligible_dec st n : Decision (eligible st n).
Proof. unfold eligible. apply _. Defined.

(** The eligible node ids strictly closer to the target than [n]. *)
Definition closer_eligible (st : Lookup) (n : NodeID) : gset NodeID :=
  filter (fun m => eligible st m
                   /\ N.lxor (target st) m < N.lxor (target st) n)
         (known_node_ids st).

(** *** The unresponsive set, in the words of the specification *)

Definition failed_outcome (outcome : result (list ENR)) : bool :=
  match outcome with
  | Raise TooSlowError | Raise ValidationError
  | Raise MissingEndpointFields => true
  | _ => false
  end.

Definition cancelled_outcome (outcome : result (list ENR)) : bool :=
  match outcome with
  | Raise Cancelled => true
  | _ => false
  end.

(** The peers with a lookup in the trace whose outcome satisfies [p]. *)
Definition peers_with (p : result (list ENR) -> bool) (trace : list label)
  : gset NodeID :=
  list_to_set
    (omap (fun l =>
             match l with
             | LLookup node_id _ outcome =>
                 if p outcome then Some node_id else None
             | _ => None
             end) trace).

(** The local node id, the peers that failed in this invocation and the
    peers of the shared cache younger than 300 seconds at the start. *)
Definition specified_unresponsive (network : Network) (now : Q)
    (cache : LRU) (trace : list label) : gset NodeID :=
  {[local_node_id network]}
  ∪ peers_with failed_outcome trace
  ∪ list_to_set (recently_unresponsive now cache).

End Engine.

(** ** A concrete local ENR setting *)

Module AppDemo.
Import App.

(** Keys are byte strings; the public key and the signature are
    stand-ins for the external cryptography. *)
Definition demo_pubkey (k : bytes) : bytes := x02 :: k.
Definition demo_sign (u : UnsignedENR) (k : bytes) : bytes :=
  k ++ [x01].
Definition demo_node_id (kv : gmap bytes value) : bytes :=
  match kv !! b "secp256k1" with
  | Some (VBytes x) => x
  | _ => []
  end.
Definition demo_key : bytes := [x07; x09].
Definition demo_boot : BootInfo := {| port := 30303 |}.
Definition demo_stored_same : ENR :=
  {| sequence_number := 5;
     kv_pairs := <[ b "ip" := VBytes [x7f; x00; x00; x01] ]>
                   (minimal_kv_pairs demo_pubkey demo_boot demo_key);
     signature := [xaa] |}.
Definition demo_stored_old_port : ENR :=
  {| sequence_number := 5;
     kv_pairs := <[ b "udp" := VInt 30301 ]>
                   (<[ b "ip" := VBytes [x7f; x00; x00; x01] ]>
                      (minimal_kv_pairs demo_pubkey demo_boot demo_key));
     signature := [xaa] |}.
Definition demo_local_id : bytes :=
  demo_node_id (minimal_kv_pairs demo_pubkey demo_boot demo_key).

End AppDemo.

(** ** A concrete network *)

Module NetDemo.
Import Net.

Definition ep (p : N) : Endpoint :=
  {| ip_address := [x7f; x00; x00; x01]; port := p |}.

Definition enr_of (id seq : N) : ENR :=
  {| node_id := id; sequence_number := seq;
     ip := Some [x7f; x00; x00; x01]; udp := Some (30300 + id) |}.

(** Peer 6 never answers and a request to peer 7 is cancelled.  Any
    other peer answers a request for distance 0 with its own record at
    sequence number 2; peer 5 answers any other request with two
    responses, the records of the peers 6 and 9. *)
Definition demo_find_nodes (_ : list call) (node_id : NodeID)
    (_ : Endpoint) (distances : list N) (_ : option bytes)
  : result (list (list ENR)) :=
  if decide (node_id = 6) then Raise TooSlowError
  else if decide (node_id = 7) then Raise Cancelled
  else if decide (distances = [0]) then Ok [[enr_of node_id 2]]
  else if decide (node_id = 5) then Ok [[enr_of 6 1]; [enr_of 9 1]]
  else Ok [].

Definition demo_talk (_ : list call) (_ : NodeID) (_ : Endpoint)
    (protocol payload : bytes) (_ : option bytes) : result bytes :=
  if decide (protocol = b "echo") then Ok payload else Ok [].

Definition demo_client : ClientAPI :=
  {| client_find_nodes := demo_find_nodes;
     client_stream_find_nodes := demo_find_nodes;
     client_talk := demo_talk |}.

(** A recursive lookup that finds the peers 8 and 5. *)
Definition demo_recursive_find_nodes (_ : NodeID) : M (list ENR) :=
  ret [enr_of 8 1; enr_of 5 1].

Definition demo_routing_table : KademliaRoutingTable :=
  {| center_node_id := 1; bucket_size := 16;
     buckets := [[]; []; [5; 6; 7]] ++ replicate 253 [] |}.

Definition demo_net : Network :=
  {| local_node_id := 1;
     local_enr := enr_of 1 4;
     enr_db := {[ 5 := enr_of 5 1; 6 := enr_of 6 1; 7 := enr_of 7 1 ]};
     routing_table := demo_routing_table;
     _talk_protocols := {[ b "echo" ]};
     calls := [] |}.

(** The same network when the stored record of peer 5 has no IP
    address. *)
Definition enr_without_ip : ENR :=
  {| node_id := 5; sequence_number := 1; ip := None; udp := Some 30305 |}.

Definition demo_net_without_ip : Network :=
  with_enr_db (<[5 := enr_without_ip]> (enr_db demo_net)) demo_net.

(** A client whose peers answer every request with one response
    without ENRs. *)
Definition empty_client : ClientAPI :=
  {| client_find_nodes := fun _ _ _ _ _ => Ok [[]];
     client_stream_find_nodes := fun _ _ _ _ _ => Ok [[]];
     client_talk := fun _ _ _ _ _ _ => Ok [] |}.

Definition demo_find_node_request (distances : list N) : FindNodeRequest :=
  {| fn_sender_node_id := 5; fn_sender_endpoint := ep 30305;
     fn_request_id := [x01]; fn_distances := distances |}.

Definition demo_talk_request (protocol : bytes) : TalkRequest :=
  {| tr_sender_node_id := 5; tr_sender_endpoint := ep 30305;
     tr_request_id := [x02]; tr_protocol := protocol;
     tr_payload := [x2a] |}.

End NetDemo.

(** ** A concrete invocation of the engine *)

Module EngineDemo.
Import Net Engine NetDemo.

(** The shared cache when the invocation starts, at clock reading 600:
    peer 10 was unresponsive 100 seconds ago, peer 9 500 seconds ago. *)
Definition demo_cache : LRU := [(10, 500%Q); (9, 100%Q)].

Definition demo_lookup : Lookup :=
  common_recursive_find_nodes demo_net 4 600%Q demo_cache.

(** The lookup on peer 6 times out at clock reading 610. *)
Definition demo_after_timeout : Lookup :=
  (do_lookup demo_client demo_recursive_find_nodes 1 610%Q 6 demo_lookup).2.

(** The lookup on peer 7 is cancelled at clock reading 605. *)
Definition demo_after_cancel : Lookup :=
  (do_lookup demo_client demo_recursive_find_nodes 1 605%Q 7 demo_lookup).2.

(** An invocation that looks for peer 5 itself. *)
Definition demo_lookup_self : Lookup :=
  common_recursive_find_nodes demo_net 5 600%Q demo_cache.

End EngineDemo.

(** ** The long-running processes of the network object *)

Module Maintenance.
Import Net Engine.

Definition with_routing_table (rt : KademliaRoutingTable) (net : Network)
  : Network :=
  {| local_node_id := local_node_id net; local_enr := local_enr net;
     enr_db := enr_db net; routing_table := rt;
     _talk_protocols := _talk_protocols net; calls := calls net |}.

(** A computation keeps a property of the network object when the
    property holds of the state it ends in, in every outcome, if it held
    of the state it started in. *)
Definition keeps (P : Network -> Prop) {A} (m : M A) : Prop :=
  forall net, P net -> P (m net).2.

(** The parts of the network object other than the database and the
    log of calls are the same in [net'] as in [net]. *)
Definition same_configuration (net net' : Network) : Prop :=
  routing_table net' = routing_table net
  /\ local_node_id net' = local_node_id net
  /\ local_enr net' = local_enr net
  /\ _talk_protocols net' = _talk_protocols net.

(** Every node id with a record in [db] has one in [db'], with a
    sequence number that is not lower. *)
Definition at_least_as_new (db db' : gmap NodeID ENR) : Prop :=
  forall id stored,
    db !! id = Some stored ->
    exists stored',
      db' !! id = Some stored'
      /\ sequence_number stored <= sequence_number stored'.

(** Each record is kept under its own node id. *)
Definition keyed (db : gmap NodeID ENR) : Prop :=
  map_Forall (fun id stored => node_id stored = id) db.

(** *** The report on the routing table (lines 586-606) *)

(** [enumerate(buckets, start)] *)
Definition enumerate {A} (start : nat) (xs : list A) : list (nat * A) :=
  imap (fun idx x => ((start + idx)%nat, x)) xs.

(** lines 588-596 *)
Definition non_empty_buckets (rt : KademliaRoutingTable)
  : list (nat * list NodeID) :=
  reverse (filter (fun item => item.2 ≠ []) (enumerate 1 (buckets rt))).

(** line 597 *)
Definition total_size (rt : KademliaRoutingTable) : nat :=
  sum_list ((fun item => length item.2) <$> non_empty_buckets rt).

(** lines 598-603: per bucket its index and ['F'] ([None]) or its
    length *)
Definition bucket_info (rt : KademliaRoutingTable)
  : list (nat * option nat) :=
  (fun item =>
     (item.1,
      if decide (length item.2 = bucket_size rt) then None
      else Some (length item.2)))
    <$> non_empty_buckets rt.

(** *** The buckets to refresh (lines 686-690) *)

(** [xs[-n:]] *)
Definition last_items {A} (n : nat) (xs : list A) : list A :=
  drop (length xs - n) xs.

Definition non_full_distances (rt : KademliaRoutingTable) : list nat :=
  fst <$> filter (fun item => (length item.2 < bucket_size rt)%nat)
                 (enumerate 1 (buckets rt)).

Definition non_full_bucket_distances (rt : KademliaRoutingTable)
  : list nat :=
  last_items 16 (non_full_distances rt).

(** *** The first pass over the bootnodes (lines 647-666) *)



(** *** What a refresh does with the ENRs it finds (lines 697-707) *)

(** The node ids to bond with, in the order of the stream. *)
Fixpoint bond_found (found : list ENR) : M (list NodeID) :=
  match found with
  | [] => ret []
  | enr :: rest =>
      fun net =>
        if decide (node_id enr = local_node_id net)
        then bond_found rest net
        else
          (let* _ := set_enr_ignoring_old enr in
           let* bonds := bond_found rest in
           ret (node_id enr :: bonds)) net
  end.

(** *** Pings and pongs *)

Record PongMessage : Type := {
  pong_request_id : bytes;
  pong_enr_seq : N;
  pong_packet_ip : bytes;
  pong_packet_port : N;
}.

(** An inbound PING, as the dispatcher hands it over. *)
Record PingRequest : Type := {
  pr_sender_node_id : NodeID;
  pr_sender_endpoint : Endpoint;
  pr_request_id : bytes;
  pr_enr_seq : N;
}.

(** A call to [client.ping]. *)
Record PingCall : Type := {
  pc_node_id : NodeID;
  pc_endpoint : Endpoint;
  pc_request_id : option bytes;
}.

(** A PONG handed to the dispatcher. *)
Record SentPong : Type := {
  sp_node_id : NodeID;
  sp_endpoint : Endpoint;
  sp_message : PongMessage;
}.

(** The network object with what its long-running processes use: the
    pings made, the pongs sent, [_last_pong_at] and the event
    [_routing_table_ready]. *)
Record Node : Type := {
  net : Network;
  pings : list PingCall;
  pongs : list SentPong;
  _last_pong_at : LRU;
  _routing_table_ready : bool;
}.

Definition with_net (x : Network) (st : Node) : Node :=
  {| net := x; pings := pings st; pongs := pongs st;
     _last_pong_at := _last_pong_at st;
     _routing_table_ready := _routing_table_ready st |}.

Definition with_pings (x : list PingCall) (st : Node) : Node :=
  {| net := net st; pings := x; pongs := pongs st;
     _last_pong_at := _last_pong_at st;
     _routing_table_ready := _routing_table_ready st |}.

Definition with_pongs (x : list SentPong) (st : Node) : Node :=
  {| net := net st; pings := pings st; pongs := x;
     _last_pong_at := _last_pong_at st;
     _routing_table_ready := _routing_table_ready st |}.

Definition with_last_pong_at (x : LRU) (st : Node) : Node :=
  {| net := net st; pings := pings st; pongs := pongs st;
     _last_pong_at := x;
     _routing_table_ready := _routing_table_ready st |}.

Definition with_ready (x : bool) (st : Node) : Node :=
  {| net := net st; pings := pings st; pongs := pongs st;
     _last_pong_at := _last_pong_at st; _routing_table_ready := x |}.

(** A computation on the network object, run inside the node. *)
Definition in_net {A} (m : M A) (st : Node) : result A * Node :=
  ((m (net st)).1, with_net (m (net st)).2 st).

(** A read of the [lru-dict] cache ([cache[key]] and [cache.get(key)])
    makes the key the most recently used one. *)
Definition lru_getitem (key : NodeID) (cache : LRU) : option Q * LRU :=
  match lru_get key cache with
  | Some value =>
      (Some value, (key, value) :: filter (fun item => item.1 ≠ key) cache)
  | None => (None, cache)
  end.

(** [min(nodes, key=lambda node_id: cache.get(node_id, 0))] with the
    best node so far and its key: the first of the least ones wins. *)
Fixpoint min_by_last_pong (best : NodeID) (best_key : Q)
    (nodes : list NodeID) (cache : LRU) : NodeID * LRU :=
  match nodes with
  | [] => (best, cache)
  | node_id :: rest =>
      let key := default 0%Q (lru_getitem node_id cache).1 in
      let cache := (lru_getitem node_id cache).2 in
      if decide (key < best_key)%Q
      then min_by_last_pong node_id key rest cache
      else min_by_last_pong best best_key rest cache
  end.


(** What one turn of the loop of [_ping_oldest_routing_table_entry]
    does. *)
Inductive keep_alive_turn : Type :=
| Slept (seconds : Q)
| Bonded (node_id : NodeID) (did_bond : bool).

Section WithClient.
Variable client : ClientAPI.
Variable recursive_find_nodes : NodeID -> M (list ENR).
Variable depth : nat.

(** The answer of a peer to a PING, given the calls and the pings made
    so far. *)
Variable client_ping :
  list call -> list PingCall -> NodeID -> Endpoint -> option bytes ->
  result PongMessage.

(** [ddht.kademlia] is defined elsewhere: the [update] and the [remove]
    of the routing table are parameters. *)
Variable rt_update : NodeID -> KademliaRoutingTable -> KademliaRoutingTable.
Variable rt_remove : NodeID -> KademliaRoutingTable -> KademliaRoutingTable.

(** [ddht.v5_1.constants.ROUTING_TABLE_KEEP_ALIVE] *)
Variable ROUTING_TABLE_KEEP_ALIVE : Q.

(** lines 439-449 *)
Definition ping (node_id : NodeID) (endpoint : option Endpoint)
    (request_id : option bytes) (st : Node) : result PongMessage * Node :=
  match
    in_net (resolve_endpoint
              (fun id => lookup_enr client recursive_find_nodes depth id 0 None)
              node_id endpoint) st
  with
  | (Raise e, st) => (Raise e, st)
  | (Ok endpoint, st) =>
      (client_ping (calls (net st)) (pings st) node_id endpoint request_id,
       with_pings
         (pings st
          ++ [{| pc_node_id := node_id; pc_endpoint := endpoint;
                 pc_request_id := request_id |}]) st)
  end.

(** [self.routing_table.update(enr.node_id)] followed by
    [self._routing_table_ready.set()] *)
Definition add_to_routing_table (enr : ENR) (st : Node) : Node :=
  with_ready true
    (with_net
       (with_routing_table
          (rt_update (node_id enr) (routing_table (net st))) (net st)) st).

(** lines 392-434 *)
Definition bond (node_id : NodeID) (endpoint : option Endpoint) (st : Node)
  : result bool * Node :=
  match ping node_id endpoint None st with
  | (Raise e, st) =>
      if decide (e = TooSlowError ∨ e = MissingEndpointFields)
      then (Ok false, st)
      else (Raise e, st)
  | (Ok pong, st) =>
      match
        in_net (lookup_enr client recursive_find_nodes depth node_id
                  (pong_enr_seq pong) endpoint) st
      with
      | (Raise e, st) =>
          if decide (e = TooSlowError ∨ e = EmptyFindNodesResponse)
          then (Ok false, st)
          else (Raise e, st)
      | (Ok enr, st) => (Ok true, add_to_routing_table enr st)
      end
  end.

(** lines 613-640: one turn of the loop of
    [_ping_oldest_routing_table_entry]; [nodes] is what
    [iter_all_random] yields and [now] the clock reading of line 628 *)
Definition ping_oldest_turn (nodes : list NodeID) (now : Q) (st : Node)
  : result keep_alive_turn * Node :=
  match nodes with
  | [] => (Ok (Slept ROUTING_TABLE_KEEP_ALIVE), st)
  | first_node_id :: nodes_iter =>
      let first_key :=
        default 0%Q (lru_getitem first_node_id (_last_pong_at st)).1 in
      let cache := (lru_getitem first_node_id (_last_pong_at st)).2 in
      let least_recently_ponged_node_id :=
        (min_by_last_pong first_node_id first_key nodes_iter cache).1 in
      let cache :=
        (min_by_last_pong first_node_id first_key nodes_iter cache).2 in
      let too_old_at := (now - ROUTING_TABLE_KEEP_ALIVE)%Q in
      let last_pong_at :=
        (lru_getitem least_recently_ponged_node_id cache).1 in
      let st :=
        with_last_pong_at
          (lru_getitem least_recently_ponged_node_id cache).2 st in
      let probe :=
        match bond least_recently_ponged_node_id None st with
        | (Raise e, st) => (Raise e, st)
        | (Ok true, st) => (Ok (Bonded least_recently_ponged_node_id true), st)
        | (Ok false, st) =>
            (Ok (Bonded least_recently_ponged_node_id false),
             with_net
               (with_routing_table
                  (rt_remove least_recently_ponged_node_id
                     (routing_table (net st))) (net st)) st)
        end in
      match last_pong_at with
      | None => probe
      | Some last_pong_at =>
          if decide (too_old_at < last_pong_at)%Q
          then (Ok (Slept (last_pong_at - too_old_at)%Q), st)
          else probe
      end
  end.

(** lines 726-739: the PONG that answers a PING *)
Definition send_pong (request : PingRequest) (st : Node) : Node :=
  with_pongs
    (pongs st
     ++ [{| sp_node_id := pr_sender_node_id request;
            sp_endpoint := pr_sender_endpoint request;
            sp_message :=
              {| pong_request_id := pr_request_id request;
                 pong_enr_seq := sequence_number (local_enr (net st));
                 pong_packet_ip := ip_address (pr_sender_endpoint request);
                 pong_packet_port := port (pr_sender_endpoint request) |} |}])
    st.

(** lines 710-723 *)
Definition _maybe_add_to_routing_table (request : PingRequest) (st : Node)
  : result unit * Node :=
  match
    in_net (lookup_enr client recursive_find_nodes depth
              (pr_sender_node_id request) (pr_enr_seq request)
              (Some (pr_sender_endpoint request))) st
  with
  | (Raise e, st) =>
      if decide (e = TooSlowError ∨ e = EmptyFindNodesResponse)
      then (Ok tt, st)
      else (Raise e, st)
  | (Ok enr, st) => (Ok tt, add_to_routing_table enr st)
  end.

End WithClient.

End Maintenance.

Module MaintenanceDemo.
Import Net Engine NetDemo Maintenance.

(** Peer 6 does not answer a PING; the others answer with ENR sequence
    number 1. *)
Definition demo_ping (_ : list call) (_ : list PingCall) (node_id : NodeID)
    (_ : Endpoint) (request_id : option bytes) : result PongMessage :=
  if decide (node_id = 6) then Raise TooSlowError
  else Ok {| pong_request_id := default [] request_id; pong_enr_seq := 1;
             pong_packet_ip := b "host"; pong_packet_port := 30301 |}.

(** A routing table with room: [update] moves the node id to the tail
    of its bucket, [remove] drops it. *)
Definition demo_remove (node_id : NodeID) (rt : KademliaRoutingTable)
  : KademliaRoutingTable :=
  {| center_node_id := center_node_id rt; bucket_size := bucket_size rt;
     buckets := filter (fun other => other ≠ node_id) <$> buckets rt |}.

Definition demo_update (node_id : NodeID) (rt : KademliaRoutingTable)
  : KademliaRoutingTable :=
  {| center_node_id := center_node_id rt; bucket_size := bucket_size rt;
     buckets :=
       alter (fun bucket => bucket ++ [node_id])
         (N.to_nat (compute_log_distance (center_node_id rt) node_id - 1))
         (buckets (demo_remove node_id rt)) |}.

(** Peer 5 ponged at clock reading 590, peer 7 at 100, peer 6 never. *)
Definition demo_node : Node :=
  {| net := demo_net; pings := []; pongs := [];
     _last_pong_at := [(5, 590%Q); (7, 100%Q)];
     _routing_table_ready := false |}.

End MaintenanceDemo.

(** ** The start of the application: [ddht/app.py] *)

Module AppBoot.
Import App.

Section WithKeys.
Context {PrivateKey : Type}.
Variable to_compressed_bytes : PrivateKey -> bytes.
Variable create_enr_signature : UnsignedENR -> PrivateKey -> bytes.
Variable extract_node_id : gmap bytes value -> bytes.

(** [get_local_private_key]: [private_key] is the key of the boot
    info, [nodekey] the key that [read_node_key_file] finds in the file
    [nodekey] of the base directory when the file exists, [generated]
    the key that [generate_node_key_file] writes.  The result is the key
    and the file afterwards. *)
Definition get_local_private_key (private_key : option PrivateKey)
    (generated : PrivateKey) (nodekey : option PrivateKey)
  : PrivateKey * option PrivateKey :=
  match private_key with
  | None =>
      match nodekey with
      | None => (generated, Some generated)
      | Some stored => (stored, Some stored)
      end
  | Some key => (key, nodekey)
  end.

(** Modelled from the spec: the ENR database rejects any [set_enr]
    whose sequence number is less than the stored value, signalling an
    old sequence number; a record is kept under its node id. *)
Definition set_enr (enr : ENR) (node_db : gmap bytes ENR)
  : result (gmap bytes ENR) :=
  match node_db !! node_id extract_node_id enr with
  | Some stored =>
      if (sequence_number enr <? sequence_number stored)%Z
      then Raise OldSequenceNumber
      else Ok (<[node_id extract_node_id enr := enr]> node_db)
  | None => Ok (<[node_id extract_node_id enr := enr]> node_db)
  end.

(** [Application.run], as far as the local ENR goes: the record is
    computed and stored. *)
Definition store_local_enr (boot_info : BootInfo)
    (node_db : gmap bytes ENR) (local_private_key : PrivateKey)
  : result (ENR * gmap bytes ENR) :=
  let local_enr :=
    get_local_enr to_compressed_bytes create_enr_signature extract_node_id
      boot_info node_db local_private_key in
  match set_enr local_enr node_db with
  | Ok node_db => Ok (local_enr, node_db)
  | Raise e => Raise e
  end.

End WithKeys.

End AppBoot.

(** ** The Alexandria messages and the advertisement provider *)

Module Alexandria.

Inductive error : Type := ValueError | IndexError | DecodingError.

Inductive message_class : Type :=
| PingMessage | PongMessage | FindNodesMessage | FoundNodesMessage
| GetContentMessage | ContentMessage | AdvertiseMessage | AckMessage
| LocateMessage | LocationsMessage.

#[global] Instance message_class_eq_dec : EqDecision message_class.
Proof. solve_decision. Defined.

Definition message_id (c : message_class) : N :=
  match c with
  | PingMessage => 1 | PongMessage => 2
  | FindNodesMessage => 3 | FoundNodesMessage => 4
  | GetContentMessage => 5 | ContentMessage => 6
  | AdvertiseMessage => 7 | AckMessage => 8
  | LocateMessage => 9 | LocationsMessage => 10
  end.

(** [register] *)
Definition register (c : message_class)
    (MESSAGE_REGISTRY : gmap N message_class)
  : error + gmap N message_class :=
  if decide (is_Some (MESSAGE_REGISTRY !! message_id c))
  then inl ValueError
  else inr (<[message_id c := c]> MESSAGE_REGISTRY).

(** The decorated classes, in the order of the module. *)
Definition message_classes : list message_class :=
  [PingMessage; PongMessage; FindNodesMessage; FoundNodesMessage;
   GetContentMessage; ContentMessage; AdvertiseMessage; AckMessage;
   LocateMessage; LocationsMessage].

Fixpoint register_all (cs : list message_class)
    (MESSAGE_REGISTRY : gmap N message_class)
  : error + gmap N message_class :=
  match cs with
  | [] => inr MESSAGE_REGISTRY
  | c :: rest =>
      match register c MESSAGE_REGISTRY with
      | inl e => inl e
      | inr MESSAGE_REGISTRY => register_all rest MESSAGE_REGISTRY
      end
  end.

(** The registry once the module is loaded. *)
Definition MESSAGE_REGISTRY : error + gmap N message_class :=
  register_all message_classes ∅.

(** Modelled from the spec: [ddht.constants.UINT8_TO_BYTES] is defined
    in another module.  On the wire the message id is one byte:
    [UINT8_TO_BYTES[n]] is the byte string of length one with value
    [n]. *)
Definition UINT8_TO_BYTES (n : N) : error + bytes :=
  match Byte.of_N n with
  | Some x => inr [x]
  | None => inl IndexError
  end.

Section WithSsz.
(** The payloads and the ssz codec are defined elsewhere: what
    [ssz.encode] and [ssz.decode] do with the sedes of a class, and how a
    class turns its payload into what is encoded and back. *)
Context {Payload SszValue : Type}.
Variable ssz_encode : message_class -> SszValue -> bytes.
Variable ssz_decode : message_class -> bytes -> option SszValue.
Variable get_payload_for_encoding : message_class -> Payload -> SszValue.
Variable from_payload_args : message_class -> SszValue -> Payload.

Record AlexandriaMessage : Type := {
  class : message_class;
  payload : Payload;
}.

Definition to_wire_bytes (message : AlexandriaMessage) : error + bytes :=
  match UINT8_TO_BYTES (message_id (class message)) with
  | inl e => inl e
  | inr first =>
      inr (first
           ++ ssz_encode (class message)
                (get_payload_for_encoding (class message) (payload message)))
  end.

Definition decode_message (registry : gmap N message_class) (data : bytes)
  : error + AlexandriaMessage :=
  match data with
  | [] => inl IndexError
  | first :: rest =>
      match registry !! Byte.to_N first with
      | None => inl DecodingError
      | Some message_class =>
          match ssz_decode message_class rest with
          | None => inl DecodingError
          | Some payload_args =>
              inr {| class := message_class;
                     payload := from_payload_args message_class payload_args |}
          end
      end
  end.

End WithSsz.

(** *** The advertisement provider *)

Definition MAX_RESPONSE_ADVERTISEMENTS : nat := 32.

Section Provider.
Context {Advertisement ContentKey : Type}.

(** [_source_advertisements] run to its end: a database answers a
    query with the advertisements it holds for the key. *)
Definition _source_advertisements
    (_advertisement_dbs : list (ContentKey -> list Advertisement))
    (content_key : ContentKey) : list Advertisement :=
  flat_map (fun advertisement_db => advertisement_db content_key)
    _advertisement_dbs.

(** [take(n, self._source_advertisements(content_key))]: the generator
    is run only as far as [take] asks.  The result is what was taken and
    the number of databases that were queried. *)
Fixpoint take_source (n : nat)
    (_advertisement_dbs : list (ContentKey -> list Advertisement))
    (content_key : ContentKey) : list Advertisement * nat :=
  match n, _advertisement_dbs with
  | O, _ => ([], O)
  | _, [] => ([], O)
  | _, advertisement_db :: rest =>
      let found := advertisement_db content_key in
      if decide (n <= length found)%nat then (take n found, 1%nat)
      else
        let more := take_source (n - length found) rest content_key in
        (found ++ more.1, S more.2)
  end.

(** The advertisements that [serve_request] hands to
    [send_locations]. *)
Definition served_advertisements
    (_advertisement_dbs : list (ContentKey -> list Advertisement))
    (content_key : ContentKey) : list Advertisement :=
  (take_source MAX_RESPONSE_ADVERTISEMENTS _advertisement_dbs content_key).1.

End Provider.

End Alexandria.

Module AlexandriaDemo.
Import Alexandria.

(** A codec that writes a payload of bytes as it is. *)
Definition demo_encode (_ : message_class) (value : bytes) : bytes := value.
Definition demo_decode (_ : message_class) (data : bytes) : option bytes :=
  Some data.
Definition demo_payload_for_encoding (_ : message_class) (payload : bytes)
  : bytes := payload.
Definition demo_from_payload_args (_ : message_class) (value : bytes)
  : bytes := value.

Definition demo_message : AlexandriaMessage :=
  {| class := LocateMessage; payload := b "key" |}.

End AlexandriaDemo.

(** ** What the request handlers send *)

Module NetAnswers.
Import Net.

Definition with_calls (cs : list call) (net : Network) : Network :=
  foldl (fun net c => with_call c net) net cs.

(** The three tests of lines 749-772 all pass. *)
Definition well_formed_distances (distances : list N) : Prop :=
  distances ≠ [] /\ NoDup distances
  /\ Forall (fun distance => distance <= 256) distances.

#[global] Instance well_formed_distances_dec distances :
  Decision (well_formed_distances distances).
Proof. unfold well_formed_distances. apply _. Defined.


(** The TALKRESP to a TALKREQ, if it gets one from the handler of
    unhandled requests. *)
Definition unhandled_talk_answer (net : Network) (request : TalkRequest)
  : option call :=
  if decide (tr_protocol request ∉ _talk_protocols net)
  then Some (SendTalkResponse (tr_sender_node_id request)
               (tr_sender_endpoint request) [] (tr_request_id request))
  else None.

End NetAnswers.

(** * Properties *)

Module TagsFacts.
Import Tags.

Lemma lxor_byte_bound (a b : N) : a < 256 -> b < 256 -> N.lxor a b < 256.
Proof.
  intros Ha Hb.
  destruct (N.eq_dec (N.lxor a b) 0) as [->|Hnz]; [lia|].
  change 256 with (2 ^ 8) in *.
  apply N.log2_lt_pow2; [lia|].
  eapply N.le_lt_trans; [apply N.log2_lxor|].
  apply N.max_lub_lt.
  - destruct (N.eq_dec a 0) as [->|?]; [simpl; lia|].
    apply N.log2_lt_pow2; lia.
  - destruct (N.eq_dec b 0) as [->|?]; [simpl; lia|].
    apply N.log2_lt_pow2; lia.
Qed.

Lemma byte_xor_to_N x y :
  Byte.to_N (byte_xor x y) = N.lxor (Byte.to_N x) (Byte.to_N y).
Proof.
  unfold byte_xor.
  destruct (Byte.of_N _) as [z|] eqn:E.
  - now apply Byte.to_of_N in E.
  - apply Byte.of_N_None_iff in E.
    pose proof (Byte.to_N_bounded x). pose proof (Byte.to_N_bounded y).
    pose proof (lxor_byte_bound (Byte.to_N x) (Byte.to_N y)).
    lia.
Qed.

Lemma to_N_inj x y : Byte.to_N x = Byte.to_N y -> x = y.
Proof.
  intros E. apply (f_equal Byte.of_N) in E.
  rewrite !Byte.of_to_N in E. congruence.
Qed.

Lemma byte_xor_cancel_r x y : byte_xor (byte_xor x y) x = y.
Proof.
  apply to_N_inj. rewrite !byte_xor_to_N.
  rewrite (N.lxor_comm (Byte.to_N x)), N.lxor_assoc, N.lxor_nilpotent.
  apply N.lxor_0_r.
Qed.

Lemma zip_xor_cancel (h s : bytes) :
  length h = length s ->
  zip_with byte_xor (zip_with byte_xor h s) h = s.
Proof.
  revert s. induction h as [|x h IH]; intros [|y s] Hlen; simpl in *;
    try discriminate; [reflexivity|].
  rewrite IH by lia. now rewrite byte_xor_cancel_r.
Qed.

Lemma sha256_length (message : bytes) :
  length (Sha256.sha256 message) = 32%nat.
Proof. reflexivity. Qed.

(** The digest of [b"abc"], as in FIPS 180-4, appendix B.1. *)
Example sha256_abc :
  Sha256.sha256 (b "abc")
  = [xba; x78; x16; xbf; x8f; x01; xcf; xea; x41; x41; x40; xde; x5d; xae;
     x22; x23; xb0; x03; x61; xa3; x96; x17; x7a; x9c; xb4; x10; xff; x61;
     xf2; x00; x15; xad].
Proof. vm_compute. reflexivity. Qed.

(** C7. For 32-byte node ids [src] and [dst], [compute_tag] gives a
    32-byte tag, and [recover_source_id_from_tag] applied to that tag and
    [dst] gives back [src]. *)
Theorem tag_round_trip (src dst : bytes) :
  length src = 32%nat ->
  length dst = 32%nat ->
  exists tag,
    compute_tag src dst = Ok tag /\
    length tag = 32%nat /\
    recover_source_id_from_tag tag dst = Ok src.
Proof.
  intros Hsrc _.
  unfold compute_tag, recover_source_id_from_tag, sxor.
  pose proof (sha256_length dst) as Hh.
  rewrite decide_True by congruence.
  eexists; split; [reflexivity|].
  assert (Hz : length (zip_with byte_xor (Sha256.sha256 dst) src) = 32%nat).
  { rewrite length_zip_with. lia. }
  split; [exact Hz|].
  rewrite decide_True by congruence.
  f_equal. apply zip_xor_cancel. congruence.
Qed.

Lemma tag_round_trip_witness :
  exists tag,
    compute_tag (replicate 32 x07) (replicate 32 x09) = Ok tag
    /\ length tag = 32%nat
    /\ recover_source_id_from_tag tag (replicate 32 x09)
       = Ok (replicate 32 x07).
Proof.
  apply tag_round_trip; reflexivity.
Defined.

End TagsFacts.

Module AppFacts.
Import App AppDemo.

Section WithKeys.
Context {PrivateKey : Type}.
Variable to_compressed_bytes : PrivateKey -> bytes.
Variable create_enr_signature : UnsignedENR -> PrivateKey -> bytes.
Variable extract_node_id : gmap bytes value -> bytes.

Lemma any_changed_false (stored minimal : gmap bytes value) :
  existsb
    (fun '(key, value) =>
       bool_decide (stored !! key = None)
       || bool_decide (stored !! key ≠ Some value))
    (map_to_list minimal) = false
  <-> map_Forall (fun k v => stored !! k = Some v) minimal.
Proof.
  rewrite <- Bool.not_true_iff_false, existsb_exists. split.
  - intros Hno k v Hkv.
    destruct (decide (stored !! k = Some v)) as [|Hne]; [assumption|].
    exfalso. apply Hno. exists (k, v). split.
    + apply list_elem_of_In, elem_of_map_to_list, Hkv.
    + apply orb_true_iff. right. now apply bool_decide_eq_true.
  - intros Hall [[k v] [Hin Hbad]].
    apply list_elem_of_In, elem_of_map_to_list in Hin.
    specialize (Hall k v Hin). simpl in Hall.
    apply orb_true_iff in Hbad as [Hbad|Hbad];
      apply bool_decide_eq_true in Hbad; congruence.
Qed.

(** C6. [get_local_enr] returns the stored record itself when the
    database has a record for the local node id that holds every
    minimal pair with the same value; when the stored record lacks a
    minimal pair or differs on one, it returns a freshly signed record
    with the stored sequence number plus one and the stored pairs
    overridden by the minimal pairs; with no stored record it returns
    the freshly signed minimal record with sequence number 1. *)
Theorem get_local_enr_spec (boot_info : BootInfo)
    (node_db : gmap bytes ENR) (key : PrivateKey) :
  let minimal := minimal_kv_pairs to_compressed_bytes boot_info key in
  let local_id := extract_node_id minimal in
  let enr :=
    get_local_enr to_compressed_bytes create_enr_signature
      extract_node_id boot_info node_db key in
  (forall stored,
      node_db !! local_id = Some stored ->
      map_Forall (fun k v => kv_pairs stored !! k = Some v) minimal ->
      enr = stored) /\
  (forall stored,
      node_db !! local_id = Some stored ->
      ~ map_Forall (fun k v => kv_pairs stored !! k = Some v) minimal ->
      sequence_number enr = (sequence_number stored + 1)%Z /\
      (forall k, kv_pairs enr !! k =
                 match minimal !! k with
                 | Some v => Some v
                 | None => kv_pairs stored !! k
                 end) /\
      signature enr =
        create_enr_signature
          {| unsigned_sequence_number := (sequence_number stored + 1)%Z;
             unsigned_kv_pairs := kv_pairs enr |} key) /\
  (node_db !! local_id = None ->
      sequence_number enr = 1%Z /\
      kv_pairs enr = minimal /\
      signature enr =
        create_enr_signature
          {| unsigned_sequence_number := 1;
             unsigned_kv_pairs := minimal |} key).
Proof.
  intros minimal local_id enr. subst enr.
  unfold get_local_enr, node_id. cbn [kv_pairs to_signed_enr unsigned_kv_pairs].
  fold minimal. fold local_id. clearbody local_id minimal.
  split; [|split].
  - intros stored Hdb Hall. rewrite Hdb.
    apply any_changed_false in Hall. now rewrite Hall.
  - intros stored Hdb Hnot. rewrite Hdb.
    destruct (existsb _ _) eqn:E.
    + cbn. split; [reflexivity|]. split; [|reflexivity].
      intros k. unfold merge. rewrite lookup_union.
      destruct (minimal !! k), (kv_pairs stored !! k); reflexivity.
    + apply any_changed_false in E. contradiction.
  - intros Hdb. rewrite Hdb. cbn. auto.
Qed.
End WithKeys.

Lemma get_local_enr_spec_witness :
  get_local_enr demo_pubkey demo_sign demo_node_id demo_boot
    {[ demo_local_id := demo_stored_same ]} demo_key = demo_stored_same
  /\ sequence_number
       (get_local_enr demo_pubkey demo_sign demo_node_id demo_boot
          {[ demo_local_id := demo_stored_old_port ]} demo_key) = 6%Z
  /\ sequence_number
       (get_local_enr demo_pubkey demo_sign demo_node_id demo_boot
          ∅ demo_key) = 1%Z.
Proof.
  split; [|split].
  - apply (proj1 (get_local_enr_spec demo_pubkey demo_sign demo_node_id
                    demo_boot {[ demo_local_id := demo_stored_same ]}
                    demo_key)).
    + vm_compute. reflexivity.
    + refine (bool_decide_unpack _ _). vm_compute. exact I.
  - apply (proj1 (proj2 (get_local_enr_spec demo_pubkey demo_sign
                           demo_node_id demo_boot
                           {[ demo_local_id := demo_stored_old_port ]}
                           demo_key))
             demo_stored_old_port).
    + vm_compute. reflexivity.
    + intros Hall. apply (bool_decide_pack _) in Hall.
      vm_compute in Hall. exact Hall.
  - apply (proj2 (proj2 (get_local_enr_spec demo_pubkey demo_sign
                           demo_node_id demo_boot ∅ demo_key))).
    vm_compute. reflexivity.
Defined.

End AppFacts.

Module NetFacts.
Import Net NetDemo.

(** *** Sets of distances *)

Lemma union_singleton_absorb (x : N) (X : gset N) :
  x ∈ X -> ({[x]} ∪ X : gset N) = X.
Proof.
  intros Hin. apply subseteq_union_1_L, singleton_subseteq_l, Hin.
Qed.

Lemma size_list_to_set_le (l : list N) :
  (size (list_to_set l : gset N) <= length l)%nat.
Proof.
  induction l as [|x l IH].
  - change (list_to_set [] : gset N) with (∅ : gset N).
    rewrite size_empty. simpl. lia.
  - change (list_to_set (x :: l) : gset N)
      with ({[x]} ∪ list_to_set l : gset N).
    simpl length.
    destruct (decide (x ∈ (list_to_set l : gset N))) as [Hin|Hout].
    + rewrite union_singleton_absorb by exact Hin. lia.
    + rewrite size_union by (apply disjoint_singleton_l, Hout).
      rewrite size_singleton. lia.
Qed.

Lemma size_list_to_set_NoDup (l : list N) :
  size (list_to_set l : gset N) = length l <-> NoDup l.
Proof.
  split; [|apply size_list_to_set].
  induction l as [|x l IH]; [constructor|].
  change (list_to_set (x :: l) : gset N)
    with ({[x]} ∪ list_to_set l : gset N).
  simpl length. intros Hsize.
  destruct (decide (x ∈ (list_to_set l : gset N))) as [Hin|Hout].
  - rewrite union_singleton_absorb in Hsize by exact Hin.
    pose proof (size_list_to_set_le l). lia.
  - rewrite size_union, size_singleton in Hsize
      by (apply disjoint_singleton_l, Hout).
    constructor.
    + intros Hx. apply Hout, elem_of_list_to_set, Hx.
    + apply IH. lia.
Qed.

Section WithClient.
Variable client : ClientAPI.
Variable recursive_find_nodes : NodeID -> M (list ENR).

Abbreviation lookup_enr := (Net.lookup_enr client recursive_find_nodes).
Abbreviation find_nodes := (Net.find_nodes client recursive_find_nodes).
Abbreviation stream_find_nodes :=
  (Net.stream_find_nodes client recursive_find_nodes).
Abbreviation talk := (Net.talk client recursive_find_nodes).
Abbreviation default_lookup depth :=
  (fun id => Net.lookup_enr client recursive_find_nodes depth id 0 None).

(** *** Validation of found nodes *)

Lemma validate_found_nodes_distances_ok enrs node_id distances :
  validate_found_nodes_distances enrs node_id distances = Ok tt
  <-> Forall (at_requested_distance node_id distances) enrs.
Proof.
  induction enrs as [|enr rest IH]; simpl.
  - split; [constructor|reflexivity].
  - destruct (decide _) as [Hin|Hout].
    + rewrite IH. split; [now constructor|now inversion 1].
    + split; [discriminate|]. inversion 1; contradiction.
Qed.

Lemma validate_found_nodes_distances_raises enrs node_id distances e :
  validate_found_nodes_distances enrs node_id distances = Raise e ->
  e = ValidationError.
Proof.
  induction enrs as [|enr rest IH]; simpl; [discriminate|].
  destruct (decide _); [assumption|congruence].
Qed.

Lemma validate_responses_ok responses node_id distances :
  for_each (fun enrs => validate_found_nodes_distances enrs node_id distances)
           responses = Ok tt
  <-> Forall (at_requested_distance node_id distances) (concat responses).
Proof.
  induction responses as [|enrs rest IH]; simpl.
  - split; [constructor|reflexivity].
  - rewrite Forall_app, <- IH, <- validate_found_nodes_distances_ok.
    destruct (validate_found_nodes_distances enrs node_id distances)
      as [[]|e]; [tauto|].
    split; [discriminate|intros [? _]; discriminate].
Qed.

Lemma validate_responses_raises responses node_id distances e :
  for_each (fun enrs => validate_found_nodes_distances enrs node_id distances)
           responses = Raise e ->
  e = ValidationError.
Proof.
  induction responses as [|enrs rest IH]; simpl; [discriminate|].
  destruct (validate_found_nodes_distances enrs node_id distances)
    as [[]|e'] eqn:E; [assumption|].
  intros [= <-]. eapply validate_found_nodes_distances_raises, E.
Qed.

(** [find_nodes] once the endpoint is known. *)
Lemma find_nodes_with_resolved lk node_id distances endpoint request_id
    net ep net1 :
  distances ≠ [] ->
  resolve_endpoint lk node_id endpoint net = (Ok ep, net1) ->
  find_nodes_with client lk node_id distances endpoint request_id net =
    (match client_find_nodes client (calls net1) node_id ep distances
             request_id with
     | Ok responses =>
         match for_each
                 (fun enrs =>
                    validate_found_nodes_distances enrs node_id distances)
                 responses with
         | Ok _ => Ok (concat responses)
         | Raise e => Raise e
         end
     | Raise e => Raise e
     end,
     with_call (CallFindNodes node_id ep distances request_id) net1).
Proof.
  intros Hne Hres. unfold find_nodes_with.
  rewrite decide_False by assumption.
  unfold bind at 1. rewrite Hres.
  unfold bind at 1, call_find_nodes.
  destruct (client_find_nodes _ _ _ _ _ _) as [responses|e]; [|reflexivity].
  unfold bind, lift, ret.
  now destruct (for_each _ responses).
Qed.

(** C9. With no distance, [find_nodes] and
    [common_network_stream_find_nodes] raise [TypeError] whatever the
    endpoint argument is, and the network object, with the list of
    calls made to the client, is as before. *)
Theorem find_nodes_without_distances (depth : nat) (node_id : NodeID)
    (endpoint : option Endpoint) (request_id : option bytes)
    (net : Network) :
  find_nodes depth node_id [] endpoint request_id net
    = (Raise TypeError, net)
  /\ stream_find_nodes depth node_id endpoint [] request_id net
    = (Raise TypeError, net).
Proof. split; reflexivity. Qed.

(** C10. Called with the local node id, [lookup_enr] raises the plain
    [Exception] and leaves the network object, with the list of calls
    made to the client, as before, whatever the database holds; hence
    at no call depth does it return an ENR for the local node id. *)
Theorem lookup_enr_local (depth : nat) (enr_seq : N)
    (endpoint : option Endpoint) (net : Network) :
  lookup_enr (S depth) (local_node_id net) enr_seq endpoint net
    = (Raise PlainException, net)
  /\ is_ok (lookup_enr depth (local_node_id net) enr_seq endpoint net).1
    = false.
Proof.
  assert (H : lookup_enr (S depth) (local_node_id net) enr_seq endpoint net
              = (Raise PlainException, net)).
  { simpl. now rewrite decide_True. }
  split; [exact H|].
  destruct depth as [|depth]; [reflexivity|].
  simpl. now rewrite decide_True.
Qed.

(** C1. Every ENR that [find_nodes] returns is at one of the requested
    log distances from the queried peer.  Once the endpoint is known
    and the client has returned its responses, [find_nodes] returns
    all the ENRs of all the responses when each of them is at a
    requested distance, and raises [ValidationError], returning no
    ENR, when one of them is not. *)
Theorem find_nodes_all_or_nothing (depth : nat) (node_id : NodeID)
    (distances : list N) (endpoint : option Endpoint)
    (request_id : option bytes) (net : Network) :
  (forall enrs net',
      find_nodes depth node_id distances endpoint request_id net
        = (Ok enrs, net') ->
      Forall (at_requested_distance node_id distances) enrs)
  /\ (forall ep net1 responses,
        distances ≠ [] ->
        resolve_endpoint (default_lookup depth) node_id endpoint net
          = (Ok ep, net1) ->
        client_find_nodes client (calls net1) node_id ep distances
          request_id = Ok responses ->
        (Forall (at_requested_distance node_id distances)
                (concat responses) ->
         (find_nodes depth node_id distances endpoint request_id net).1
           = Ok (concat responses))
        /\ (~ Forall (at_requested_distance node_id distances)
                     (concat responses) ->
            (find_nodes depth node_id distances endpoint request_id net).1
              = Raise ValidationError)).
Proof.
  split.
  - intros enrs net' Hfind.
    destruct (decide (distances = [])) as [->|Hne]; [discriminate|].
    destruct (resolve_endpoint (default_lookup depth) node_id endpoint net)
      as [[ep|e] net1] eqn:Hres.
    + unfold Net.find_nodes in Hfind.
      rewrite (find_nodes_with_resolved _ _ _ _ _ _ _ _ Hne Hres) in Hfind.
      destruct (client_find_nodes _ _ _ _ _ _) as [responses|e];
        [|discriminate].
      destruct (for_each _ responses) as [[]|e] eqn:Hval; [|discriminate].
      injection Hfind as <- _. now apply validate_responses_ok.
    + unfold Net.find_nodes, find_nodes_with, bind in Hfind.
      rewrite decide_False, Hres in Hfind by assumption. discriminate.
  - intros ep net1 responses Hne Hres Hresp.
    unfold Net.find_nodes.
    rewrite (find_nodes_with_resolved _ _ _ _ _ _ _ _ Hne Hres), Hresp.
    simpl. split; intros Hall.
    + apply validate_responses_ok in Hall. now rewrite Hall.
    + destruct (for_each _ responses) as [[]|e] eqn:Hval.
      * apply validate_responses_ok in Hval. contradiction.
      * now apply validate_responses_raises in Hval as ->.
Qed.

(** *** Fetching an ENR *)

Lemma with_enr_db_same net : with_enr_db (enr_db net) net = net.
Proof. now destruct net. Qed.

Lemma set_enr_ignoring_old_eq enr net :
  set_enr_ignoring_old enr net
    = (Ok tt, with_enr_db (stored_unless_older enr (enr_db net)) net).
Proof.
  unfold set_enr_ignoring_old, set_enr, stored_unless_older.
  destruct (enr_db net !! node_id enr) as [stored|]; [|reflexivity].
  destruct (sequence_number enr <? sequence_number stored);
    [|reflexivity].
  now rewrite with_enr_db_same.
Qed.

Lemma log_distance_zero (a c : NodeID) :
  compute_log_distance a c ∈ [0] <-> a = c.
Proof.
  unfold compute_log_distance. rewrite list_elem_of_singleton.
  destruct (decide (a = c)); [tauto|]. split; [lia|contradiction].
Qed.

Lemma latest_spec first others :
  latest first others ∈ first :: others
  /\ (forall enr, enr ∈ first :: others ->
        sequence_number enr <= sequence_number (latest first others)).
Proof.
  unfold latest. revert first.
  induction others as [|enr others IH]; intros first; simpl.
  - split; [left|]. intros enr Hin.
    apply list_elem_of_singleton in Hin as ->. lia.
  - destruct (IH (if sequence_number first <? sequence_number enr
                  then enr else first)) as [Hin Hmax].
    split.
    + destruct (N.ltb_spec (sequence_number first) (sequence_number enr)).
      * now right.
      * apply elem_of_cons in Hin as [->|Hin]; [left|do 2 right]; auto.
    + intros e He.
      assert (Hbest : sequence_number first <=
                      sequence_number
                        (if sequence_number first <? sequence_number enr
                         then enr else first)
                      /\ sequence_number enr <=
                         sequence_number
                           (if sequence_number first <? sequence_number enr
                            then enr else first)).
      { destruct (N.ltb_spec (sequence_number first)
                    (sequence_number enr)); lia. }
      specialize (Hmax _ (list_elem_of_here _ _)).
      apply elem_of_cons in He as [->|He]; [lia|].
      apply elem_of_cons in He as [->|He]; [lia|].
      apply IH. now right.
Qed.

(** The first ENR of [reduce_enrs] is one of the given ENRs of the
    first node id, with the highest sequence number among them. *)
Lemma reduce_enrs_head enr enrs :
  exists fetched rest,
    reduce_enrs (enr :: enrs) = fetched :: rest
    /\ fetched ∈ enr :: enrs
    /\ node_id fetched = node_id enr
    /\ (forall other, other ∈ enr :: enrs ->
          node_id other = node_id enr ->
          sequence_number other <= sequence_number fetched).
Proof.
  unfold reduce_enrs. simpl.
  rewrite filter_cons_True by reflexivity.
  destruct (latest_spec enr (filter (fun e => node_id e = node_id enr) enrs))
    as [Hin Hmax].
  eexists _, _. split; [reflexivity|].
  assert (Hsub : forall e,
             e ∈ enr :: filter (fun e => node_id e = node_id enr) enrs
             <-> e ∈ enr :: enrs /\ node_id e = node_id enr).
  { intros e. rewrite !elem_of_cons, list_elem_of_filter.
    split; [intros [->|[? ?]]|intros [[->|?] ?]]; auto. }
  apply Hsub in Hin as [Hin Hid].
  split; [exact Hin|]. split; [exact Hid|].
  intros other Ho Hoid. apply Hmax, Hsub. auto.
Qed.

(** [_fetch_enr] followed by the store, once the endpoint is known and
    the peer has answered with its own records. *)
Lemma fetch_and_store_resolved lk node_id endpoint net ep net1 responses :
  resolve_endpoint lk node_id endpoint net = (Ok ep, net1) ->
  client_find_nodes client (calls net1) node_id ep [0] None
    = Ok responses ->
  concat responses ≠ [] ->
  Forall (fun enr => Net.node_id enr = node_id) (concat responses) ->
  exists fetched,
    fetched ∈ concat responses
    /\ (forall other, other ∈ concat responses ->
          sequence_number other <= sequence_number fetched)
    /\ fetch_and_store (_fetch_enr_with client lk node_id endpoint) net
       = (Ok fetched,
          with_enr_db
            (stored_unless_older fetched (enr_db net1))
            (with_call (CallFindNodes node_id ep [0] None) net1)).
Proof.
  intros Hres Hresp Hne Hall.
  assert (Hvalid : Forall (at_requested_distance node_id [0])
                          (concat responses)).
  { eapply Forall_impl; [exact Hall|].
    intros enr <-. now apply log_distance_zero. }
  apply validate_responses_ok in Hvalid.
  destruct (concat responses) as [|enr enrs] eqn:Hcat; [contradiction|].
  destruct (reduce_enrs_head enr enrs) as (fetched & rest & Hred & Hin & Hid & Hmax).
  exists fetched. split; [exact Hin|]. split.
  { intros other Ho. apply Hmax; [exact Ho|].
    rewrite Forall_forall in Hall.
    rewrite (Hall _ Ho). symmetry. apply Hall. left. }
  unfold fetch_and_store, _fetch_enr_with. unfold bind at 1 2.
  rewrite (find_nodes_with_resolved lk node_id [0] endpoint None net ep net1)
    by (assumption || discriminate).
  rewrite Hresp, Hvalid, Hcat. simpl.
  rewrite Hred. unfold ret, bind.
  now rewrite set_enr_ignoring_old_eq.
Qed.

(** *** The call depth

    [lookup_enr] never reaches the [lookup_enr] of [endpoint_for_node_id]:
    it passes an endpoint to [_fetch_enr], or the database holds a record
    for the node id.  A call depth of one is enough. *)

Lemma resolve_endpoint_stored lk1 lk2 node_id endpoint net :
  (endpoint = None -> is_Some (enr_db net !! node_id)) ->
  resolve_endpoint lk1 node_id endpoint net
    = resolve_endpoint lk2 node_id endpoint net.
Proof.
  intros Hstored. destruct endpoint as [ep|]; [reflexivity|].
  destruct (Hstored eq_refl) as [enr Henr].
  simpl. unfold endpoint_for_node_id_with, get_enr. now rewrite Henr.
Qed.

Lemma fetch_enr_with_stored lk1 lk2 node_id endpoint net :
  (endpoint = None -> is_Some (enr_db net !! node_id)) ->
  _fetch_enr_with client lk1 node_id endpoint net
    = _fetch_enr_with client lk2 node_id endpoint net.
Proof.
  intros Hstored. unfold _fetch_enr_with, find_nodes_with, bind.
  simpl. now rewrite (resolve_endpoint_stored lk1 lk2).
Qed.

Lemma fetch_and_store_stored lk1 lk2 node_id endpoint net :
  (endpoint = None -> is_Some (enr_db net !! node_id)) ->
  fetch_and_store (_fetch_enr_with client lk1 node_id endpoint) net
    = fetch_and_store (_fetch_enr_with client lk2 node_id endpoint) net.
Proof.
  intros Hstored. unfold fetch_and_store, bind at 1 3.
  now rewrite (fetch_enr_with_stored lk1 lk2).
Qed.

Lemma lookup_enr_depth (depth : nat) node_id enr_seq endpoint net :
  lookup_enr (S depth) node_id enr_seq endpoint net
    = lookup_enr 1 node_id enr_seq endpoint net.
Proof.
  simpl. destruct (decide (node_id = local_node_id net)); [reflexivity|].
  unfold get_enr.
  destruct (enr_db net !! node_id) as [cached|] eqn:Hdb.
  - destruct (enr_seq <=? sequence_number cached); [reflexivity|].
    apply fetch_and_store_stored. intros _. rewrite Hdb. eauto.
  - destruct endpoint as [ep|]; reflexivity.
Qed.

(** What [lookup_enr] returns is stored under its node id, in a database
    that keeps each record under its node id: the routing table is only
    updated with such node ids (lines 427 and 722). *)
Lemma fetch_and_store_result (fetch : M ENR) net enr net' :
  fetch_and_store fetch net = (Ok enr, net') ->
  is_Some (enr_db net' !! Net.node_id enr).
Proof.
  unfold fetch_and_store, bind.
  destruct (fetch net) as [[fetched|e] net1]; [|discriminate].
  rewrite set_enr_ignoring_old_eq. unfold ret.
  intros [= <- <-]. simpl. unfold stored_unless_older.
  destruct (enr_db net1 !! Net.node_id fetched) as [stored|] eqn:Hdb.
  - destruct (sequence_number fetched <? sequence_number stored).
    + rewrite Hdb. eauto.
    + rewrite lookup_insert_eq. eauto.
  - rewrite lookup_insert_eq. eauto.
Qed.

Lemma lookup_enr_result_stored (depth : nat) node_id enr_seq endpoint net
    enr net' :
  (forall id stored, enr_db net !! id = Some stored ->
                     Net.node_id stored = id) ->
  lookup_enr (S depth) node_id enr_seq endpoint net = (Ok enr, net') ->
  is_Some (enr_db net' !! Net.node_id enr).
Proof.
  intros Hkeyed. simpl.
  destruct (decide (node_id = local_node_id net)); [discriminate|].
  unfold get_enr.
  destruct (enr_db net !! node_id) as [cached|] eqn:Hdb.
  - destruct (enr_seq <=? sequence_number cached).
    + intros [= <- <-]. rewrite (Hkeyed _ _ Hdb), Hdb. eauto.
    + apply fetch_and_store_result.
  - destruct endpoint as [ep|]; [apply fetch_and_store_result|].
    unfold bind at 1.
    destruct (recursive_find_nodes node_id net) as [[found|e] net1];
      [|discriminate].
    destruct (List.find _ found) as [found_enr|]; [|discriminate].
    unfold bind at 1, lift.
    destruct (from_enr found_enr) as [ep|e]; [|discriminate].
    apply fetch_and_store_result.
Qed.

(** C3. For a node id other than the local one: when the database
    holds an ENR for it with a sequence number of at least [enr_seq],
    [lookup_enr] returns that ENR and the network object, with the
    list of calls made to the client, is as before.  Otherwise the
    endpoint is the given one, or else that of the stored ENR, or else
    that of the ENR for the node id that a recursive lookup delivers;
    [lookup_enr] asks the client for the nodes at distance 0 of the
    peer at that endpoint and, when the peer answers with records of
    its own, returns one with the highest sequence number among them,
    after a [set_enr] whose old-sequence rejection is ignored. *)
Theorem lookup_enr_cached_or_fetched (depth : nat) (node_id : NodeID)
    (enr_seq : N) (endpoint : option Endpoint) (net : Network) :
  node_id ≠ local_node_id net ->
  (forall cached,
      enr_db net !! node_id = Some cached ->
      enr_seq <= sequence_number cached ->
      lookup_enr (S depth) node_id enr_seq endpoint net = (Ok cached, net))
  /\ (forall ep net1 responses,
        (forall cached,
            enr_db net !! node_id = Some cached ->
            sequence_number cached < enr_seq) ->
        ((endpoint = Some ep /\ net1 = net)
         \/ (endpoint = None /\ net1 = net /\
             exists cached,
               enr_db net !! node_id = Some cached
               /\ from_enr cached = Ok ep)
         \/ (endpoint = None /\ enr_db net !! node_id = None /\
             exists found found_enr,
               recursive_find_nodes node_id net = (Ok found, net1)
               /\ List.find
                    (fun enr => bool_decide (Net.node_id enr = node_id))
                    found = Some found_enr
               /\ from_enr found_enr = Ok ep)) ->
        client_find_nodes client (calls net1) node_id ep [0] None
          = Ok responses ->
        concat responses ≠ [] ->
        Forall (fun enr => Net.node_id enr = node_id) (concat responses) ->
        exists fetched,
          fetched ∈ concat responses
          /\ (forall other, other ∈ concat responses ->
                sequence_number other <= sequence_number fetched)
          /\ lookup_enr (S depth) node_id enr_seq endpoint net
             = (Ok fetched,
                with_enr_db
                  (stored_unless_older fetched (enr_db net1))
                  (with_call (CallFindNodes node_id ep [0] None) net1))).
Proof.
  intros Hlocal. split.
  - intros cached Hdb Hseq. simpl.
    rewrite decide_False by assumption.
    unfold get_enr. rewrite Hdb.
    apply N.leb_le in Hseq. now rewrite Hseq.
  - intros ep net1 responses Hstale Hep Hresp Hne Hall.
    simpl. rewrite decide_False by assumption.
    unfold get_enr.
    destruct Hep as [[-> ->]|[(-> & -> & cached & Hdb & Hfrom)
                             |(-> & Hdb & found & found_enr & Hrec & Hfind & Hfrom)]].
    + (* the endpoint is given *)
      destruct (fetch_and_store_resolved (default_lookup depth) node_id
                  (Some ep) net ep net responses eq_refl Hresp Hne Hall)
        as (fetched & Hin & Hmax & Heq).
      exists fetched. split; [exact Hin|]. split; [exact Hmax|].
      rewrite <- Heq.
      destruct (enr_db net !! node_id) as [cached|] eqn:Hdb; [|reflexivity].
      specialize (Hstale cached eq_refl).
      apply N.leb_gt in Hstale. now rewrite Hstale.
    + (* the endpoint of the stored record *)
      assert (Hres : resolve_endpoint (default_lookup depth) node_id None net
                     = (Ok ep, net)).
      { simpl. unfold endpoint_for_node_id_with, get_enr.
        now rewrite Hdb, Hfrom. }
      destruct (fetch_and_store_resolved (default_lookup depth) node_id
                  None net ep net responses Hres Hresp Hne Hall)
        as (fetched & Hin & Hmax & Heq).
      exists fetched. split; [exact Hin|]. split; [exact Hmax|].
      rewrite <- Heq, Hdb.
      specialize (Hstale cached Hdb).
      apply N.leb_gt in Hstale. now rewrite Hstale.
    + (* the endpoint of the record found by a recursive lookup *)
      destruct (fetch_and_store_resolved (default_lookup depth) node_id
                  (Some ep) net1 ep net1 responses eq_refl Hresp Hne Hall)
        as (fetched & Hin & Hmax & Heq).
      exists fetched. split; [exact Hin|]. split; [exact Hmax|].
      rewrite <- Heq, Hdb.
      unfold bind at 1. rewrite Hrec, Hfind.
      unfold bind at 1, lift. now rewrite Hfrom.
Qed.

(** *** Serving FINDNODE *)

Lemma append_enrs_of_ok node_ids response_enrs net :
  (forall node_id, node_id ∈ node_ids -> is_Some (enr_db net !! node_id)) ->
  append_enrs_of node_ids response_enrs net
    = (Ok (response_enrs
           ++ omap (fun node_id => enr_db net !! node_id) node_ids),
       net).
Proof.
  revert response_enrs.
  induction node_ids as [|node_id rest IH]; intros acc Hdb; simpl.
  - unfold ret. now rewrite app_nil_r.
  - destruct (Hdb node_id) as [enr Henr]; [left|].
    unfold bind, get_enr. rewrite Henr. simpl.
    rewrite IH by (intros; apply Hdb; now right).
    now rewrite <- app_assoc.
Qed.

Lemma collect_response_enrs_ok distances response_enrs net :
  Forall (fun distance => distance <= 256) distances ->
  (forall distance node_id,
      distance ∈ distances -> distance ≠ 0 ->
      node_id ∈ get_nodes_at_log_distance (routing_table net) distance ->
      is_Some (enr_db net !! node_id)) ->
  collect_response_enrs distances response_enrs net
    = (Ok (response_enrs ++ flat_map (enrs_at_distance net) distances),
       net).
Proof.
  revert response_enrs.
  induction distances as [|distance rest IH]; intros acc Hle Hdb; simpl.
  - unfold ret. now rewrite app_nil_r.
  - inversion Hle as [|? ? Hd Hrest]; subst.
    unfold bind, enrs_at_distance at 1.
    destruct (decide (distance = 0)) as [->|Hnz].
    + rewrite IH by (auto; intros; eapply Hdb; eauto; now right).
      now rewrite <- app_assoc.
    + rewrite decide_True by exact Hd.
      rewrite append_enrs_of_ok
        by (intros; eapply Hdb; eauto; left).
      rewrite IH by (auto; intros; eapply Hdb; eauto; now right).
      now rewrite <- app_assoc.
Qed.

(** C2. The FINDNODE handler sends a NODES answer when the distances
    of the request are a non-empty list without duplicates of values
    of at most 256, and otherwise ignores the request and leaves the
    network object, with the list of calls made to the client, as it
    is.  With the ENRs of the requested buckets' node ids in the
    database, the ENRs of the answer are the local ENR when distance 0
    is requested and, for every other requested distance, the stored
    ENR of every node id of the bucket at that distance, and no
    others. *)
Theorem serve_find_nodes_request_spec (request : FindNodeRequest)
    (net : Network) :
  let distances := fn_distances request in
  let valid :=
    distances ≠ [] /\ NoDup distances
    /\ Forall (fun distance => distance <= 256) distances in
  (~ valid -> serve_find_nodes_request request net = (Ok tt, net))
  /\ (valid ->
      (forall distance node_id,
          distance ∈ distances -> distance ≠ 0 ->
          node_id ∈ get_nodes_at_log_distance (routing_table net) distance ->
          is_Some (enr_db net !! node_id)) ->
      exists response_enrs,
        serve_find_nodes_request request net
          = (Ok tt,
             with_call
               (SendFoundNodes (fn_sender_node_id request)
                  (fn_sender_endpoint request) response_enrs
                  (fn_request_id request)) net)
        /\ (0 ∈ distances -> local_enr net ∈ response_enrs)
        /\ (forall distance node_id,
              distance ∈ distances -> distance ≠ 0 ->
              node_id ∈ get_nodes_at_log_distance (routing_table net)
                          distance ->
              exists enr,
                enr_db net !! node_id = Some enr /\ enr ∈ response_enrs)
        /\ (forall enr,
              enr ∈ response_enrs ->
              (0 ∈ distances /\ enr = local_enr net)
              \/ exists distance node_id,
                   distance ∈ distances /\ distance ≠ 0
                   /\ node_id ∈ get_nodes_at_log_distance
                                  (routing_table net) distance
                   /\ enr_db net !! node_id = Some enr)).
Proof.
  intros distances valid. subst valid.
  unfold serve_find_nodes_request. fold distances. clearbody distances.
  assert (Hmem : forall d,
             d ∈ elements (list_to_set distances : gset N)
             <-> d ∈ distances).
  { intros d. now rewrite elem_of_elements, elem_of_list_to_set. }
  assert (Hempty : (list_to_set distances : gset N) = ∅ <-> distances = []).
  { split; [|now intros ->].
    destruct distances as [|d l]; [reflexivity|]. intros Hnil.
    assert (Hd : d ∈ (list_to_set (d :: l) : gset N))
      by (apply elem_of_list_to_set; left).
    rewrite Hnil in Hd. now apply not_elem_of_empty in Hd. }
  assert (Hbig : existsb (fun distance => 256 <? distance)
                         (elements (list_to_set distances : gset N)) = false
                 <-> Forall (fun distance => distance <= 256) distances).
  { rewrite <- Bool.not_true_iff_false, existsb_exists, Forall_forall.
    split.
    - intros Hno d Hd. apply N.nlt_ge. intros Hlt. apply Hno.
      exists d. split; [|now apply N.ltb_lt].
      now apply list_elem_of_In, Hmem.
    - intros Hall (d & Hin & Hlt). apply N.ltb_lt in Hlt.
      apply list_elem_of_In, Hmem in Hin.
      specialize (Hall d Hin). lia. }
  unfold num_buckets. split.
  - intros Hinvalid.
    destruct (decide (size _ ≠ length distances)); [reflexivity|].
    destruct (decide (_ = ∅)); [reflexivity|].
    destruct (existsb _ _) eqn:E; [reflexivity|].
    exfalso. apply Hinvalid. split; [|split].
    + intros Hnil. apply Hempty in Hnil. contradiction.
    + apply size_list_to_set_NoDup.
      destruct (decide (size (list_to_set distances : gset N)
                        = length distances)); [assumption|contradiction].
    + now apply Hbig.
  - intros (Hne & Hnodup & Hle) Hdb.
    apply size_list_to_set_NoDup in Hnodup.
    rewrite decide_False by (intros Hs; now apply Hs).
    rewrite decide_False by (rewrite Hempty; exact Hne).
    apply Hbig in Hle as Hle'. rewrite Hle'.
    unfold bind.
    rewrite collect_response_enrs_ok.
    2: { rewrite Forall_forall in *. intros d Hd. apply Hle, Hmem, Hd. }
    2: { intros d n Hd. apply Hdb, Hmem, Hd. }
    simpl. eexists. split; [reflexivity|].
    split; [|split].
    + intros H0. apply list_elem_of_In, in_flat_map. exists 0.
      split; [apply list_elem_of_In, Hmem, H0|]. now left.
    + intros d n Hd Hnz Hn.
      destruct (Hdb d n Hd Hnz Hn) as [enr Henr].
      exists enr. split; [exact Henr|].
      apply list_elem_of_In, in_flat_map. exists d.
      split; [apply list_elem_of_In, Hmem, Hd|].
      apply list_elem_of_In. unfold enrs_at_distance.
      rewrite decide_False by exact Hnz.
      apply list_elem_of_omap. eauto.
    + intros enr Hin.
      apply list_elem_of_In, in_flat_map in Hin as (d & Hd & Hin).
      apply list_elem_of_In, Hmem in Hd. apply list_elem_of_In in Hin.
      unfold enrs_at_distance in Hin.
      destruct (decide (d = 0)) as [->|Hnz].
      * left. apply list_elem_of_singleton in Hin. auto.
      * right. apply list_elem_of_omap in Hin as (n & Hn & Henr).
        exists d, n. auto.
Qed.

(** C8. Given the TALKRESP payload that the client returns, [talk]
    raises [ProtocolNotSupported] exactly when that payload is empty
    and returns the payload otherwise; and the handler of unhandled
    talk requests sends a TALKRESP with the empty payload when the
    protocol of the request has no registered handler, and sends
    nothing when it has one. *)
Theorem talk_empty_means_unsupported (depth : nat) (node_id : NodeID)
    (protocol payload : bytes) (endpoint : option Endpoint)
    (request_id : option bytes) (net net1 : Network) (ep : Endpoint)
    (response_payload : bytes) :
  resolve_endpoint (default_lookup depth) node_id endpoint net
    = (Ok ep, net1) ->
  client_talk client (calls net1) node_id ep protocol payload request_id
    = Ok response_payload ->
  let outcome :=
    (talk depth node_id protocol payload endpoint request_id net).1 in
  (outcome = Raise (ProtocolNotSupported protocol)
     <-> response_payload = [])
  /\ (response_payload ≠ [] -> outcome = Ok response_payload)
  /\ (forall (request : TalkRequest) (net : Network),
        (tr_protocol request ∉ _talk_protocols net ->
         handle_unhandled_talk_request request net
           = (Ok tt,
              with_call
                (SendTalkResponse (tr_sender_node_id request)
                   (tr_sender_endpoint request) []
                   (tr_request_id request)) net))
        /\ (tr_protocol request ∈ _talk_protocols net ->
            handle_unhandled_talk_request request net = (Ok tt, net))).
Proof.
  intros Hres Hresp outcome.
  assert (Hout : outcome =
                 if decide (response_payload = [])
                 then Raise (ProtocolNotSupported protocol)
                 else Ok response_payload).
  { subst outcome. unfold Net.talk, talk_with, bind.
    rewrite Hres. unfold call_talk. rewrite Hresp.
    now destruct (decide (response_payload = [])). }
  rewrite Hout. clear Hout outcome.
  split; [|split].
  - destruct (decide (response_payload = [])); split; congruence.
  - intros Hne. now rewrite decide_False.
  - intros request net'. unfold handle_unhandled_talk_request.
    split; intros H.
    + now rewrite decide_True.
    + rewrite decide_False; [reflexivity|]. intros Hn. now apply Hn.
Qed.

End WithClient.

(** *** The theorems at the concrete network *)

Lemma find_nodes_all_or_nothing_witness :
  Forall (at_requested_distance 5 [0]) [enr_of 5 2]
  /\ (Net.find_nodes demo_client demo_recursive_find_nodes 1 5 [2; 4]
        (Some (ep 30305)) None demo_net).1
     = Ok [enr_of 6 1; enr_of 9 1]
  /\ (Net.find_nodes demo_client demo_recursive_find_nodes 1 5 [2]
        (Some (ep 30305)) None demo_net).1
     = Raise ValidationError.
Proof.
  split; [|split].
  - eapply (proj1 (find_nodes_all_or_nothing demo_client
                     demo_recursive_find_nodes 1 5 [0] (Some (ep 30305))
                     None demo_net)).
    vm_compute. reflexivity.
  - apply (proj1 (proj2 (find_nodes_all_or_nothing demo_client
                           demo_recursive_find_nodes 1 5 [2; 4]
                           (Some (ep 30305)) None demo_net)
                    (ep 30305) demo_net [[enr_of 6 1]; [enr_of 9 1]]
                    ltac:(discriminate) eq_refl eq_refl)).
    refine (bool_decide_unpack _ _). vm_compute. exact I.
  - apply (proj2 (proj2 (find_nodes_all_or_nothing demo_client
                           demo_recursive_find_nodes 1 5 [2]
                           (Some (ep 30305)) None demo_net)
                    (ep 30305) demo_net [[enr_of 6 1]; [enr_of 9 1]]
                    ltac:(discriminate) eq_refl eq_refl)).
    intros Hall. apply (bool_decide_pack _) in Hall.
    vm_compute in Hall. exact Hall.
Defined.

(** [find_nodes] does not drop the ENRs that are at none of the requested
    distances and return the others: peer 5 answers the request for
    distance 2 with the record of peer 6, at distance 2, and the record
    of peer 9, at distance 4, and the call raises. *)
Lemma find_nodes_does_not_discard :
  ~ (forall (client : ClientAPI)
            (recursive_find_nodes : NodeID -> M (list ENR)) (depth : nat)
            (node_id : NodeID) (distances : list N) (ep : Endpoint)
            (request_id : option bytes) (net : Network)
            (responses : list (list ENR)),
        distances ≠ [] ->
        client_find_nodes client (calls net) node_id ep distances request_id
          = Ok responses ->
        (Net.find_nodes client recursive_find_nodes depth node_id distances
           (Some ep) request_id net).1
          = Ok (filter (at_requested_distance node_id distances)
                       (concat responses))).
Proof.
  intros Hclaim.
  specialize (Hclaim demo_client demo_recursive_find_nodes 1%nat 5 [2]
                (ep 30305) None demo_net [[enr_of 6 1]; [enr_of 9 1]]
                ltac:(discriminate) eq_refl).
  vm_compute in Hclaim. discriminate Hclaim.
Qed.

Lemma lookup_enr_cached_or_fetched_witness :
  Net.lookup_enr demo_client demo_recursive_find_nodes 1 5 1 None demo_net
    = (Ok (enr_of 5 1), demo_net)
  /\ (exists fetched,
        fetched ∈ [enr_of 5 2]
        /\ (forall other, other ∈ [enr_of 5 2] ->
              sequence_number other <= sequence_number fetched)
        /\ Net.lookup_enr demo_client demo_recursive_find_nodes 1 5 2 None
             demo_net
           = (Ok fetched,
              with_enr_db
                (stored_unless_older fetched (enr_db demo_net))
                (with_call (CallFindNodes 5 (ep 30305) [0] None) demo_net)))
  /\ (exists fetched,
        fetched ∈ [enr_of 8 2]
        /\ (forall other, other ∈ [enr_of 8 2] ->
              sequence_number other <= sequence_number fetched)
        /\ Net.lookup_enr demo_client demo_recursive_find_nodes 1 8 0 None
             demo_net
           = (Ok fetched,
              with_enr_db
                (stored_unless_older fetched (enr_db demo_net))
                (with_call (CallFindNodes 8 (ep 30308) [0] None) demo_net))).
Proof.
  assert (H5 : (5 : N) ≠ local_node_id demo_net) by discriminate.
  assert (H8 : (8 : N) ≠ local_node_id demo_net) by discriminate.
  split; [|split].
  - apply (proj1 (lookup_enr_cached_or_fetched demo_client
                    demo_recursive_find_nodes 0 5 1 None demo_net H5)).
    + vm_compute. reflexivity.
    + vm_compute. discriminate.
  - apply (proj2 (lookup_enr_cached_or_fetched demo_client
                    demo_recursive_find_nodes 0 5 2 None demo_net H5)
             (ep 30305) demo_net [[enr_of 5 2]]).
    + intros cached Hdb. vm_compute in Hdb.
      injection Hdb as <-. vm_compute. reflexivity.
    + right. left. split; [reflexivity|]. split; [reflexivity|].
      exists (enr_of 5 1). split; vm_compute; reflexivity.
    + reflexivity.
    + discriminate.
    + repeat constructor.
  - apply (proj2 (lookup_enr_cached_or_fetched demo_client
                    demo_recursive_find_nodes 0 8 0 None demo_net H8)
             (ep 30308) demo_net [[enr_of 8 2]]).
    + intros cached Hdb. vm_compute in Hdb. discriminate Hdb.
    + right. right. split; [reflexivity|].
      split; [vm_compute; reflexivity|].
      exists [enr_of 8 1; enr_of 5 1], (enr_of 8 1).
      split; [reflexivity|]. split; vm_compute; reflexivity.
    + reflexivity.
    + discriminate.
    + repeat constructor.
Defined.

Lemma serve_find_nodes_request_spec_witness :
  serve_find_nodes_request (demo_find_node_request [3; 3]) demo_net
    = (Ok tt, demo_net)
  /\ exists response_enrs,
       serve_find_nodes_request (demo_find_node_request [0; 3]) demo_net
         = (Ok tt,
            with_call (SendFoundNodes 5 (ep 30305) response_enrs [x01])
              demo_net)
       /\ local_enr demo_net ∈ response_enrs
       /\ enr_of 6 1 ∈ response_enrs.
Proof.
  split.
  - apply (proj1 (serve_find_nodes_request_spec
                    (demo_find_node_request [3; 3]) demo_net)).
    intros (_ & Hnodup & _). apply (bool_decide_pack _) in Hnodup.
    vm_compute in Hnodup. exact Hnodup.
  - assert (Hdb : forall distance node_id,
               distance ∈ [0; 3] -> distance ≠ 0 ->
               node_id ∈ get_nodes_at_log_distance
                            (routing_table demo_net) distance ->
               is_Some (enr_db demo_net !! node_id)).
    { intros distance node_id Hd Hnz Hn.
      apply elem_of_cons in Hd as [->|Hd]; [contradiction|].
      apply list_elem_of_singleton in Hd as ->.
      change (node_id ∈ [5; 6; 7]) in Hn.
      repeat (apply elem_of_cons in Hn as [->|Hn];
              [vm_compute; eauto|]).
      now apply not_elem_of_nil in Hn. }
    destruct (proj2 (serve_find_nodes_request_spec
                       (demo_find_node_request [0; 3]) demo_net))
      as (response_enrs & Hsend & Hlocal & Hbuckets & _).
    + split; [discriminate|]. split.
      * refine (bool_decide_unpack _ _). vm_compute. exact I.
      * repeat constructor; vm_compute; discriminate.
    + exact Hdb.
    + exists response_enrs. split; [exact Hsend|].
      split; [apply Hlocal; left|].
      destruct (Hbuckets 3 6) as (enr & Henr & Hin).
      * right. left.
      * discriminate.
      * change (6 ∈ [5; 6; 7]). right. left.
      * vm_compute in Henr. injection Henr as <-. exact Hin.
Defined.

Lemma talk_empty_means_unsupported_witness :
  ((Net.talk demo_client demo_recursive_find_nodes 1 5 (b "echo") [x2a]
      (Some (ep 30305)) None demo_net).1
     = Raise (ProtocolNotSupported (b "echo"))
   <-> [x2a] = @nil byte)
  /\ (Net.talk demo_client demo_recursive_find_nodes 1 5 (b "echo") [x2a]
        (Some (ep 30305)) None demo_net).1
     = Ok [x2a]
  /\ handle_unhandled_talk_request (demo_talk_request (b "other")) demo_net
     = (Ok tt,
        with_call (SendTalkResponse 5 (ep 30305) [] [x02]) demo_net)
  /\ handle_unhandled_talk_request (demo_talk_request (b "echo")) demo_net
     = (Ok tt, demo_net).
Proof.
  pose proof (talk_empty_means_unsupported demo_client
                demo_recursive_find_nodes 1 5 (b "echo") [x2a]
                (Some (ep 30305)) None demo_net demo_net (ep 30305) [x2a]
                eq_refl eq_refl) as (Hiff & Hsome & Hhandler).
  split; [exact Hiff|]. split; [apply Hsome; discriminate|].
  split.
  - apply (proj1 (Hhandler (demo_talk_request (b "other")) demo_net)).
    refine (bool_decide_unpack _ _). vm_compute. exact I.
  - apply (proj2 (Hhandler (demo_talk_request (b "echo")) demo_net)).
    refine (bool_decide_unpack _ _). vm_compute. exact I.
Defined.

End NetFacts.

Module EngineFacts.
Import Net Engine NetDemo EngineDemo.

(** Equalities and memberships of sets built from unions, by the
    members. *)
Ltac set_tauto :=
  try (apply set_eq; intros ?); set_unfold; tauto.

(** *** Lists in ascending distance *)

#[local] Instance closer_transitive target : Transitive (closer target).
Proof. unfold closer. intros x y z ? ?. lia. Qed.

#[local] Instance closer_total target : Total (closer target).
Proof. unfold closer. intros x y. lia. Qed.

Lemma StronglySorted_sublist {A} (R : relation A) (k l : list A) :
  k `sublist_of` l -> StronglySorted R l -> StronglySorted R k.
Proof.
  induction 1 as [|x k l Hsub IH|x k l Hsub IH]; intros Hsorted.
  - constructor.
  - apply StronglySorted_inv in Hsorted as [Hl Hx].
    constructor; [now apply IH|].
    rewrite Forall_forall in *. intros y Hy.
    apply Hx. eapply elem_of_sublist; eassumption.
  - apply StronglySorted_inv in Hsorted as [Hl _]. now apply IH.
Qed.

(** In a list in ascending distance, fewer than [j] members are strictly
    closer than a member of the prefix of length [j]. *)
Lemma take_few_closer target (l : list NodeID) (j : nat) (n : NodeID) :
  StronglySorted (closer target) l ->
  n ∈ take j l ->
  (length (filter (fun m => (N.lxor target m < N.lxor target n)%N) l) < j)%nat.
Proof.
  intros Hsorted Hn.
  apply elem_of_take in Hn as (i & Hi & Hlt).
  rewrite <- (take_drop i l) in Hsorted.
  rewrite <- (take_drop i l), filter_app.
  assert (Hnone : filter (fun m => N.lxor target m < N.lxor target n)
                         (drop i l) = []).
  { apply StronglySorted_app_1_r in Hsorted.
    rewrite (drop_S _ _ _ Hi) in Hsorted |- *.
    apply StronglySorted_inv in Hsorted as [_ Hall].
    rewrite filter_cons_False by apply N.lt_irrefl.
    induction Hall as [|y rest Hy _ IH]; [reflexivity|].
    rewrite filter_cons_False by apply N.le_ngt, Hy.
    exact IH. }
  rewrite Hnone, app_nil_r.
  pose proof (length_filter
                (fun m => N.lxor target m < N.lxor target n) (take i l)).
  pose proof (length_take l i). lia.
Qed.

(** Distinct node ids are at distinct distances. *)
Lemma lxor_target_inj target (n m : NodeID) :
  N.lxor target n = N.lxor target m -> n = m.
Proof.
  intros Heq. apply (f_equal (N.lxor target)) in Heq.
  now rewrite <- !N.lxor_assoc, N.lxor_nilpotent, !N.lxor_0_l in Heq.
Qed.

Lemma length_filter_all {A} (P : A -> Prop) `{!forall x, Decision (P x)}
    (l : list A) :
  Forall P l -> length (filter P l) = length l.
Proof.
  induction 1 as [|x l Hx _ IH]; [reflexivity|].
  rewrite filter_cons_True by exact Hx. simpl. now rewrite IH.
Qed.

(** With the converse: the members of the prefix of length [j] are the
    members with fewer than [j] members strictly closer. *)
Lemma take_iff_few_closer target (l : list NodeID) (j : nat) (n : NodeID) :
  StronglySorted (closer target) l -> NoDup l ->
  n ∈ take j l
  <-> n ∈ l
      /\ (length (filter (fun m => (N.lxor target m < N.lxor target n)%N) l)
          < j)%nat.
Proof.
  intros Hsorted Hnodup. split.
  - intros Hn. split.
    + eapply elem_of_sublist; [exact Hn|apply sublist_take].
    + now apply take_few_closer.
  - intros [Hn Hfew].
    apply list_elem_of_lookup in Hn as [i Hi].
    apply elem_of_take. exists i. split; [exact Hi|].
    pose proof (take_drop_middle _ _ _ Hi) as Hsplit.
    rewrite <- Hsplit in Hsorted, Hnodup, Hfew.
    assert (Hbefore : Forall (fun m => N.lxor target m < N.lxor target n)
                             (take i l)).
    { apply Forall_forall. intros m Hm.
      assert (Hle : closer target m n).
      { eapply StronglySorted_app_1_elem_of; [exact Hsorted|exact Hm|left]. }
      apply NoDup_app in Hnodup as (_ & Hdisjoint & _).
      unfold closer in Hle. apply N.le_lteq in Hle as [Hlt|Heq]; [exact Hlt|].
      apply lxor_target_inj in Heq. subst m.
      exfalso. apply (Hdisjoint n Hm). left. }
    rewrite filter_app, length_app, (length_filter_all _ _ Hbefore) in Hfew.
    assert (Hi' : (i < length l)%nat) by (eapply lookup_lt_Some; eassumption).
    rewrite length_take in Hfew. lia.
Qed.

(** *** The candidates *)

Section Candidates.
Variable st : Lookup.

Let candidates : list NodeID :=
  iter_closest_nodes (target st) (routing_table (network st))
    (received_node_ids st).

Let responsive : list NodeID :=
  filter (fun n => n ∉ unresponsive_node_ids st) candidates.

Let closest_k : list NodeID :=
  take (bucket_size (routing_table (network st))) responsive.

Let unqueried : list NodeID :=
  filter (fun n => ~ (n ∈ queried_node_ids st \/ n ∈ in_flight st)) closest_k.

Lemma candidates_known n : n ∈ candidates <-> n ∈ known_node_ids st.
Proof using Type.
  unfold candidates, iter_closest_nodes, known_node_ids.
  rewrite merge_sort_Permutation. apply elem_of_elements.
Qed.

Lemma candidates_NoDup : NoDup candidates.
Proof using Type.
  unfold candidates, iter_closest_nodes.
  rewrite merge_sort_Permutation. apply NoDup_elements.
Qed.

Lemma candidates_sorted : StronglySorted (closer (target st)) candidates.
Proof using Type.
  unfold candidates, iter_closest_nodes.
  apply StronglySorted_merge_sort; apply _.
Qed.

Lemma responsive_sorted : StronglySorted (closer (target st)) responsive.
Proof using Type.
  eapply StronglySorted_sublist; [apply sublist_filter|].
  apply candidates_sorted.
Qed.

Lemma responsive_NoDup : NoDup responsive.
Proof using Type. apply NoDup_filter, candidates_NoDup. Qed.

Lemma unqueried_sorted : StronglySorted (closer (target st)) unqueried.
Proof using Type.
  eapply StronglySorted_sublist; [apply sublist_filter|].
  eapply StronglySorted_sublist; [apply sublist_take|].
  apply responsive_sorted.
Qed.

Lemma unqueried_NoDup : NoDup unqueried.
Proof using Type.
  apply NoDup_filter. eapply sublist_NoDup; [|apply sublist_take].
  apply responsive_NoDup.
Qed.

Lemma closer_responsive_size n :
  size (closer_responsive st n)
  = length (filter (fun m => N.lxor (target st) m < N.lxor (target st) n)
                   responsive).
Proof using Type.
  rewrite <- (size_list_to_set (C := gset NodeID))
    by apply NoDup_filter, responsive_NoDup.
  f_equal. apply set_eq. intros m. unfold closer_responsive.
  rewrite elem_of_filter, elem_of_list_to_set, list_elem_of_filter.
  unfold responsive. rewrite list_elem_of_filter, candidates_known.
  tauto.
Qed.

Lemma unqueried_eligible n : n ∈ unqueried <-> eligible st n.
Proof using Type.
  unfold unqueried, closest_k, eligible.
  rewrite list_elem_of_filter.
  rewrite (take_iff_few_closer _ _ _ _ responsive_sorted responsive_NoDup).
  rewrite closer_responsive_size.
  unfold responsive at 1. rewrite list_elem_of_filter, candidates_known.
  tauto.
Qed.

Lemma closer_eligible_size n :
  size (closer_eligible st n)
  = length (filter (fun m => N.lxor (target st) m < N.lxor (target st) n)
                   unqueried).
Proof using Type.
  rewrite <- (size_list_to_set (C := gset NodeID))
    by apply NoDup_filter, unqueried_NoDup.
  f_equal. apply set_eq. intros m. unfold closer_eligible.
  rewrite elem_of_filter, elem_of_list_to_set, list_elem_of_filter.
  rewrite unqueried_eligible. unfold eligible. tauto.
Qed.

(** C4. The batch of [get_unqueried_node_ids] has at most three node
    ids, without repetition and in ascending XOR distance to the target.
    A node id is in the batch exactly when it is eligible, that is known
    (received or in the routing table), not unresponsive, with fewer than
    [bucket_size] known responsive node ids strictly closer to the
    target, not queried and not in flight, and fewer than three eligible
    node ids are strictly closer to the target.  Hence no member of the
    batch is unresponsive, queried or in flight. *)
Theorem get_unqueried_node_ids_spec :
  let batch := get_unqueried_node_ids st in
  let distance := N.lxor (target st) in
  (length batch <= 3)%nat
  /\ NoDup batch
  /\ StronglySorted (fun n m => distance n <= distance m) batch
  /\ (forall n,
        n ∈ batch
        <-> eligible st n /\ (size (closer_eligible st n) < 3)%nat)
  /\ (forall n,
        n ∈ batch ->
        (n ∉ unresponsive_node_ids st)
        /\ (n ∉ queried_node_ids st)
        /\ (n ∉ in_flight st)).
Proof using Type.
  intros batch distance. subst batch distance.
  unfold get_unqueried_node_ids.
  fold candidates. fold responsive. fold closest_k. fold unqueried.
  assert (Hiff : forall n,
             n ∈ take 3 unqueried
             <-> eligible st n /\ (size (closer_eligible st n) < 3)%nat).
  { intros n.
    rewrite (take_iff_few_closer _ _ _ _ unqueried_sorted unqueried_NoDup).
    now rewrite unqueried_eligible, closer_eligible_size. }
  split; [|split; [|split; [|split]]].
  - rewrite length_take. lia.
  - eapply sublist_NoDup; [apply unqueried_NoDup|apply sublist_take].
  - eapply StronglySorted_sublist; [apply sublist_take|].
    apply unqueried_sorted.
  - exact Hiff.
  - intros n Hn. apply Hiff in Hn as [Hn _]. unfold eligible in Hn. tauto.
Qed.

End Candidates.

(** *** The unresponsive set *)

Lemma lru_get_setitem key value cache :
  lru_get key (lru_setitem key value cache) = Some value.
Proof.
  unfold lru_get, lru_setitem, lru_size. simpl.
  now rewrite bool_decide_eq_true_2.
Qed.

Lemma peers_with_snoc p trace l :
  peers_with p (trace ++ [l])
  = peers_with p trace
    ∪ match l with
      | LLookup node_id _ outcome => if p outcome then {[node_id]} else ∅
      | _ => ∅
      end.
Proof.
  unfold peers_with. rewrite omap_app, list_to_set_app_L. f_equal.
  destruct l as [?|node_id ? outcome|?]; simpl;
    try destruct (p outcome); simpl; set_tauto.
Qed.

Section WithClient.
Variable client : ClientAPI.
Variable recursive_find_nodes : NodeID -> M (list ENR).
Variable depth : nat.

Abbreviation do_lookup := (Engine.do_lookup client recursive_find_nodes depth).
Abbreviation step := (Engine.step client recursive_find_nodes depth).
Abbreviation run := (Engine.run client recursive_find_nodes depth).
Abbreviation lookup_outcome node_id st :=
  (find_nodes client recursive_find_nodes depth node_id
     [lookup_distance node_id st] None None (network st)).1.

Lemma send_known_unresponsive node_ids st :
  unresponsive_node_ids (send_known node_ids st).2 = unresponsive_node_ids st
  /\ unresponsive_cache (send_known node_ids st).2 = unresponsive_cache st.
Proof.
  revert st. induction node_ids as [|node_id rest IH]; intros st; simpl.
  - auto.
  - destruct (decide (node_id ∉ received_node_ids st)); [|apply IH].
    destruct (get_enr node_id (network st)) as [[enr|e] net']; [|auto].
    match goal with
    | |- context [send_known rest ?s] =>
        destruct (IH s) as [Hu Hc]; rewrite Hu, Hc
    end.
    auto.
Qed.

Lemma worker_pick_unresponsive st :
  unresponsive_node_ids (worker_pick st).2 = unresponsive_node_ids st
  /\ unresponsive_cache (worker_pick st).2 = unresponsive_cache st.
Proof.
  unfold Engine.worker_pick.
  destruct (decide (get_unqueried_node_ids st = [])); [auto|].
  match goal with
  | |- context [send_known ?ids ?s] =>
      destruct (send_known_unresponsive ids s) as [Hu Hc];
      destruct (send_known ids s) as [[?|?] st']
  end; simpl in *; auto.
Qed.

Lemma do_lookup_unresponsive now node_id st :
  unresponsive_node_ids (do_lookup now node_id st).2
  = (if failed_outcome (lookup_outcome node_id st)
        || cancelled_outcome (lookup_outcome node_id st)
     then {[node_id]} ∪ unresponsive_node_ids st
     else unresponsive_node_ids st).
Proof.
  unfold Engine.do_lookup, lookup_distance.
  destruct (find_nodes _ _ _ _ _ _ _ _) as [[found|e] net']; [reflexivity|].
  destruct e; reflexivity.
Qed.

Lemma do_lookup_cache now node_id st :
  unresponsive_cache (do_lookup now node_id st).2
  = (if failed_outcome (lookup_outcome node_id st)
     then lru_setitem node_id now (unresponsive_cache st)
     else unresponsive_cache st).
Proof.
  unfold Engine.do_lookup, lookup_distance.
  destruct (find_nodes _ _ _ _ _ _ _ _) as [[found|e] net']; [reflexivity|].
  destruct e; reflexivity.
Qed.

(** C5. At every point of an invocation, the unresponsive set holds the
    local node id, the node ids of the shared cache that were less than
    300 seconds old at the start, the peers whose lookup in this
    invocation failed with a timeout, a validation error or a missing
    endpoint, and the peers whose lookup was cancelled, and nothing else.
    A lookup that fails in one of the three ways records the peer in the
    shared cache with the clock reading of the failure; a cancelled lookup
    leaves the shared cache as it is. *)
Theorem unresponsive_node_ids_spec (net : Network) (target : NodeID)
    (now : Q) (cache : LRU) (trace : list label) (st : Lookup) :
  run (common_recursive_find_nodes net target now cache) trace st ->
  unresponsive_node_ids st
    = specified_unresponsive net now cache trace
      ∪ peers_with cancelled_outcome trace
  /\ (forall st1 node_id now' outcome st2,
        step st1 (LLookup node_id now' outcome) st2 ->
        (failed_outcome outcome = true ->
         node_id ∈ unresponsive_node_ids st2
         /\ lru_get node_id (unresponsive_cache st2) = Some now')
        /\ (cancelled_outcome outcome = true ->
            node_id ∈ unresponsive_node_ids st2
            /\ unresponsive_cache st2 = unresponsive_cache st1)).
Proof.
  intros Hrun. split.
  - remember (common_recursive_find_nodes net target now cache) as st0
      eqn:Hst0.
    induction Hrun as [st|st trace st' l st'' Hrun IH Hstep].
    + subst st. unfold specified_unresponsive, peers_with. simpl.
      set_tauto.
    + specialize (IH Hst0).
      unfold specified_unresponsive in *. rewrite !peers_with_snoc.
      inversion Hstep as [st1|st1 now' node_id|st1 node_ids]; subst.
      * destruct (worker_pick_unresponsive st') as [-> _].
        rewrite IH. set_tauto.
      * rewrite do_lookup_unresponsive, IH.
        destruct (lookup_outcome node_id st') as [found|[]]; simpl;
          set_tauto.
      * simpl. rewrite IH. set_tauto.
  - intros st1 node_id now' outcome st2 Hstep.
    inversion Hstep as [|st1' now'' node_id'|]; subst.
    split; intros Hout.
    + split.
      * rewrite do_lookup_unresponsive, Hout. simpl. set_tauto.
      * rewrite do_lookup_cache, Hout. apply lru_get_setitem.
    + split.
      * rewrite do_lookup_unresponsive, Hout, orb_true_r. set_tauto.
      * rewrite do_lookup_cache.
        destruct (lookup_outcome node_id st1) as [found|[]];
          try discriminate; reflexivity.
Qed.

End WithClient.

Lemma unresponsive_node_ids_spec_witness :
  unresponsive_node_ids demo_after_timeout
    = specified_unresponsive demo_net 600%Q demo_cache
        [LLookup 6 610%Q (Raise TooSlowError)]
      ∪ peers_with cancelled_outcome [LLookup 6 610%Q (Raise TooSlowError)]
  /\ (6 ∈ unresponsive_node_ids demo_after_timeout
      /\ lru_get 6 (unresponsive_cache demo_after_timeout) = Some 610%Q)
  /\ (7 ∈ unresponsive_node_ids demo_after_cancel
      /\ unresponsive_cache demo_after_cancel = unresponsive_cache demo_lookup).
Proof.
  assert (Hstep6 : Engine.step demo_client demo_recursive_find_nodes 1
                     demo_lookup (LLookup 6 610%Q (Raise TooSlowError))
                     demo_after_timeout)
    by exact (step_lookup demo_client demo_recursive_find_nodes 1
                demo_lookup 610%Q 6).
  assert (Hstep7 : Engine.step demo_client demo_recursive_find_nodes 1
                     demo_lookup (LLookup 7 605%Q (Raise Cancelled))
                     demo_after_cancel)
    by exact (step_lookup demo_client demo_recursive_find_nodes 1
                demo_lookup 605%Q 7).
  assert (Hrun : Engine.run demo_client demo_recursive_find_nodes 1
                   (common_recursive_find_nodes demo_net 4 600%Q demo_cache)
                   ([] ++ [LLookup 6 610%Q (Raise TooSlowError)])
                   demo_after_timeout)
    by (eapply run_snoc; [apply run_nil|exact Hstep6]).
  destruct (unresponsive_node_ids_spec demo_client demo_recursive_find_nodes
              1 demo_net 4 600%Q demo_cache _ _ Hrun) as [Hset Hsteps].
  split; [exact Hset|]. split.
  - apply (proj1 (Hsteps _ _ _ _ _ Hstep6)). reflexivity.
  - apply (proj2 (Hsteps _ _ _ _ _ Hstep7)). reflexivity.
Defined.

(** The unresponsive set is not only the local node id, the failed peers
    and the recently cached ones: the cancelled lookup on peer 7 puts
    peer 7 in the set. *)
Lemma unresponsive_holds_cancelled_peers :
  ~ (forall (client : ClientAPI)
            (recursive_find_nodes : NodeID -> M (list ENR)) (depth : nat)
            (net : Network) (target : NodeID) (now : Q) (cache : LRU)
            (trace : list label) (st : Lookup),
        Engine.run client recursive_find_nodes depth
          (common_recursive_find_nodes net target now cache) trace st ->
        unresponsive_node_ids st
          = specified_unresponsive net now cache trace).
Proof.
  intros Hclaim.
  assert (Hrun : Engine.run demo_client demo_recursive_find_nodes 1
                   (common_recursive_find_nodes demo_net 4 600%Q demo_cache)
                   ([] ++ [LLookup 7 605%Q (Raise Cancelled)])
                   demo_after_cancel).
  { eapply run_snoc; [apply run_nil|].
    exact (step_lookup demo_client demo_recursive_find_nodes 1
             demo_lookup 605%Q 7). }
  apply Hclaim in Hrun.
  apply (f_equal (fun s : gset NodeID => bool_decide (7 ∈ s))) in Hrun.
  vm_compute in Hrun. discriminate Hrun.
Qed.

Lemma get_unqueried_node_ids_spec_witness :
  5 ∈ get_unqueried_node_ids demo_lookup
  /\ (6 ∉ unresponsive_node_ids demo_lookup)
  /\ (6 ∉ queried_node_ids demo_lookup)
  /\ (6 ∉ in_flight demo_lookup).
Proof.
  destruct (get_unqueried_node_ids_spec demo_lookup)
    as (_ & _ & _ & Hiff & Hmember).
  split.
  - apply Hiff. split.
    + refine (bool_decide_unpack _ _). vm_compute. exact I.
    + refine (bool_decide_unpack _ _). vm_compute. exact I.
  - apply (Hmember 6).
    refine (bool_decide_unpack _ _). vm_compute. exact I.
Defined.

End EngineFacts.


(** * Further properties of the network object *)

Module NetMoreFacts.
Import Net NetDemo NetAnswers NetFacts.

(** *** The TALK registry and the handler of unhandled requests *)

(** X1. [add_talk_protocol] raises [DuplicateProtocol] and changes
    nothing when the protocol id is registered already.  Otherwise it
    registers the id and nothing else: from then on the handler of
    unhandled talk requests sends nothing for a request of that protocol,
    and registering the id again raises. *)
Theorem add_talk_protocol_once (protocol_id : bytes) (net : Network) :
  (protocol_id ∈ _talk_protocols net ->
   add_talk_protocol protocol_id net = (Raise DuplicateProtocol, net))
  /\ (protocol_id ∉ _talk_protocols net ->
      exists net',
        add_talk_protocol protocol_id net = (Ok tt, net')
        /\ (forall p, p ∈ _talk_protocols net'
                      <-> p = protocol_id \/ p ∈ _talk_protocols net)
        /\ calls net' = calls net
        /\ enr_db net' = enr_db net
        /\ (forall request,
              tr_protocol request = protocol_id ->
              handle_unhandled_talk_request request net' = (Ok tt, net'))
        /\ add_talk_protocol protocol_id net'
           = (Raise DuplicateProtocol, net')).
Proof.
  unfold add_talk_protocol. split; intros Hin.
  - now rewrite decide_True.
  - rewrite decide_False by exact Hin.
    eexists. split; [reflexivity|]. simpl.
    assert (Hnew : protocol_id ∈ ({[protocol_id]} ∪ _talk_protocols net
                                  : gset bytes))
      by (apply elem_of_union; left; now apply elem_of_singleton).
    split; [|split; [reflexivity|split; [reflexivity|split]]].
    + intros p. now rewrite elem_of_union, elem_of_singleton.
    + intros request <-. unfold handle_unhandled_talk_request. simpl.
      rewrite decide_False; [reflexivity|]. intros Hn. now apply Hn.
    + now rewrite decide_True.
Qed.

Lemma add_talk_protocol_once_witness :
  add_talk_protocol (b "echo") demo_net = (Raise DuplicateProtocol, demo_net)
  /\ exists net',
       add_talk_protocol (b "other") demo_net = (Ok tt, net')
       /\ handle_unhandled_talk_request (demo_talk_request (b "other")) net'
          = (Ok tt, net').
Proof.
  split.
  - apply (proj1 (add_talk_protocol_once (b "echo") demo_net)).
    refine (bool_decide_unpack _ _). vm_compute. exact I.
  - destruct (proj2 (add_talk_protocol_once (b "other") demo_net))
      as (net' & Hadd & _ & _ & _ & Hsilent & _).
    + refine (bool_decide_unpack _ _). vm_compute. exact I.
    + exists net'. split; [exact Hadd|]. now apply Hsilent.
Defined.

(** X2. The loop over the talk requests never raises.  It sends one
    TALKRESP with the empty payload for each request whose protocol has no
    registered handler, in the order of the requests, carrying the
    request's id, and does nothing else. *)
Theorem handle_unhandled_talk_requests_answers
    (subscription : list TalkRequest) (net : Network) :
  _handle_unhandled_talk_requests subscription net
  = (Ok tt, with_calls (omap (unhandled_talk_answer net) subscription) net).
Proof.
  revert net. induction subscription as [|request rest IH]; intros net.
  - reflexivity.
  - simpl. unfold bind, handle_unhandled_talk_request, unhandled_talk_answer
      at 1.
    destruct (decide (tr_protocol request ∉ _talk_protocols net)).
    + unfold send_talk_response. now rewrite IH.
    + now rewrite IH.
Qed.

(** *** The FINDNODE handler *)

Lemma distances_of_set (distances : list N) (d : N) :
  d ∈ elements (list_to_set distances : gset N) <-> d ∈ distances.
Proof. now rewrite elem_of_elements, elem_of_list_to_set. Qed.

Lemma distances_set_empty (distances : list N) :
  (list_to_set distances : gset N) = ∅ <-> distances = [].
Proof.
  split; [|now intros ->].
  destruct distances as [|d l]; [reflexivity|]. intros Hnil.
  assert (Hd : d ∈ (list_to_set (d :: l) : gset N))
    by (apply elem_of_list_to_set; left).
  rewrite Hnil in Hd. now apply not_elem_of_empty in Hd.
Qed.

Lemma distances_in_range (distances : list N) :
  existsb (fun distance => 256 <? distance)
          (elements (list_to_set distances : gset N)) = false
  <-> Forall (fun distance => distance <= 256) distances.
Proof.
  rewrite <- Bool.not_true_iff_false, existsb_exists, Forall_forall.
  split.
  - intros Hno d Hd. apply N.nlt_ge. intros Hlt. apply Hno.
    exists d. split; [|now apply N.ltb_lt].
    now apply list_elem_of_In, distances_of_set.
  - intros Hall (d & Hin & Hlt). apply N.ltb_lt in Hlt.
    apply list_elem_of_In in Hin.
    apply (proj1 (distances_of_set _ _)) in Hin.
    specialize (Hall d Hin). lia.
Qed.

(** The three tests of the handler, together. *)
Lemma serve_find_nodes_request_tests request net :
  serve_find_nodes_request request net
  = if decide (well_formed_distances (fn_distances request))
    then
      (let* response_enrs :=
         collect_response_enrs
           (elements (list_to_set (fn_distances request) : gset N)) [] in
       send_found_nodes (fn_sender_node_id request)
         (fn_sender_endpoint request) response_enrs
         (fn_request_id request)) net
    else (Ok tt, net).
Proof.
  unfold serve_find_nodes_request, well_formed_distances, num_buckets.
  destruct (decide (size (list_to_set (fn_distances request) : gset N)
                    ≠ length (fn_distances request))) as [Hdup|Hnodup].
  - rewrite decide_False; [reflexivity|].
    intros (_ & Hnd & _). now apply size_list_to_set_NoDup in Hnd.
  - assert (Hnd : NoDup (fn_distances request)).
    { apply size_list_to_set_NoDup.
      destruct (decide (size (list_to_set (fn_distances request) : gset N)
                        = length (fn_distances request)));
        [assumption|contradiction]. }
    destruct (decide ((list_to_set (fn_distances request) : gset N) = ∅))
      as [Hnil|Hne].
    + rewrite decide_False; [reflexivity|].
      intros (Hne & _). now apply distances_set_empty in Hnil.
    + destruct (existsb _ _) eqn:Hbig.
      * rewrite decide_False; [reflexivity|].
        intros (_ & _ & Hle). apply distances_in_range in Hle. congruence.
      * rewrite decide_True; [reflexivity|].
        split; [|split; [exact Hnd|now apply distances_in_range]].
        intros Hnil. apply Hne. now rewrite Hnil.
Qed.

Lemma append_enrs_of_missing node_ids response_enrs net :
  (exists node_id, node_id ∈ node_ids /\ enr_db net !! node_id = None) ->
  append_enrs_of node_ids response_enrs net = (Raise KeyError, net).
Proof.
  revert response_enrs.
  induction node_ids as [|node_id rest IH]; intros acc (n & Hn & Hnone).
  - now apply not_elem_of_nil in Hn.
  - simpl. unfold bind, get_enr.
    destruct (enr_db net !! node_id) as [enr|] eqn:Hdb; [|reflexivity].
    apply IH. exists n. split; [|exact Hnone].
    apply elem_of_cons in Hn as [->|Hn]; [congruence|exact Hn].
Qed.

Lemma collect_response_enrs_missing distances response_enrs net :
  Forall (fun distance => distance <= 256) distances ->
  (exists distance node_id,
      distance ∈ distances /\ distance ≠ 0
      /\ node_id ∈ get_nodes_at_log_distance (routing_table net) distance
      /\ enr_db net !! node_id = None) ->
  collect_response_enrs distances response_enrs net = (Raise KeyError, net).
Proof.
  revert response_enrs.
  induction distances as [|distance rest IH];
    intros acc Hle (d & n & Hd & Hnz & Hn & Hnone).
  - now apply not_elem_of_nil in Hd.
  - inversion Hle as [|? ? Hdle Hrest]; subst. simpl. unfold bind.
    destruct (decide (distance = 0)) as [->|Hnz0].
    + apply IH; [exact Hrest|]. exists d, n.
      apply elem_of_cons in Hd as [->|Hd]; [contradiction|auto].
    + unfold num_buckets. rewrite decide_True by exact Hdle.
      destruct (decide (Forall (fun node_id => is_Some (enr_db net !! node_id))
                          (get_nodes_at_log_distance (routing_table net)
                             distance))) as [Hall|Hmiss].
      * rewrite Forall_forall in Hall.
        rewrite append_enrs_of_ok by exact Hall.
        apply IH; [exact Hrest|]. exists d, n.
        apply elem_of_cons in Hd as [->|Hd]; [|auto].
        destruct (Hall n Hn) as [enr Henr]. congruence.
      * apply not_Forall_Exists in Hmiss; [|apply _].
        apply Exists_exists in Hmiss as (m & Hm & Hnot).
        rewrite append_enrs_of_missing; [reflexivity|].
        exists m. split; [exact Hm|].
        destruct (enr_db net !! m) eqn:E; [|reflexivity].
        exfalso. apply Hnot. eauto.
Qed.

(** X3. A well-formed FINDNODE request for a bucket with a node id whose
    ENR the database does not hold makes the handler raise [KeyError]:
    nothing is sent, the state is as before, and the loop ends there, the
    requests behind it unserved. *)
Theorem serve_find_nodes_request_missing_enr (request : FindNodeRequest)
    (net : Network) :
  well_formed_distances (fn_distances request) ->
  (exists distance node_id,
      distance ∈ fn_distances request /\ distance ≠ 0
      /\ node_id ∈ get_nodes_at_log_distance (routing_table net) distance
      /\ enr_db net !! node_id = None) ->
  serve_find_nodes_request request net = (Raise KeyError, net)
  /\ forall rest, _serve_find_nodes (request :: rest) net
                  = (Raise KeyError, net).
Proof.
  intros Hwf (d & n & Hd & Hnz & Hn & Hnone).
  assert (Hserve : serve_find_nodes_request request net
                   = (Raise KeyError, net)).
  { rewrite serve_find_nodes_request_tests, decide_True by exact Hwf.
    unfold bind. rewrite collect_response_enrs_missing; [reflexivity| |].
    - destruct Hwf as (_ & _ & Hle). rewrite Forall_forall in *.
      intros x Hx. apply Hle, distances_of_set, Hx.
    - exists d, n. split; [apply distances_of_set, Hd|auto]. }
  split; [exact Hserve|].
  intros rest. simpl. unfold bind. now rewrite Hserve.
Qed.

Lemma serve_find_nodes_request_missing_enr_witness :
  serve_find_nodes_request (demo_find_node_request [3])
    (with_enr_db (delete 6 (enr_db demo_net)) demo_net)
  = (Raise KeyError, with_enr_db (delete 6 (enr_db demo_net)) demo_net).
Proof.
  apply serve_find_nodes_request_missing_enr.
  - refine (bool_decide_unpack _ _). vm_compute. exact I.
  - exists 3, 6. split; [left|]. split; [discriminate|].
    split; [change (6 ∈ [5; 6; 7]); right; left|].
    vm_compute. reflexivity.
Defined.



(** *** The calls to a peer *)

Section WithClient.
Variable client : ClientAPI.
Variable recursive_find_nodes : NodeID -> M (list ENR).

Abbreviation lookup_enr := (Net.lookup_enr client recursive_find_nodes).
Abbreviation find_nodes := (Net.find_nodes client recursive_find_nodes).
Abbreviation stream_find_nodes :=
  (Net.stream_find_nodes client recursive_find_nodes).
Abbreviation talk := (Net.talk client recursive_find_nodes).
Abbreviation _fetch_enr := (Net._fetch_enr client recursive_find_nodes).
Abbreviation default_lookup depth :=
  (fun id => Net.lookup_enr client recursive_find_nodes depth id 0 None).

Lemma find_nodes_with_unresolved lk node_id distances endpoint request_id
    net e net1 :
  resolve_endpoint lk node_id endpoint net = (Raise e, net1) ->
  find_nodes_with client lk node_id distances endpoint request_id net
  = (Raise (if decide (distances = []) then TypeError else e),
     if decide (distances = []) then net else net1).
Proof.
  intros Hres. unfold find_nodes_with.
  destruct (decide (distances = [])); [reflexivity|].
  unfold bind. now rewrite Hres.
Qed.

Lemma find_nodes_with_valid lk node_id distances endpoint request_id net
    enrs net' :
  find_nodes_with client lk node_id distances endpoint request_id net
    = (Ok enrs, net') ->
  Forall (at_requested_distance node_id distances) enrs.
Proof.
  intros Hfind.
  destruct (resolve_endpoint lk node_id endpoint net) as [[ep|e] net1]
    eqn:Hres.
  - destruct (decide (distances = [])) as [->|Hne]; [discriminate|].
    rewrite (find_nodes_with_resolved client lk _ _ _ _ _ _ _ Hne Hres)
      in Hfind.
    destruct (client_find_nodes _ _ _ _ _ _) as [responses|e];
      [|discriminate].
    destruct (for_each _ responses) as [[]|e] eqn:Hval; [|discriminate].
    injection Hfind as <- _. now apply validate_responses_ok.
  - rewrite (find_nodes_with_unresolved _ _ _ _ _ _ _ _ Hres) in Hfind.
    discriminate.
Qed.

(** X5. With a known endpoint and at least one distance, [find_nodes]
    makes one call to the client and does nothing else to the network
    object, whatever comes back: it does not store the ENRs it returns.
    Its outcome is the ENRs of the responses, the exception of the client,
    or [ValidationError]. *)
Theorem find_nodes_one_call (depth : nat) (node_id : NodeID)
    (distances : list N) (ep : Endpoint) (request_id : option bytes)
    (net : Network) :
  distances ≠ [] ->
  (find_nodes depth node_id distances (Some ep) request_id net).2
  = with_call (CallFindNodes node_id ep distances request_id) net
  /\ match (find_nodes depth node_id distances (Some ep) request_id net).1
     with
     | Ok enrs =>
         exists responses,
           client_find_nodes client (calls net) node_id ep distances
             request_id = Ok responses
           /\ enrs = concat responses
     | Raise e =>
         client_find_nodes client (calls net) node_id ep distances request_id
           = Raise e
         \/ e = ValidationError
     end.
Proof.
  intros Hne. unfold Net.find_nodes.
  rewrite (find_nodes_with_resolved client _ node_id distances (Some ep)
             request_id net ep net Hne eq_refl).
  split; [reflexivity|]. simpl.
  destruct (client_find_nodes _ _ _ _ _ _) as [responses|e]; [|now left].
  destruct (for_each _ responses) as [[]|e] eqn:Hval.
  - now exists responses.
  - right. eapply validate_responses_raises, Hval.
Qed.

(** X6. When the database holds an ENR for the peer without an IP
    address or without a UDP port, and no endpoint is given, [find_nodes]
    and [talk] raise [MissingEndpointFields] before any call to the
    client, and the network object is as before. *)
Theorem no_endpoint_in_stored_enr (depth : nat) (node_id : NodeID)
    (distances : list N) (protocol payload : bytes)
    (request_id : option bytes) (net : Network) (stored : ENR) :
  enr_db net !! node_id = Some stored ->
  ip stored = None \/ udp stored = None ->
  distances ≠ [] ->
  find_nodes depth node_id distances None request_id net
    = (Raise MissingEndpointFields, net)
  /\ talk depth node_id protocol payload None request_id net
     = (Raise MissingEndpointFields, net).
Proof.
  intros Hdb Hmissing Hne.
  assert (Hfrom : from_enr stored = Raise MissingEndpointFields).
  { unfold from_enr. destruct Hmissing as [-> | ->]; [reflexivity|].
    now destruct (ip stored). }
  assert (Hres : resolve_endpoint (default_lookup depth) node_id None net
                 = (Raise MissingEndpointFields, net)).
  { simpl. unfold endpoint_for_node_id_with, get_enr.
    now rewrite Hdb, Hfrom. }
  split.
  - unfold Net.find_nodes.
    rewrite (find_nodes_with_unresolved _ _ _ _ _ _ _ _ Hres).
    now rewrite !decide_False.
  - unfold Net.talk, talk_with, bind. now rewrite Hres.
Qed.

(** X7. The streaming variant does not check the distances: once the
    endpoint is known it delivers every ENR of every response of the
    client.  On the same responses with an ENR at none of the requested
    distances, [find_nodes] raises [ValidationError]. *)
Theorem stream_find_nodes_unvalidated (depth : nat) (node_id : NodeID)
    (distances : list N) (endpoint : option Endpoint)
    (request_id : option bytes) (net net1 : Network) (ep : Endpoint)
    (responses : list (list ENR)) :
  distances ≠ [] ->
  resolve_endpoint (default_lookup depth) node_id endpoint net
    = (Ok ep, net1) ->
  client_stream_find_nodes client (calls net1) node_id ep distances
    request_id = Ok responses ->
  stream_find_nodes depth node_id endpoint distances request_id net
  = (Ok (concat responses),
     with_call (CallStreamFindNodes node_id ep distances request_id) net1)
  /\ (client_find_nodes client (calls net1) node_id ep distances request_id
        = Ok responses ->
      ~ Forall (at_requested_distance node_id distances) (concat responses) ->
      (find_nodes depth node_id distances endpoint request_id net).1
      = Raise ValidationError).
Proof.
  intros Hne Hres Hstream. split.
  - unfold Net.stream_find_nodes, common_network_stream_find_nodes_with.
    rewrite decide_False by exact Hne.
    unfold bind. rewrite Hres. unfold call_stream_find_nodes.
    now rewrite Hstream.
  - intros Hfind Hbad. unfold Net.find_nodes.
    rewrite (find_nodes_with_resolved client _ _ _ _ _ _ _ _ Hne Hres), Hfind.
    simpl. destruct (for_each _ responses) as [[]|e] eqn:Hval.
    + apply (validate_responses_ok recursive_find_nodes) in Hval.
      contradiction.
    + now apply validate_responses_raises in Hval as ->.
Qed.

End WithClient.

Lemma find_nodes_one_call_witness :
  (Net.find_nodes demo_client demo_recursive_find_nodes 1 6 [3]
     (Some (ep 30306)) None demo_net).2
  = with_call (CallFindNodes 6 (ep 30306) [3] None) demo_net.
Proof.
  apply (find_nodes_one_call demo_client demo_recursive_find_nodes 1 6 [3]
           (ep 30306) None demo_net).
  discriminate.
Defined.

Lemma no_endpoint_in_stored_enr_witness :
  Net.find_nodes demo_client demo_recursive_find_nodes 1 5 [3] None None
    demo_net_without_ip
  = (Raise MissingEndpointFields, demo_net_without_ip).
Proof.
  apply (proj1 (no_endpoint_in_stored_enr demo_client
                  demo_recursive_find_nodes 1 5 [3] [] [] None
                  demo_net_without_ip enr_without_ip
                  ltac:(vm_compute; reflexivity)
                  (or_introl eq_refl) ltac:(discriminate))).
Defined.

Lemma stream_find_nodes_unvalidated_witness :
  Net.stream_find_nodes demo_client demo_recursive_find_nodes 1 5
    (Some (ep 30305)) [2] None demo_net
  = (Ok [enr_of 6 1; enr_of 9 1],
     with_call (CallStreamFindNodes 5 (ep 30305) [2] None) demo_net)
  /\ (Net.find_nodes demo_client demo_recursive_find_nodes 1 5 [2]
        (Some (ep 30305)) None demo_net).1
     = Raise ValidationError.
Proof.
  destruct (stream_find_nodes_unvalidated demo_client
              demo_recursive_find_nodes 1 5 [2] (Some (ep 30305)) None
              demo_net demo_net (ep 30305) [[enr_of 6 1]; [enr_of 9 1]]
              ltac:(discriminate) eq_refl eq_refl) as [Hstream Hfind].
  split; [exact Hstream|]. apply Hfind; [reflexivity|].
  intros Hall. apply (bool_decide_pack _) in Hall.
  vm_compute in Hall. exact Hall.
Defined.

(** *** The records that [_fetch_enr] and [lookup_enr] return *)

Section Fetching.
Variable client : ClientAPI.
Variable recursive_find_nodes : NodeID -> M (list ENR).

Lemma fetch_enr_with_own lk node_id endpoint net enr net' :
  _fetch_enr_with client lk node_id endpoint net = (Ok enr, net') ->
  Net.node_id enr = node_id.
Proof.
  unfold _fetch_enr_with, bind.
  destruct (find_nodes_with client lk node_id [0] endpoint None net)
    as [[enrs|e] net1] eqn:Hfind; [|discriminate].
  apply (find_nodes_with_valid client recursive_find_nodes) in Hfind.
  destruct enrs as [|first others]; [discriminate|].
  rewrite decide_False by discriminate.
  destruct (reduce_enrs_head first others)
    as (fetched & rest & Hred & Hin & _).
  rewrite Hred. unfold ret. intros [= <- _].
  rewrite Forall_forall in Hfind. specialize (Hfind _ Hin).
  symmetry. now apply (log_distance_zero recursive_find_nodes).
Qed.

(** X8. Whatever [_fetch_enr] returns is a record of the peer it asked:
    its node id is the one given.  When the peer answers the request for
    distance 0 with no ENR at all, [_fetch_enr] raises
    [EmptyFindNodesResponse]. *)
Theorem fetch_enr_own_record (depth : nat) (node_id : NodeID)
    (endpoint : option Endpoint) (net : Network) :
  (forall enr net',
      Net._fetch_enr client recursive_find_nodes depth node_id endpoint net
        = (Ok enr, net') ->
      Net.node_id enr = node_id)
  /\ (forall ep net1 responses,
        resolve_endpoint
          (fun id => Net.lookup_enr client recursive_find_nodes depth id 0 None)
          node_id endpoint net = (Ok ep, net1) ->
        client_find_nodes client (calls net1) node_id ep [0] None
          = Ok responses ->
        concat responses = [] ->
        Net._fetch_enr client recursive_find_nodes depth node_id endpoint net
        = (Raise EmptyFindNodesResponse,
           with_call (CallFindNodes node_id ep [0] None) net1)).
Proof.
  split.
  - intros enr net'. apply fetch_enr_with_own.
  - intros ep net1 responses Hres Hresp Hnil.
    unfold Net._fetch_enr, _fetch_enr_with, bind.
    rewrite (find_nodes_with_resolved client _ node_id [0] endpoint None net
               ep net1) by (discriminate || assumption).
    rewrite Hresp.
    assert (Hval : for_each
                     (fun enrs =>
                        validate_found_nodes_distances enrs node_id [0])
                     responses = Ok tt).
    { apply (validate_responses_ok recursive_find_nodes).
      rewrite Hnil. constructor. }
    now rewrite Hval, Hnil.
Qed.

Lemma fetch_and_store_newer (fetch : M ENR) net enr net' :
  fetch_and_store fetch net = (Ok enr, net') ->
  (exists net1, fetch net = (Ok enr, net1))
  /\ exists stored,
       enr_db net' !! Net.node_id enr = Some stored
       /\ sequence_number enr <= sequence_number stored.
Proof.
  unfold fetch_and_store, bind.
  destruct (fetch net) as [[fetched|e] net1]; [|discriminate].
  rewrite set_enr_ignoring_old_eq. unfold ret.
  intros [= <- <-]. split; [eauto|]. simpl. unfold stored_unless_older.
  destruct (enr_db net1 !! Net.node_id fetched) as [stored|] eqn:Hdb.
  - destruct (N.ltb_spec (sequence_number fetched) (sequence_number stored)).
    + exists stored. split; [exact Hdb|lia].
    + exists fetched. rewrite lookup_insert_eq. split; [reflexivity|lia].
  - exists fetched. rewrite lookup_insert_eq. split; [reflexivity|lia].
Qed.

Lemma lookup_enr_own (depth : nat) (node_id : NodeID) (enr_seq : N)
    (endpoint : option Endpoint) (net net' : Network) (enr : ENR) :
  (forall id stored, enr_db net !! id = Some stored ->
                     Net.node_id stored = id) ->
  Net.lookup_enr client recursive_find_nodes depth node_id enr_seq
    endpoint net = (Ok enr, net') ->
  node_id ≠ local_node_id net
  /\ Net.node_id enr = node_id
  /\ exists stored,
       enr_db net' !! node_id = Some stored
       /\ sequence_number enr <= sequence_number stored.
Proof.
  intros Hkeyed. destruct depth as [|depth]; [discriminate|]. simpl.
  assert (Hfetch : forall lk ep net1,
             fetch_and_store (_fetch_enr_with client lk node_id ep) net1
               = (Ok enr, net') ->
             Net.node_id enr = node_id
             /\ exists stored,
                  enr_db net' !! node_id = Some stored
                  /\ sequence_number enr <= sequence_number stored).
  { intros lk ep net1 Hfs.
    apply fetch_and_store_newer in Hfs as [[net2 Hf] Hstored].
    apply fetch_enr_with_own in Hf. split; [exact Hf|].
    destruct Hstored as (stored & Hs & Hle). exists stored.
    split; [congruence|exact Hle]. }
  destruct (decide (node_id = local_node_id net)) as [|Hne]; [discriminate|].
  intros Hlookup. split; [exact Hne|]. revert Hlookup.
  unfold get_enr.
  destruct (enr_db net !! node_id) as [cached|] eqn:Hdb.
  - destruct (enr_seq <=? sequence_number cached); [|apply Hfetch].
    intros [= <- <-]. split; [now apply Hkeyed|].
    exists cached. split; [exact Hdb|lia].
  - destruct endpoint as [ep|]; [apply Hfetch|].
    unfold bind at 1.
    destruct (recursive_find_nodes node_id net) as [[found|e] net1];
      [|discriminate].
    destruct (List.find _ found) as [found_enr|]; [|discriminate].
    unfold bind at 1, lift.
    destruct (from_enr found_enr) as [ep|e]; [|discriminate].
    apply Hfetch.
Qed.

(** X9. In a database that keeps each record under its node id, the ENR
    that [lookup_enr] returns is a record of the node id asked for, and
    the database then holds a record for that node id with a sequence
    number at least as high. *)
Theorem lookup_enr_own_record (depth : nat) (node_id : NodeID) (enr_seq : N)
    (endpoint : option Endpoint) (net net' : Network) (enr : ENR) :
  (forall id stored, enr_db net !! id = Some stored ->
                     Net.node_id stored = id) ->
  Net.lookup_enr client recursive_find_nodes (S depth) node_id enr_seq
    endpoint net = (Ok enr, net') ->
  Net.node_id enr = node_id
  /\ exists stored,
       enr_db net' !! node_id = Some stored
       /\ sequence_number enr <= sequence_number stored.
Proof.
  intros Hkeyed Hlookup.
  exact (proj2 (lookup_enr_own _ _ _ _ _ _ _ Hkeyed Hlookup)).
Qed.

End Fetching.

Lemma fetch_enr_own_record_witness :
  Net.node_id (enr_of 5 2) = 5
  /\ Net._fetch_enr empty_client demo_recursive_find_nodes 1 9
       (Some (ep 30309)) demo_net
     = (Raise EmptyFindNodesResponse,
        with_call (CallFindNodes 9 (ep 30309) [0] None) demo_net).
Proof.
  split.
  - apply (proj1 (fetch_enr_own_record demo_client demo_recursive_find_nodes
                    1 5 (Some (ep 30305)) demo_net)
             (enr_of 5 2)
             (with_call (CallFindNodes 5 (ep 30305) [0] None) demo_net)).
    vm_compute. reflexivity.
  - apply (proj2 (fetch_enr_own_record empty_client demo_recursive_find_nodes
                    1 9 (Some (ep 30309)) demo_net)
             (ep 30309) demo_net [[]]); reflexivity.
Defined.

Lemma lookup_enr_own_record_witness :
  Net.node_id (enr_of 5 2) = 5
  /\ exists stored,
       enr_db (with_enr_db
                 (stored_unless_older (enr_of 5 2) (enr_db demo_net))
                 (with_call (CallFindNodes 5 (ep 30305) [0] None) demo_net))
         !! 5 = Some stored
       /\ sequence_number (enr_of 5 2) <= sequence_number stored.
Proof.
  apply (lookup_enr_own_record demo_client demo_recursive_find_nodes 0 5 2
           None demo_net).
  - change (map_Forall (fun id stored => Net.node_id stored = id)
                       (enr_db demo_net)).
    refine (bool_decide_unpack _ _). vm_compute. exact I.
  - vm_compute. reflexivity.
Defined.

End NetMoreFacts.


(** * Further properties of the recursive find-nodes engine *)

Module EngineMoreFacts.
Import Net Engine NetDemo EngineDemo NetFacts EngineFacts.

(** *** What each step does to the sets *)

Lemma batch_excludes st n :
  n ∈ get_unqueried_node_ids st ->
  (n ∉ unresponsive_node_ids st)
  /\ (n ∉ queried_node_ids st) /\ (n ∉ in_flight st).
Proof.
  unfold get_unqueried_node_ids. intros Hn.
  pose proof (elem_of_sublist _ _ _ Hn (sublist_take _ _)) as Hn'.
  apply list_elem_of_filter in Hn' as [Hfree Hn''].
  pose proof (elem_of_sublist _ _ _ Hn'' (sublist_take _ _)) as Hn3.
  apply list_elem_of_filter in Hn3 as [Hresp _]. tauto.
Qed.

Lemma send_known_sets node_ids st :
  queried_node_ids (send_known node_ids st).2 = queried_node_ids st
  /\ in_flight (send_known node_ids st).2 = in_flight st
  /\ received_node_ids st ⊆ received_node_ids (send_known node_ids st).2
  /\ (exists more, sent (send_known node_ids st).2 = sent st ++ more)
  /\ (is_ok (send_known node_ids st).1 = true ->
      forall n, n ∈ node_ids -> n ∈ received_node_ids (send_known node_ids st).2).
Proof.
  revert st. induction node_ids as [|node_id rest IH]; intros st; simpl.
  - split; [reflexivity|]. split; [reflexivity|]. split; [reflexivity|].
    split; [exists []; now rewrite app_nil_r|].
    intros _ n Hn. now apply not_elem_of_nil in Hn.
  - destruct (decide (node_id ∉ received_node_ids st)) as [Hnew|Hold].
    + destruct (get_enr node_id (network st)) as [[enr|e] net'].
      * match goal with
        | |- context [send_known rest ?s] =>
            destruct (IH s) as (Hq & Hf & Hr & [more Hs] & Hall)
        end.
        rewrite Hq, Hf, Hs. simpl in *.
        split; [reflexivity|]. split; [reflexivity|].
        split; [etrans; [|exact Hr]; set_tauto|].
        split; [exists ([enr] ++ more); now rewrite app_assoc|].
        intros Hok n Hn. apply elem_of_cons in Hn as [->|Hn].
        -- apply Hr. set_tauto.
        -- now apply Hall.
      * simpl. split; [reflexivity|]. split; [reflexivity|].
        split; [reflexivity|].
        split; [exists []; now rewrite app_nil_r|]. discriminate.
    + destruct (IH st) as (Hq & Hf & Hr & Hs & Hall).
      split; [exact Hq|]. split; [exact Hf|]. split; [exact Hr|].
      split; [exact Hs|].
      intros Hok n Hn. apply elem_of_cons in Hn as [->|Hn].
      * apply Hr. destruct (decide (node_id ∈ received_node_ids st)); tauto.
      * now apply Hall.
Qed.

Lemma worker_pick_sets st :
  queried_node_ids (worker_pick st).2
    = queried_node_ids st ∪ list_to_set (get_unqueried_node_ids st)
  /\ in_flight (worker_pick st).2
     = in_flight st ∪ list_to_set (get_unqueried_node_ids st)
  /\ received_node_ids st ⊆ received_node_ids (worker_pick st).2
  /\ (exists more, sent (worker_pick st).2 = sent st ++ more)
  /\ (forall batch,
        (worker_pick st).1 = Ok batch ->
        batch = get_unqueried_node_ids st
        /\ forall n, n ∈ batch -> n ∈ received_node_ids (worker_pick st).2).
Proof.
  unfold worker_pick.
  destruct (decide (get_unqueried_node_ids st = [])) as [Hnil|Hne].
  - rewrite Hnil. simpl.
    split; [set_tauto|]. split; [set_tauto|]. split; [reflexivity|].
    split; [exists []; now rewrite app_nil_r|].
    intros batch [= <-]. split; [reflexivity|].
    intros n Hn. now apply not_elem_of_nil in Hn.
  - match goal with
    | |- context [send_known ?ids ?s] =>
        destruct (send_known_sets ids s) as (Hq & Hf & Hr & Hs & Hall);
        destruct (send_known ids s) as [[[]|e] st'] eqn:Hsend
    end; simpl in *; rewrite ?Hq, ?Hf;
      (split; [reflexivity|]); (split; [reflexivity|]);
      (split; [exact Hr|]); (split; [exact Hs|]).
    + intros batch [= <-]. split; [reflexivity|]. now apply Hall.
    + discriminate.
Qed.

(** X10. When a worker has taken a batch, the node ids of the batch
    are queried, in flight and received; and the release of the batch
    puts the in-flight set back to what it was before the batch was
    taken. *)
Theorem pick_then_release st batch :
  (worker_pick st).1 = Ok batch ->
  (forall n, n ∈ batch ->
     n ∈ queried_node_ids (worker_pick st).2
     /\ n ∈ in_flight (worker_pick st).2
     /\ n ∈ received_node_ids (worker_pick st).2)
  /\ in_flight (worker_release batch (worker_pick st).2) = in_flight st.
Proof.
  intros Hpick.
  destruct (worker_pick_sets st) as (Hq & Hf & _ & _ & Hbatch).
  destruct (Hbatch _ Hpick) as [Heq Hrec]. split.
  - intros n Hn. rewrite Hq, Hf, <- Heq.
    split; [apply elem_of_union_r; now apply elem_of_list_to_set|].
    split; [apply elem_of_union_r; now apply elem_of_list_to_set|].
    now apply Hrec.
  - unfold worker_release. simpl. rewrite Hf, <- Heq.
    assert (Hfree : forall n, n ∈ batch -> n ∉ in_flight st)
      by (intros n Hn; rewrite Heq in Hn;
          now apply batch_excludes in Hn as (_ & _ & Hn)).
    apply set_eq. intros n. rewrite elem_of_difference, elem_of_union.
    rewrite elem_of_list_to_set. specialize (Hfree n). tauto.
Qed.

(** *** Storing what a peer returned *)

Lemma stored_unless_older_grows enr db id stored :
  db !! id = Some stored ->
  exists stored',
    stored_unless_older enr db !! id = Some stored'
    /\ sequence_number stored <= sequence_number stored'.
Proof.
  intros Hid. unfold stored_unless_older.
  destruct (decide (node_id enr = id)) as [Heq|Hne].
  - rewrite Heq, Hid.
    destruct (sequence_number enr <? sequence_number stored) eqn:Hlt.
    + exists stored. split; [exact Hid|]. apply N.le_refl.
    + exists enr. rewrite lookup_insert_eq. split; [reflexivity|].
      now apply N.ltb_ge in Hlt.
  - exists stored. split; [|apply N.le_refl].
    destruct (db !! node_id enr) as [other|];
      [destruct (sequence_number enr <? sequence_number other)|];
      try exact Hid; now rewrite lookup_insert_ne.
Qed.

Lemma stored_unless_older_stores enr db :
  exists stored,
    stored_unless_older enr db !! node_id enr = Some stored
    /\ sequence_number enr <= sequence_number stored.
Proof.
  unfold stored_unless_older.
  destruct (db !! node_id enr) as [other|] eqn:Hid.
  - destruct (sequence_number enr <? sequence_number other) eqn:Hlt.
    + exists other. split; [exact Hid|].
      apply N.ltb_lt in Hlt. now apply N.lt_le_incl.
    + exists enr. rewrite lookup_insert_eq. split; [reflexivity|].
      apply N.le_refl.
  - exists enr. rewrite lookup_insert_eq. split; [reflexivity|].
    apply N.le_refl.
Qed.

Lemma store_enrs_newest found net :
  (forall enr, enr ∈ found ->
     exists stored,
       enr_db (store_enrs found net) !! node_id enr = Some stored
       /\ sequence_number enr <= sequence_number stored)
  /\ (forall id stored, enr_db net !! id = Some stored ->
       exists stored',
         enr_db (store_enrs found net) !! id = Some stored'
         /\ sequence_number stored <= sequence_number stored')
  /\ calls (store_enrs found net) = calls net
  /\ routing_table (store_enrs found net) = routing_table net
  /\ local_node_id (store_enrs found net) = local_node_id net.
Proof.
  revert net. induction found as [|enr rest IH]; intros net; simpl.
  - split; [intros enr Hin; now apply not_elem_of_nil in Hin|].
    split; [|tauto].
    intros id stored Hid. exists stored. split; [exact Hid|apply N.le_refl].
  - rewrite set_enr_ignoring_old_eq. simpl.
    match goal with
    | |- context [store_enrs rest ?n] =>
        destruct (IH n) as (Hall & Hkeep & Hcalls & Hrt & Hid)
    end.
    simpl in Hkeep, Hcalls, Hrt, Hid.
    split; [|split; [|tauto]].
    + intros enr' Hin. apply elem_of_cons in Hin as [->|Hin];
        [|now apply Hall].
      destruct (stored_unless_older_stores enr (enr_db net))
        as (stored & Hs & Hle).
      destruct (Hkeep _ _ Hs) as (stored' & Hs' & Hle').
      exists stored'. split; [exact Hs'|].
      now apply N.le_trans with (sequence_number stored).
    + intros id stored Hs.
      destruct (stored_unless_older_grows enr _ _ _ Hs)
        as (stored1 & Hs1 & Hle1).
      destruct (Hkeep _ _ Hs1) as (stored' & Hs' & Hle').
      exists stored'. split; [exact Hs'|].
      now apply N.le_trans with (sequence_number stored1).
Qed.

(** X11. The loop that stores the returned ENRs raises nothing and
    touches the database only: afterwards every returned ENR is stored
    or a record of its node id with a sequence number at least as high
    is, and no stored node id is lost or gets a lower sequence number,
    also when the response names one node id several times. *)
Theorem store_enrs_keeps_newest found net :
  (forall enr, enr ∈ found ->
     exists stored,
       enr_db (store_enrs found net) !! node_id enr = Some stored
       /\ sequence_number enr <= sequence_number stored)
  /\ (forall id stored, enr_db net !! id = Some stored ->
       exists stored',
         enr_db (store_enrs found net) !! id = Some stored'
         /\ sequence_number stored <= sequence_number stored')
  /\ calls (store_enrs found net) = calls net
  /\ routing_table (store_enrs found net) = routing_table net
  /\ local_node_id (store_enrs found net) = local_node_id net.
Proof. apply store_enrs_newest. Qed.

Section WithClient.
Variable client : ClientAPI.
Variable recursive_find_nodes : NodeID -> M (list ENR).
Variable depth : nat.

Abbreviation do_lookup := (Engine.do_lookup client recursive_find_nodes depth).
Abbreviation step := (Engine.step client recursive_find_nodes depth).
Abbreviation run := (Engine.run client recursive_find_nodes depth).
Abbreviation lookup_outcome node_id st :=
  (find_nodes client recursive_find_nodes depth node_id
     [lookup_distance node_id st] None None (network st)).

Lemma do_lookup_sets now node_id st :
  queried_node_ids (do_lookup now node_id st).2 = queried_node_ids st
  /\ in_flight (do_lookup now node_id st).2 = in_flight st
  /\ received_node_ids st ⊆ received_node_ids (do_lookup now node_id st).2
  /\ unresponsive_node_ids st
     ⊆ unresponsive_node_ids (do_lookup now node_id st).2
  /\ (exists more, sent (do_lookup now node_id st).2 = sent st ++ more).
Proof.
  unfold Engine.do_lookup.
  destruct (find_nodes _ _ _ _ _ _ _ _) as [[found|e] net'].
  - simpl. split; [reflexivity|]. split; [reflexivity|].
    split; [set_tauto|]. split; [reflexivity|]. eauto.
  - assert (Hnil : exists more : list ENR, sent st = sent st ++ more)
      by (exists []; now rewrite app_nil_r).
    destruct e; simpl; repeat split; try reflexivity; try exact Hnil;
      set_tauto.
Qed.

(** Every step keeps what was queried, received, sent or deemed
    unresponsive, and keeps the peers in flight among the queried. *)
Lemma step_sets st l st' :
  step st l st' ->
  queried_node_ids st ⊆ queried_node_ids st'
  /\ unresponsive_node_ids st ⊆ unresponsive_node_ids st'
  /\ received_node_ids st ⊆ received_node_ids st'
  /\ (exists more, sent st' = sent st ++ more)
  /\ (in_flight st ⊆ queried_node_ids st ->
      in_flight st' ⊆ queried_node_ids st').
Proof.
  intros Hstep. inversion Hstep as [st1|st1 now node_id|st1 node_ids]; subst.
  - destruct (worker_pick_sets st) as (Hq & Hf & Hr & Hs & _).
    destruct (worker_pick_unresponsive st) as [Hu _].
    rewrite Hq, Hf, Hu. split; [set_tauto|]. split; [reflexivity|].
    split; [exact Hr|]. split; [exact Hs|].
    intros Hin n Hn. apply elem_of_union in Hn as [Hn|Hn];
      apply elem_of_union; [left; now apply Hin|now right].
  - destruct (do_lookup_sets now node_id st) as (Hq & Hf & Hr & Hu & Hs).
    rewrite Hq, Hf. split; [reflexivity|]. split; [exact Hu|].
    split; [exact Hr|]. split; [exact Hs|]. tauto.
  - simpl. split; [reflexivity|]. split; [reflexivity|].
    split; [reflexivity|]. split; [exists []; now rewrite app_nil_r|].
    intros Hin n Hn. apply Hin. apply elem_of_difference in Hn. tauto.
Qed.

(** X12. A lookup whose FINDNODE succeeds ends normally.  It stores
    every returned ENR (or keeps a record of that node id that is at
    least as new), hands to the consumer the returned ENRs whose node
    ids had not been received, in the order of the response, ends with
    every returned node id received, and marks no peer unresponsive,
    neither in the set nor in the shared cache. *)
Theorem do_lookup_found now node_id st found :
  (lookup_outcome node_id st).1 = Ok found ->
  (do_lookup now node_id st).1 = Ok tt
  /\ (forall enr, enr ∈ found ->
       exists stored,
         enr_db (network (do_lookup now node_id st).2) !! Net.node_id enr
           = Some stored
         /\ sequence_number enr <= sequence_number stored)
  /\ sent (do_lookup now node_id st).2
     = sent st
       ++ filter (fun enr => Net.node_id enr ∉ received_node_ids st) found
  /\ received_node_ids (do_lookup now node_id st).2
     = received_node_ids st ∪ list_to_set (Net.node_id <$> found)
  /\ unresponsive_node_ids (do_lookup now node_id st).2
     = unresponsive_node_ids st
  /\ unresponsive_cache (do_lookup now node_id st).2 = unresponsive_cache st.
Proof.
  unfold Engine.do_lookup, lookup_distance.
  destruct (find_nodes _ _ _ _ _ _ _ _) as [[found'|e] net'];
    [|discriminate].
  intros [= ->]. simpl. split; [reflexivity|].
  split; [apply store_enrs_newest|].
  split; [reflexivity|]. split; [|tauto].
  apply set_eq. intros n.
  rewrite !elem_of_union, !elem_of_list_to_set, !list_elem_of_fmap.
  split.
  - intros [Hn|(enr & -> & Hin)]; [tauto|].
    apply list_elem_of_filter in Hin as [_ Hin]. right. eauto.
  - intros [Hn|(enr & -> & Hin)]; [tauto|].
    destruct (decide (Net.node_id enr ∈ received_node_ids st)) as [Hold|Hnew];
      [tauto|].
    right. exists enr. split; [reflexivity|].
    apply list_elem_of_filter. tauto.
Qed.

Lemma run_sets st trace st' :
  run st trace st' ->
  queried_node_ids st ⊆ queried_node_ids st'
  /\ unresponsive_node_ids st ⊆ unresponsive_node_ids st'
  /\ received_node_ids st ⊆ received_node_ids st'
  /\ (exists more, sent st' = sent st ++ more)
  /\ (in_flight st ⊆ queried_node_ids st ->
      in_flight st' ⊆ queried_node_ids st').
Proof.
  induction 1 as [st|st trace st1 l st2 _ IH Hstep].
  - split; [reflexivity|]. split; [reflexivity|]. split; [reflexivity|].
    split; [exists []; now rewrite app_nil_r|]. tauto.
  - destruct IH as (Hq & Hu & Hr & [more Hs] & Hf).
    destruct (step_sets _ _ _ Hstep) as (Hq' & Hu' & Hr' & [more' Hs'] & Hf').
    split; [etrans; eassumption|]. split; [etrans; eassumption|].
    split; [etrans; eassumption|].
    split; [exists (more ++ more'); now rewrite Hs', Hs, app_assoc|]. tauto.
Qed.

(** X13. Whatever the workers do and in whatever order, nothing is
    ever taken out of the queried, the unresponsive or the received node
    ids, what was handed to the consumer stays handed over, later steps
    only appending to it, and the node ids in flight stay among the
    queried ones; so they are at every point of an invocation, which
    starts with neither. *)
Theorem lookup_state_only_grows st trace st' :
  run st trace st' ->
  queried_node_ids st ⊆ queried_node_ids st'
  /\ unresponsive_node_ids st ⊆ unresponsive_node_ids st'
  /\ received_node_ids st ⊆ received_node_ids st'
  /\ sent st `prefix_of` sent st'
  /\ (in_flight st ⊆ queried_node_ids st ->
      in_flight st' ⊆ queried_node_ids st').
Proof.
  intros Hrun.
  destruct (run_sets _ _ _ Hrun) as (Hq & Hu & Hr & Hs & Hf).
  split; [exact Hq|]. split; [exact Hu|]. split; [exact Hr|].
  split; [exact Hs|exact Hf].
Qed.

(** X14. No node is picked twice: the node ids of a batch that a
    worker took are in no batch that is computed afterwards, whatever
    happened in between, also after the batch's release. *)
Theorem picked_once st batch trace st' :
  (worker_pick st).1 = Ok batch ->
  run (worker_pick st).2 trace st' ->
  forall n, n ∈ batch -> n ∉ get_unqueried_node_ids st'.
Proof.
  intros Hpick Hrun n Hn Hagain.
  destruct (worker_pick_sets st) as (Hq & _ & _ & _ & Hbatch).
  destruct (Hbatch _ Hpick) as [-> _].
  destruct (run_sets _ _ _ Hrun) as (Hq' & _).
  apply batch_excludes in Hagain as (_ & Hnot & _). apply Hnot, Hq'.
  rewrite Hq. apply elem_of_union_r. now apply elem_of_list_to_set.
Qed.

Lemma unresponsive_not_picked st trace st' n :
  run st trace st' ->
  n ∈ unresponsive_node_ids st -> n ∉ get_unqueried_node_ids st'.
Proof.
  intros Hrun Hn Hbatch.
  destruct (run_sets _ _ _ Hrun) as (_ & Hu & _).
  apply batch_excludes in Hbatch as (Hnot & _). apply Hnot, Hu, Hn.
Qed.

(** X15. An invocation never queries the local node, nor a peer that
    the shared cache holds with an age under 300 seconds when the
    invocation starts: such a node id is never marked as queried and is
    in no batch. *)
Theorem unresponsive_never_queried net target now cache trace st n :
  run (common_recursive_find_nodes net target now cache) trace st ->
  n = local_node_id net ∨ n ∈ recently_unresponsive now cache ->
  (n ∉ queried_node_ids st) /\ (n ∉ get_unqueried_node_ids st).
Proof.
  intros Hrun Hn.
  assert (Hun : n ∈ unresponsive_node_ids
                     (common_recursive_find_nodes net target now cache)).
  { simpl. destruct Hn as [->|Hn].
    - apply elem_of_union_l. now apply elem_of_singleton.
    - apply elem_of_union_r. now apply elem_of_list_to_set. }
  split; [|exact (unresponsive_not_picked _ _ _ _ Hrun Hun)].
  clear Hn. remember (common_recursive_find_nodes net target now cache)
    as st0 eqn:Hst0.
  induction Hrun as [st|st trace st1 l st2 Hrun IH Hstep].
  - subst st. simpl. apply not_elem_of_empty.
  - specialize (IH Hst0 Hun).
    pose proof (unresponsive_not_picked _ _ _ _ Hrun Hun) as Hbatch.
    inversion Hstep as [st3|st3 now' node_id|st3 node_ids]; subst.
    + destruct (worker_pick_sets st1) as (Hq & _). rewrite Hq.
      intros Hin. apply elem_of_union in Hin as [Hin|Hin]; [tauto|].
      now apply elem_of_list_to_set in Hin.
    + destruct (do_lookup_sets now' node_id st1) as (Hq & _).
      now rewrite Hq.
    + exact IH.
Qed.

End WithClient.

(** *** Witnesses *)

Abbreviation demo_run := (Engine.run demo_client demo_recursive_find_nodes 1).

Lemma demo_pick_run :
  demo_run demo_lookup ([] ++ [LPick (worker_pick demo_lookup).1])
    (worker_pick demo_lookup).2.
Proof. eapply run_snoc; [apply run_nil|apply step_pick]. Qed.

Lemma lookup_state_only_grows_witness :
  sent demo_lookup `prefix_of` sent (worker_pick demo_lookup).2
  /\ in_flight (worker_pick demo_lookup).2
     ⊆ queried_node_ids (worker_pick demo_lookup).2.
Proof.
  destruct (lookup_state_only_grows demo_client demo_recursive_find_nodes 1
              _ _ _ demo_pick_run) as (_ & _ & _ & Hsent & Hflight).
  split; [exact Hsent|]. apply Hflight. reflexivity.
Defined.

Lemma unresponsive_never_queried_witness :
  (10 ∉ queried_node_ids (worker_pick demo_lookup).2)
  /\ (10 ∉ get_unqueried_node_ids (worker_pick demo_lookup).2).
Proof.
  apply (unresponsive_never_queried demo_client demo_recursive_find_nodes 1
           demo_net 4 600%Q demo_cache _ _ 10 demo_pick_run).
  right. refine (bool_decide_unpack _ _). vm_compute. exact I.
Defined.

Lemma do_lookup_found_witness :
  sent (Engine.do_lookup demo_client demo_recursive_find_nodes 1 620%Q 5
          demo_lookup_self).2
    = sent demo_lookup_self
      ++ filter (fun enr => Net.node_id enr ∉ received_node_ids demo_lookup_self)
           [enr_of 5 2].
Proof.
  apply (do_lookup_found demo_client demo_recursive_find_nodes 1 620%Q 5
           demo_lookup_self [enr_of 5 2]).
  vm_compute. reflexivity.
Defined.

Lemma picked_once_witness :
  (worker_pick demo_lookup).1 = Ok [5; 6; 7]
  /\ 6 ∉ get_unqueried_node_ids
           (worker_release [5; 6; 7] (worker_pick demo_lookup).2).
Proof.
  assert (Hpick : (worker_pick demo_lookup).1 = Ok [5; 6; 7])
    by (vm_compute; reflexivity).
  split; [exact Hpick|].
  apply (picked_once demo_client demo_recursive_find_nodes 1
           demo_lookup [5; 6; 7] ([] ++ [LRelease [5; 6; 7]]) _ Hpick).
  - eapply run_snoc; [apply run_nil|apply step_release].
  - refine (bool_decide_unpack _ _). vm_compute. exact I.
Defined.

Lemma pick_then_release_witness :
  in_flight (worker_release [5; 6; 7] (worker_pick demo_lookup).2)
    = in_flight demo_lookup.
Proof.
  apply (pick_then_release demo_lookup [5; 6; 7]).
  vm_compute. reflexivity.
Defined.

End EngineMoreFacts.


(** * Further properties of the long-running processes *)

Module MaintenanceFacts.
Import Net Engine Maintenance NetDemo MaintenanceDemo NetFacts EngineFacts
  NetMoreFacts EngineMoreFacts.

(** *** Enumerations *)

Lemma enumerate_cons {A} (start : nat) (x : A) (xs : list A) :
  enumerate start (x :: xs) = (start, x) :: enumerate (S start) xs.
Proof.
  unfold enumerate. rewrite imap_cons. f_equal; [f_equal; lia|].
  apply imap_ext. intros i y _. simpl. f_equal. lia.
Qed.

Lemma elem_of_enumerate {A} (start : nat) (xs : list A) (idx : nat) (x : A) :
  (idx, x) ∈ enumerate start xs
  <-> (start <= idx)%nat /\ xs !! (idx - start)%nat = Some x.
Proof.
  unfold enumerate. rewrite elem_of_lookup_imap. split.
  - intros (i & y & [= -> ->] & Hi). split; [lia|].
    now replace (start + i - start)%nat with i by lia.
  - intros [Hle Hx]. exists (idx - start)%nat, x. split; [|exact Hx].
    f_equal. lia.
Qed.

Lemma fst_enumerate {A} (start : nat) (xs : list A) :
  fst <$> enumerate start xs = seq start (length xs).
Proof.
  revert start. induction xs as [|x xs IH]; intros start; [reflexivity|].
  rewrite enumerate_cons. simpl. now rewrite IH.
Qed.

Lemma seq_ascending (start len : nat) : StronglySorted lt (seq start len).
Proof.
  revert start. induction len as [|len IH]; intros start; simpl.
  - constructor.
  - constructor; [apply IH|].
    apply Forall_forall. intros i Hi. apply list_elem_of_In, in_seq in Hi.
    lia.
Qed.

(** *** The report *)

Lemma sum_non_empty (start : nat) (bs : list (list NodeID)) :
  sum_list ((fun item => length item.2)
              <$> filter (fun item => item.2 ≠ []) (enumerate start bs))
  = length (concat bs).
Proof.
  revert start. induction bs as [|bucket bs IH]; intros start;
    [reflexivity|].
  rewrite enumerate_cons, filter_cons. simpl.
  rewrite length_app, <- (IH (S start)).
  destruct (decide (bucket ≠ [])) as [Hne|Hnil]; [reflexivity|].
  destruct bucket; [reflexivity|]. now destruct Hnil.
Qed.

(** X16. The size that the routing-table report gives is the number of
    node ids in the whole table.  The report has one entry for each
    bucket that is not empty, under the bucket's index counted from 1,
    with the highest index first. *)
Theorem report_counts_every_node (rt : KademliaRoutingTable) :
  total_size rt = length (concat (buckets rt))
  /\ (forall idx bucket,
        (idx, bucket) ∈ non_empty_buckets rt
        <-> (1 <= idx)%nat /\ buckets rt !! (idx - 1)%nat = Some bucket
            /\ bucket ≠ [])
  /\ StronglySorted gt (fst <$> bucket_info rt).
Proof.
  split; [|split].
  - unfold total_size, non_empty_buckets.
    rewrite fmap_reverse, sum_list_with_reverse. apply sum_non_empty.
  - intros idx bucket. unfold non_empty_buckets.
    rewrite elem_of_reverse, list_elem_of_filter, elem_of_enumerate.
    simpl. tauto.
  - unfold bucket_info, non_empty_buckets.
    assert (Hfst : forall l : list (nat * list NodeID),
               fst <$> ((fun item =>
                           (item.1,
                            if decide (length item.2 = bucket_size rt)
                            then None else Some (length item.2))) <$> l)
               = fst <$> l)
      by (intros l; induction l as [|x l IH]; [reflexivity|];
          rewrite !fmap_cons, IH; reflexivity).
    rewrite Hfst, fmap_reverse.
    assert (Hsorted : StronglySorted lt
              (fst <$> filter (fun item : nat * list NodeID => item.2 ≠ [])
                              (enumerate 1 (buckets rt)))).
    { apply StronglySorted_sublist with (fst <$> enumerate 1 (buckets rt)).
      - apply fmap_sublist, sublist_filter.
      - rewrite fst_enumerate. apply seq_ascending. }
    revert Hsorted. generalize (fst <$> filter
      (fun item : nat * list NodeID => item.2 ≠ [])
      (enumerate 1 (buckets rt))).
    intros l. induction l as [|x l IH]; intros Hsorted.
    + constructor.
    + rewrite reverse_cons.
      apply StronglySorted_inv in Hsorted as [Hl Hx].
      apply StronglySorted_app_2; [|now apply IH|repeat constructor].
      intros y z Hy Hz. apply (proj1 (elem_of_reverse _ _)) in Hy.
      apply list_elem_of_singleton in Hz as ->.
      rewrite Forall_forall in Hx. specialize (Hx _ Hy). lia.
Qed.

(** *** The buckets to refresh *)

Lemma non_full_distances_spec (rt : KademliaRoutingTable) (d : nat) :
  d ∈ non_full_distances rt
  <-> exists bucket,
        (1 <= d)%nat /\ buckets rt !! (d - 1)%nat = Some bucket
        /\ (length bucket < bucket_size rt)%nat.
Proof.
  unfold non_full_distances. rewrite list_elem_of_fmap. split.
  - intros ([idx bucket] & -> & Hin).
    apply list_elem_of_filter in Hin as [Hlt Hin].
    apply elem_of_enumerate in Hin as [Hle Hb]. simpl in *. eauto.
  - intros (bucket & Hle & Hb & Hlt). exists (d, bucket).
    split; [reflexivity|]. apply list_elem_of_filter. split; [exact Hlt|].
    now apply elem_of_enumerate.
Qed.

Lemma non_full_distances_ascending (rt : KademliaRoutingTable) :
  StronglySorted lt (non_full_distances rt).
Proof.
  unfold non_full_distances.
  apply StronglySorted_sublist with (fst <$> enumerate 1 (buckets rt)).
  - apply fmap_sublist, sublist_filter.
  - rewrite fst_enumerate. apply seq_ascending.
Qed.

(** X17. The distances that a refresh chooses from are the distances,
    counted from 1, of buckets that are not full, in ascending order
    and at most 16 of them; a bucket that is not full is left out only
    when 16 buckets at greater distances are not full either. *)
Theorem non_full_bucket_distances_spec (rt : KademliaRoutingTable) :
  StronglySorted lt (non_full_bucket_distances rt)
  /\ (length (non_full_bucket_distances rt) <= 16)%nat
  /\ (forall d,
        d ∈ non_full_bucket_distances rt ->
        exists bucket,
          (1 <= d)%nat /\ buckets rt !! (d - 1)%nat = Some bucket
          /\ (length bucket < bucket_size rt)%nat)
  /\ (forall d bucket,
        (1 <= d)%nat -> buckets rt !! (d - 1)%nat = Some bucket ->
        (length bucket < bucket_size rt)%nat ->
        d ∉ non_full_bucket_distances rt ->
        length (non_full_bucket_distances rt) = 16%nat
        /\ forall d', d' ∈ non_full_bucket_distances rt -> (d < d')%nat).
Proof.
  pose proof (non_full_distances_ascending rt) as Hsorted.
  unfold non_full_bucket_distances, last_items.
  set (l := non_full_distances rt) in *.
  split; [|split; [|split]].
  - apply StronglySorted_sublist with l; [apply sublist_drop|exact Hsorted].
  - rewrite length_drop. lia.
  - intros d Hd. apply non_full_distances_spec.
    apply (elem_of_sublist _ _ _ Hd (sublist_drop _ _)).
  - intros d bucket Hle Hb Hlt Hout.
    assert (Hd : d ∈ l) by (apply non_full_distances_spec; eauto).
    rewrite <- (take_drop (length l - 16) l) in Hd, Hsorted.
    apply elem_of_app in Hd as [Hd|Hd]; [|tauto].
    assert (Hlong : (16 < length l)%nat).
    { apply elem_of_take in Hd as (i & _ & Hi). lia. }
    split; [rewrite length_drop; lia|].
    intros d' Hd'.
    exact (StronglySorted_app_1_elem_of _ _ _ _ _ Hsorted Hd Hd').
Qed.

(** *** Reads of the cache of pongs *)

Lemma lru_get_filter_ne key key' (cache : LRU) :
  key' ≠ key ->
  lru_get key' (filter (fun item : NodeID * Q => item.1 ≠ key) cache)
  = lru_get key' cache.
Proof.
  intros Hne. unfold lru_get. f_equal.
  induction cache as [|[k v] cache IH]; [reflexivity|].
  rewrite filter_cons. simpl.
  destruct (decide (k ≠ key)) as [Hk|Hk]; simpl.
  - destruct (bool_decide (k = key')); [reflexivity|exact IH].
  - apply dec_stable in Hk. subst k.
    rewrite bool_decide_eq_false_2 by congruence. exact IH.
Qed.

Lemma lru_getitem_value key cache :
  (lru_getitem key cache).1 = lru_get key cache.
Proof. unfold lru_getitem. now destruct (lru_get key cache). Qed.

(** A read moves the key to the front and changes no value. *)
Lemma lru_get_getitem key key' cache :
  lru_get key' (lru_getitem key cache).2 = lru_get key' cache.
Proof.
  unfold lru_getitem. destruct (lru_get key cache) as [value|] eqn:Hget;
    [|reflexivity].
  simpl. destruct (decide (key' = key)) as [->|Hne].
  - unfold lru_get at 1. simpl. rewrite bool_decide_eq_true_2 by reflexivity.
    now rewrite Hget.
  - unfold lru_get at 1. simpl. rewrite bool_decide_eq_false_2 by congruence.
    now apply lru_get_filter_ne.
Qed.

(** The key that [min] compares: the clock reading of the last pong, or
    0 for a node that never ponged. *)
Abbreviation last_pong cache node_id := (default 0%Q (lru_get node_id cache)).

Lemma min_by_last_pong_spec nodes : forall best best_key cache,
  (forall key,
      lru_get key (min_by_last_pong best best_key nodes cache).2
      = lru_get key cache)
  /\ exists least_key,
       (least_key <= best_key)%Q
       /\ (forall node_id, node_id ∈ nodes ->
             (least_key <= last_pong cache node_id)%Q)
       /\ (((min_by_last_pong best best_key nodes cache).1 = best
            /\ least_key = best_key)
           \/ ((min_by_last_pong best best_key nodes cache).1 ∈ nodes
               /\ least_key
                  = last_pong cache
                      (min_by_last_pong best best_key nodes cache).1)).
Proof.
  induction nodes as [|node_id rest IH]; intros best best_key cache; simpl.
  - split; [reflexivity|]. exists best_key. split; [apply Qle_refl|].
    split; [|now left]. intros n Hn. now apply not_elem_of_nil in Hn.
  - rewrite lru_getitem_value.
    assert (Hsame : forall n,
               last_pong (lru_getitem node_id cache).2 n = last_pong cache n)
      by (intros n; now rewrite lru_get_getitem).
    destruct (decide (last_pong cache node_id < best_key)%Q) as [Hlt|Hge].
    + destruct (IH node_id (last_pong cache node_id)
                  (lru_getitem node_id cache).2)
        as (Hget & least_key & Hle & Hall & Hwho).
      split; [intros key; now rewrite Hget, lru_get_getitem|].
      exists least_key. split; [|split].
      * apply Qle_trans with (last_pong cache node_id); [exact Hle|].
        now apply Qlt_le_weak.
      * intros n Hn. apply elem_of_cons in Hn as [->|Hn]; [exact Hle|].
        rewrite <- Hsame. now apply Hall.
      * right. destruct Hwho as [[-> ->]|[Hin ->]].
        -- split; [apply list_elem_of_here|reflexivity].
        -- split; [now apply list_elem_of_further|]. apply Hsame.
    + destruct (IH best best_key (lru_getitem node_id cache).2)
        as (Hget & least_key & Hle & Hall & Hwho).
      split; [intros key; now rewrite Hget, lru_get_getitem|].
      exists least_key. split; [exact Hle|]. split.
      * intros n Hn. apply elem_of_cons in Hn as [->|Hn].
        -- apply Qle_trans with best_key; [exact Hle|].
           now apply Qnot_lt_le.
        -- rewrite <- Hsame. now apply Hall.
      * destruct Hwho as [[-> ->]|[Hin ->]]; [now left|right].
        split; [now apply list_elem_of_further|]. apply Hsame.
Qed.

(** *** What the calls of the high level API leave alone *)

Section Frame.
Variable client : ClientAPI.
Variable recursive_find_nodes : NodeID -> M (list ENR).

(** A property of the network object that survives a call to the
    client, a write to the database and a recursive lookup. *)
Variable P : Network -> Prop.
Hypothesis P_call : forall c net, P net -> P (with_call c net).
Hypothesis P_db :
  forall enr net,
    P net -> P (with_enr_db (stored_unless_older enr (enr_db net)) net).
Hypothesis P_rec :
  forall target net, P net -> P (recursive_find_nodes target net).2.

Lemma keeps_bind {A B} (m : M A) (k : A -> M B) :
  keeps P m -> (forall a, keeps P (k a)) -> keeps P (bind m k).
Proof.
  intros Hm Hk net HP. unfold bind. specialize (Hm net HP).
  destruct (m net) as [[a|e] net']; simpl in *; [now apply Hk|exact Hm].
Qed.

Lemma keeps_ret {A} (a : A) : keeps P (ret a).
Proof. intros net HP. exact HP. Qed.

Lemma keeps_raise {A} (e : exn) : keeps P (raise (A:=A) e).
Proof. intros net HP. exact HP. Qed.

Lemma keeps_lift {A} (r : result A) : keeps P (lift r).
Proof. intros net HP. exact HP. Qed.

Lemma keeps_get_enr node_id : keeps P (get_enr node_id).
Proof.
  intros net HP. unfold get_enr.
  now destruct (enr_db net !! node_id).
Qed.

Lemma keeps_set_enr_ignoring_old enr : keeps P (set_enr_ignoring_old enr).
Proof.
  intros net HP. rewrite set_enr_ignoring_old_eq. now apply P_db.
Qed.

Lemma keeps_resolve_endpoint lk node_id endpoint :
  (forall id, keeps P (lk id)) -> keeps P (resolve_endpoint lk node_id endpoint).
Proof.
  intros Hlk. destruct endpoint as [ep|]; [apply keeps_ret|].
  intros net HP. simpl. unfold endpoint_for_node_id_with, get_enr.
  destruct (enr_db net !! node_id) as [enr|]; [exact HP|].
  apply keeps_bind; [apply Hlk|intros; apply keeps_lift|exact HP].
Qed.

Lemma keeps_find_nodes_with lk node_id distances endpoint request_id :
  (forall id, keeps P (lk id)) ->
  keeps P (find_nodes_with client lk node_id distances endpoint request_id).
Proof.
  intros Hlk. unfold find_nodes_with.
  destruct (decide (distances = [])); [apply keeps_raise|].
  apply keeps_bind; [now apply keeps_resolve_endpoint|]. intros ep.
  apply keeps_bind; [intros net HP; now apply P_call|]. intros responses.
  apply keeps_bind; [apply keeps_lift|]. intros _. apply keeps_ret.
Qed.

Lemma keeps_stream_find_nodes_with lk node_id endpoint distances request_id :
  (forall id, keeps P (lk id)) ->
  keeps P (common_network_stream_find_nodes_with client lk node_id endpoint
           distances request_id).
Proof.
  intros Hlk. unfold common_network_stream_find_nodes_with.
  destruct (decide (distances = [])); [apply keeps_raise|].
  apply keeps_bind; [now apply keeps_resolve_endpoint|]. intros ep.
  apply keeps_bind; [intros net HP; now apply P_call|]. intros responses.
  apply keeps_ret.
Qed.

Lemma keeps_talk_with lk node_id protocol payload endpoint request_id :
  (forall id, keeps P (lk id)) ->
  keeps P (talk_with client lk node_id protocol payload endpoint request_id).
Proof.
  intros Hlk. unfold talk_with.
  apply keeps_bind; [now apply keeps_resolve_endpoint|]. intros ep.
  apply keeps_bind; [intros net HP; now apply P_call|]. intros answer.
  destruct (decide (answer = [])); [apply keeps_raise|apply keeps_ret].
Qed.

Lemma keeps_fetch_enr_with lk node_id endpoint :
  (forall id, keeps P (lk id)) ->
  keeps P (_fetch_enr_with client lk node_id endpoint).
Proof.
  intros Hlk. unfold _fetch_enr_with.
  apply keeps_bind; [now apply keeps_find_nodes_with|]. intros enrs.
  destruct (decide (enrs = [])); [apply keeps_raise|].
  destruct (reduce_enrs enrs); [apply keeps_raise|apply keeps_ret].
Qed.

Lemma keeps_fetch_and_store fetch :
  keeps P fetch -> keeps P (fetch_and_store fetch).
Proof.
  intros Hfetch. unfold fetch_and_store.
  apply keeps_bind; [exact Hfetch|]. intros enr.
  apply keeps_bind; [apply keeps_set_enr_ignoring_old|]. intros _.
  apply keeps_ret.
Qed.

Lemma keeps_lookup_enr depth node_id enr_seq endpoint :
  keeps P (lookup_enr client recursive_find_nodes depth node_id enr_seq
           endpoint).
Proof.
  revert node_id enr_seq endpoint.
  induction depth as [|depth IH]; intros node_id enr_seq endpoint;
    [apply keeps_raise|].
  assert (Hfetch : forall ep,
             keeps P (fetch_and_store
                      (_fetch_enr_with client
                         (fun id =>
                            lookup_enr client recursive_find_nodes depth id 0
                              None) node_id ep)))
    by (intros ep; apply keeps_fetch_and_store, keeps_fetch_enr_with;
        intros id; apply IH).
  intros net HP. simpl.
  destruct (decide (node_id = local_node_id net)); [exact HP|].
  unfold get_enr. destruct (enr_db net !! node_id) as [enr|].
  - destruct (enr_seq <=? sequence_number enr); [exact HP|].
    now apply Hfetch.
  - destruct endpoint as [ep|]; [now apply Hfetch|].
    apply keeps_bind; [intros net' HP'; now apply P_rec| |exact HP].
    intros found.
    destruct (List.find _ found) as [found_enr|]; [|apply keeps_raise].
    apply keeps_bind; [apply keeps_lift|]. intros ep. apply Hfetch.
Qed.

Lemma keeps_endpoint_for_node_id depth node_id :
  keeps P (endpoint_for_node_id client recursive_find_nodes depth node_id).
Proof.
  apply (keeps_resolve_endpoint _ node_id None).
  intros id. apply keeps_lookup_enr.
Qed.

Lemma keeps_find_nodes depth node_id distances endpoint request_id :
  keeps P (find_nodes client recursive_find_nodes depth node_id distances
             endpoint request_id).
Proof. apply keeps_find_nodes_with. intros id. apply keeps_lookup_enr. Qed.

Lemma keeps_stream_find_nodes depth node_id endpoint distances request_id :
  keeps P (stream_find_nodes client recursive_find_nodes depth node_id
             endpoint distances request_id).
Proof.
  apply keeps_stream_find_nodes_with. intros id. apply keeps_lookup_enr.
Qed.

Lemma keeps_talk depth node_id protocol payload endpoint request_id :
  keeps P (talk client recursive_find_nodes depth node_id protocol payload
             endpoint request_id).
Proof. apply keeps_talk_with. intros id. apply keeps_lookup_enr. Qed.

End Frame.

(** **** The configuration *)

Lemma same_configuration_call net0 c net :
  same_configuration net0 net -> same_configuration net0 (with_call c net).
Proof. unfold same_configuration. simpl. tauto. Qed.

Lemma same_configuration_db net0 db net :
  same_configuration net0 net -> same_configuration net0 (with_enr_db db net).
Proof. unfold same_configuration. simpl. tauto. Qed.

Lemma same_configuration_trans net0 net1 net2 :
  same_configuration net0 net1 -> same_configuration net1 net2 ->
  same_configuration net0 net2.
Proof.
  unfold same_configuration.
  intros (-> & -> & -> & ->) (-> & -> & -> & ->). tauto.
Qed.

(** **** The database *)

Lemma at_least_as_new_refl db : at_least_as_new db db.
Proof.
  intros id stored Hid. exists stored. split; [exact Hid|apply N.le_refl].
Qed.

Lemma at_least_as_new_trans db0 db1 db2 :
  at_least_as_new db0 db1 -> at_least_as_new db1 db2 ->
  at_least_as_new db0 db2.
Proof.
  intros H01 H12 id stored Hid.
  destruct (H01 _ _ Hid) as (stored1 & Hid1 & Hle1).
  destruct (H12 _ _ Hid1) as (stored2 & Hid2 & Hle2).
  exists stored2. split; [exact Hid2|].
  now apply N.le_trans with (sequence_number stored1).
Qed.

Lemma at_least_as_new_stored enr db :
  at_least_as_new db (stored_unless_older enr db).
Proof. intros id stored. apply stored_unless_older_grows. Qed.

Lemma keyed_stored enr db : keyed db -> keyed (stored_unless_older enr db).
Proof.
  intros Hkeyed. unfold stored_unless_older.
  destruct (db !! node_id enr) as [stored|];
    [destruct (sequence_number enr <? sequence_number stored)|];
    try exact Hkeyed; now apply map_Forall_insert_2.
Qed.

Section Api.
Variable client : ClientAPI.
Variable recursive_find_nodes : NodeID -> M (list ENR).
Variable depth : nat.

Abbreviation lookup_enr := (Net.lookup_enr client recursive_find_nodes depth).
Abbreviation find_nodes := (Net.find_nodes client recursive_find_nodes depth).
Abbreviation stream_find_nodes :=
  (Net.stream_find_nodes client recursive_find_nodes depth).
Abbreviation talk := (Net.talk client recursive_find_nodes depth).

(** X18. As long as the recursive engine leaves them alone, no call of
    [lookup_enr], [find_nodes], [stream_find_nodes] or [talk] changes the
    routing table, the local node id, the local ENR or the registered
    talk protocols, whatever the peers answer and also when the call
    raises. *)
Theorem api_keeps_configuration (net : Network) (node_id : NodeID)
    (enr_seq : N) (distances : list N) (protocol payload : bytes)
    (endpoint : option Endpoint) (request_id : option bytes) :
  (forall target net',
      same_configuration net' (recursive_find_nodes target net').2) ->
  same_configuration net (lookup_enr node_id enr_seq endpoint net).2
  /\ same_configuration net
       (find_nodes node_id distances endpoint request_id net).2
  /\ same_configuration net
       (stream_find_nodes node_id endpoint distances request_id net).2
  /\ same_configuration net
       (talk node_id protocol payload endpoint request_id net).2.
Proof.
  intros Hrec.
  assert (Hinit : same_configuration net net)
    by (unfold same_configuration; tauto).
  assert (Hcall : forall c net',
             same_configuration net net' ->
             same_configuration net (with_call c net'))
    by (intros; now apply same_configuration_call).
  assert (Hdb : forall enr net',
             same_configuration net net' ->
             same_configuration net
               (with_enr_db (stored_unless_older enr (enr_db net')) net'))
    by (intros; now apply same_configuration_db).
  assert (Hrec' : forall target net',
             same_configuration net net' ->
             same_configuration net (recursive_find_nodes target net').2)
    by (intros target net' Hsame;
        exact (same_configuration_trans _ _ _ Hsame (Hrec target net'))).
  split; [|split; [|split]].
  - now apply (keeps_lookup_enr client recursive_find_nodes
                 (same_configuration net) Hcall Hdb Hrec').
  - now apply (keeps_find_nodes client recursive_find_nodes
                 (same_configuration net) Hcall Hdb Hrec').
  - now apply (keeps_stream_find_nodes client recursive_find_nodes
                 (same_configuration net) Hcall Hdb Hrec').
  - now apply (keeps_talk client recursive_find_nodes
                 (same_configuration net) Hcall Hdb Hrec').
Qed.

(** X19. As long as the recursive engine does the same, the calls of
    the high level API only add to the log of calls to the client, and
    never drop a record from the ENR database nor replace it by one with
    a lower sequence number; and a database that keeps each record under
    its node id still does so afterwards. *)
Theorem api_never_forgets (net : Network) (node_id : NodeID)
    (enr_seq : N) (distances : list N) (protocol payload : bytes)
    (endpoint : option Endpoint) (request_id : option bytes) :
  (forall target net',
      calls net' `prefix_of` calls (recursive_find_nodes target net').2
      /\ at_least_as_new (enr_db net')
           (enr_db (recursive_find_nodes target net').2)
      /\ (keyed (enr_db net') ->
          keyed (enr_db (recursive_find_nodes target net').2))) ->
  let unforgetful net' :=
    calls net `prefix_of` calls net'
    /\ at_least_as_new (enr_db net) (enr_db net')
    /\ (keyed (enr_db net) -> keyed (enr_db net')) in
  unforgetful (lookup_enr node_id enr_seq endpoint net).2
  /\ unforgetful (find_nodes node_id distances endpoint request_id net).2
  /\ unforgetful
       (stream_find_nodes node_id endpoint distances request_id net).2
  /\ unforgetful (talk node_id protocol payload endpoint request_id net).2.
Proof.
  intros Hrec unforgetful.
  assert (Hinit : unforgetful net).
  { split; [reflexivity|]. split; [apply at_least_as_new_refl|tauto]. }
  assert (Hcall : forall c net', unforgetful net' ->
                                 unforgetful (with_call c net')).
  { intros c net' (Hcalls & Hnew & Hkeyed). split; [|split; assumption].
    simpl. now apply prefix_app_r. }
  assert (Hdb : forall enr net',
             unforgetful net' ->
             unforgetful
               (with_enr_db (stored_unless_older enr (enr_db net')) net')).
  { intros enr net' (Hcalls & Hnew & Hkeyed). split; [exact Hcalls|].
    simpl. split.
    - apply at_least_as_new_trans with (enr_db net'); [exact Hnew|].
      apply at_least_as_new_stored.
    - intros Hk. now apply keyed_stored, Hkeyed. }
  assert (Hrec' : forall target net',
             unforgetful net' ->
             unforgetful (recursive_find_nodes target net').2).
  { intros target net' (Hcalls & Hnew & Hkeyed).
    destruct (Hrec target net') as (Hcalls' & Hnew' & Hkeyed').
    split; [now transitivity (calls net')|]. split.
    - now apply at_least_as_new_trans with (enr_db net').
    - intros Hk. now apply Hkeyed', Hkeyed. }
  split; [|split; [|split]].
  - now apply (keeps_lookup_enr client recursive_find_nodes
                 unforgetful Hcall Hdb Hrec').
  - now apply (keeps_find_nodes client recursive_find_nodes
                 unforgetful Hcall Hdb Hrec').
  - now apply (keeps_stream_find_nodes client recursive_find_nodes
                 unforgetful Hcall Hdb Hrec').
  - now apply (keeps_talk client recursive_find_nodes
                 unforgetful Hcall Hdb Hrec').
Qed.

End Api.

Lemma api_keeps_configuration_witness :
  same_configuration demo_net
    (Net.lookup_enr demo_client demo_recursive_find_nodes 1 5 2
       (Some (ep 30305)) demo_net).2.
Proof.
  apply (api_keeps_configuration demo_client demo_recursive_find_nodes 1
           demo_net 5 2 [0] [] [] (Some (ep 30305)) None).
  intros target net'. unfold same_configuration. simpl. tauto.
Defined.

Lemma api_never_forgets_witness :
  at_least_as_new (enr_db demo_net)
    (enr_db (Net.lookup_enr demo_client demo_recursive_find_nodes 1 5 2
               (Some (ep 30305)) demo_net).2).
Proof.
  apply (api_never_forgets demo_client demo_recursive_find_nodes 1
           demo_net 5 2 [0] [] [] (Some (ep 30305)) None).
  intros target net'. simpl.
  split; [reflexivity|]. split; [apply at_least_as_new_refl|tauto].
Defined.

(** *** Bonding *)

Section Bonding.
Variable client : ClientAPI.
Variable recursive_find_nodes : NodeID -> M (list ENR).
Variable depth : nat.
Variable client_ping :
  list call -> list PingCall -> NodeID -> Endpoint -> option bytes ->
  result PongMessage.
Variable rt_update : NodeID -> KademliaRoutingTable -> KademliaRoutingTable.
Variable rt_remove : NodeID -> KademliaRoutingTable -> KademliaRoutingTable.
Variable ROUTING_TABLE_KEEP_ALIVE : Q.

(** The recursive engine changes the database and the log of calls
    only, and keeps each record under its node id. *)
Hypothesis recursive_configuration :
  forall target net,
    same_configuration net (recursive_find_nodes target net).2.
Hypothesis recursive_keyed :
  forall target net,
    keyed (enr_db net) -> keyed (enr_db (recursive_find_nodes target net).2).

Abbreviation lookup_enr := (Net.lookup_enr client recursive_find_nodes depth).
Abbreviation ping :=
  (Maintenance.ping client recursive_find_nodes depth client_ping).
Abbreviation bond :=
  (Maintenance.bond client recursive_find_nodes depth client_ping rt_update).
Abbreviation tracked net0 net :=
  (same_configuration net0 net /\ keyed (enr_db net)).

Lemma tracked_lookup_enr net0 node_id enr_seq endpoint :
  keeps (fun net => tracked net0 net) (lookup_enr node_id enr_seq endpoint).
Proof.
  apply keeps_lookup_enr.
  - intros c net [Hconf Hkeyed].
    split; [now apply same_configuration_call|exact Hkeyed].
  - intros enr net [Hconf Hkeyed].
    split; [now apply same_configuration_db|now apply keyed_stored].
  - intros target net [Hconf Hkeyed]. split.
    + exact (same_configuration_trans _ _ _ Hconf
               (recursive_configuration target net)).
    + now apply recursive_keyed.
Qed.

Lemma tracked_resolve_endpoint net0 node_id endpoint :
  keeps (fun net => tracked net0 net)
    (resolve_endpoint (fun id => lookup_enr id 0 None) node_id endpoint).
Proof using Type* recursive_configuration recursive_keyed.
  destruct endpoint as [ep|]; [intros net Hnet; exact Hnet|].
  intros net Hnet. simpl. unfold endpoint_for_node_id_with, get_enr.
  destruct (enr_db net !! node_id) as [enr|]; [exact Hnet|].
  unfold bind. pose proof (tracked_lookup_enr net0 node_id 0 None net Hnet)
    as Hlookup.
  destruct (lookup_enr node_id 0 None net) as [[enr|e] net']; exact Hlookup.
Qed.

Lemma ping_state node_id endpoint request_id st :
  keyed (enr_db (net st)) ->
  tracked (net st) (net (ping node_id endpoint request_id st).2)
  /\ _routing_table_ready (ping node_id endpoint request_id st).2
     = _routing_table_ready st
  /\ _last_pong_at (ping node_id endpoint request_id st).2 = _last_pong_at st
  /\ pongs (ping node_id endpoint request_id st).2 = pongs st.
Proof using Type* recursive_configuration recursive_keyed.
  intros Hkeyed. unfold Maintenance.ping, in_net.
  assert (Hinit : tracked (net st) (net st))
    by (split; [repeat split|exact Hkeyed]).
  pose proof (tracked_resolve_endpoint (net st) node_id endpoint (net st)
                Hinit) as Hresolve.
  destruct (resolve_endpoint _ node_id endpoint (net st)) as [[ep|e] net'];
    simpl in *; (split; [exact Hresolve|repeat split]).
Qed.

Lemma bond_outcome (node_id : NodeID) (endpoint : option Endpoint)
    (st : Node) :
  keyed (enr_db (net st)) ->
  match (bond node_id endpoint st).1 with
  | Ok true =>
      node_id ≠ local_node_id (net st)
      /\ routing_table (net (bond node_id endpoint st).2)
         = rt_update node_id (routing_table (net st))
      /\ _routing_table_ready (bond node_id endpoint st).2 = true
      /\ is_Some (enr_db (net (bond node_id endpoint st).2) !! node_id)
  | Ok false =>
      routing_table (net (bond node_id endpoint st).2)
      = routing_table (net st)
      /\ _routing_table_ready (bond node_id endpoint st).2
         = _routing_table_ready st
  | Raise e =>
      e ≠ TooSlowError
      /\ routing_table (net (bond node_id endpoint st).2)
         = routing_table (net st)
      /\ _routing_table_ready (bond node_id endpoint st).2
         = _routing_table_ready st
  end.
Proof using Type* recursive_configuration recursive_keyed.
  intros Hkeyed. unfold Maintenance.bond.
  destruct (ping_state node_id endpoint None st Hkeyed)
    as ([(Hrt1 & Hid1 & _) Hkeyed1] & Hready1 & _).
  destruct (ping node_id endpoint None st) as [[pong|e] st1]; simpl in *.
  - assert (Hinit : tracked (net st1) (net st1))
      by (split; [repeat split|exact Hkeyed1]).
    pose proof (tracked_lookup_enr (net st1) node_id (pong_enr_seq pong)
                  endpoint (net st1) Hinit) as [(Hrt2 & _) _].
    unfold in_net.
    destruct (lookup_enr node_id (pong_enr_seq pong) endpoint (net st1))
      as [[enr|e] net2] eqn:Hlookup; simpl in *.
    + apply lookup_enr_own in Hlookup as (Hne & Hown & stored & Hs & _);
        [|exact Hkeyed1].
      split; [congruence|]. split; [congruence|].
      split; [reflexivity|]. now rewrite Hs.
    + destruct (decide (e = TooSlowError ∨ e = EmptyFindNodesResponse))
        as [He|He]; simpl.
      * split; congruence.
      * split; [intros ->; apply He; now left|]. split; congruence.
  - destruct (decide (e = TooSlowError ∨ e = MissingEndpointFields))
      as [He|He]; simpl.
    + split; congruence.
    + split; [intros ->; apply He; now left|]. split; congruence.
Qed.

(** X20. [bond] returns [True] only for a peer other than the local
    node, and then the routing table has been updated with the node id
    asked for, the event [_routing_table_ready] is set and the database
    holds a record of the peer.  When it returns [False] or raises, the
    routing table and the event are as before.  It never raises
    [TooSlowError]. *)
Theorem bond_spec (node_id : NodeID) (endpoint : option Endpoint)
    (st : Node) :
  keyed (enr_db (net st)) ->
  match (bond node_id endpoint st).1 with
  | Ok true =>
      node_id ≠ local_node_id (net st)
      /\ routing_table (net (bond node_id endpoint st).2)
         = rt_update node_id (routing_table (net st))
      /\ _routing_table_ready (bond node_id endpoint st).2 = true
      /\ is_Some (enr_db (net (bond node_id endpoint st).2) !! node_id)
  | Ok false =>
      routing_table (net (bond node_id endpoint st).2)
      = routing_table (net st)
      /\ _routing_table_ready (bond node_id endpoint st).2
         = _routing_table_ready st
  | Raise e =>
      e ≠ TooSlowError
      /\ routing_table (net (bond node_id endpoint st).2)
         = routing_table (net st)
      /\ _routing_table_ready (bond node_id endpoint st).2
         = _routing_table_ready st
  end.
Proof using Type* recursive_configuration recursive_keyed.
  apply bond_outcome.
Qed.

Abbreviation ping_oldest_turn :=
  (Maintenance.ping_oldest_turn client recursive_find_nodes depth client_ping
     rt_update rt_remove ROUTING_TABLE_KEEP_ALIVE).

(** *** The keep-alive loop *)

Lemma bond_cache node_id endpoint st :
  _last_pong_at (bond node_id endpoint st).2 = _last_pong_at st
  /\ pongs (bond node_id endpoint st).2 = pongs st.
Proof using Type.
  unfold Maintenance.bond, Maintenance.ping, in_net.
  destruct (resolve_endpoint _ node_id endpoint (net st)) as [[ep|e] net1];
    simpl.
  - destruct (client_ping _ _ _ _ _) as [pong|e]; simpl.
    + destruct (lookup_enr _ _ _ _) as [[enr|e] net2]; simpl;
        [split; reflexivity|].
      destruct (decide (e = TooSlowError ∨ e = EmptyFindNodesResponse));
        split; reflexivity.
    + destruct (decide (e = TooSlowError ∨ e = MissingEndpointFields));
        split; reflexivity.
  - destruct (decide (e = TooSlowError ∨ e = MissingEndpointFields));
      split; reflexivity.
Qed.

(** The node that a turn of the keep-alive loop looks at. *)
Lemma least_recently_ponged first_node_id nodes_iter cache :
  let least :=
    (min_by_last_pong first_node_id (last_pong cache first_node_id)
       nodes_iter (lru_getitem first_node_id cache).2).1 in
  least ∈ first_node_id :: nodes_iter
  /\ (forall node_id, node_id ∈ first_node_id :: nodes_iter ->
        (last_pong cache least <= last_pong cache node_id)%Q)
  /\ forall key,
       lru_get key
         (min_by_last_pong first_node_id (last_pong cache first_node_id)
            nodes_iter (lru_getitem first_node_id cache).2).2
       = lru_get key cache.
Proof using Type.
  intros least.
  destruct (min_by_last_pong_spec nodes_iter first_node_id
              (last_pong cache first_node_id)
              (lru_getitem first_node_id cache).2)
    as (Hget & least_key & Hle & Hall & Hwho).
  fold least in Hwho.
  assert (Hkey : least_key = last_pong cache least).
  { destruct Hwho as [[-> ->]|[_ ->]]; [reflexivity|].
    now rewrite lru_get_getitem. }
  subst least_key. split; [|split].
  - destruct Hwho as [[-> _]|[Hin _]];
      [apply list_elem_of_here|now apply list_elem_of_further].
  - intros n Hn. apply elem_of_cons in Hn as [->|Hn]; [exact Hle|].
    specialize (Hall _ Hn). now rewrite lru_get_getitem in Hall.
  - intros key. now rewrite Hget, lru_get_getitem.
Qed.

Lemma ping_oldest_turn_facts (nodes : list NodeID) (now : Q) (st : Node)
    (turn : keep_alive_turn) (st' : Node) :
  ping_oldest_turn nodes now st = (Ok turn, st') ->
  (forall key,
      lru_get key (_last_pong_at st') = lru_get key (_last_pong_at st))
  /\ match turn with
     | Slept seconds =>
         (nodes = [] /\ seconds = ROUTING_TABLE_KEEP_ALIVE /\ st' = st)
         \/ exists node_id last_pong_at,
              node_id ∈ nodes
              /\ lru_get node_id (_last_pong_at st) = Some last_pong_at
              /\ (forall other, other ∈ nodes ->
                    (last_pong_at <= last_pong (_last_pong_at st) other)%Q)
              /\ (now - ROUTING_TABLE_KEEP_ALIVE < last_pong_at)%Q
              /\ seconds
                 = (last_pong_at - (now - ROUTING_TABLE_KEEP_ALIVE))%Q
              /\ net st' = net st /\ pings st' = pings st
     | Bonded node_id did_bond =>
         node_id ∈ nodes
         /\ (forall other, other ∈ nodes ->
               (last_pong (_last_pong_at st) node_id
                <= last_pong (_last_pong_at st) other)%Q)
         /\ (forall last_pong_at,
               lru_get node_id (_last_pong_at st) = Some last_pong_at ->
               (last_pong_at <= now - ROUTING_TABLE_KEEP_ALIVE)%Q)
     end.
Proof using Type.
  unfold Maintenance.ping_oldest_turn.
  destruct nodes as [|first_node_id nodes_iter].
  { intros [= <- <-]. split; [reflexivity|]. left. repeat split. }
  cbv zeta. rewrite !lru_getitem_value.
  destruct (least_recently_ponged first_node_id nodes_iter (_last_pong_at st))
    as (Hin & Hleast & Hget).
  cbv zeta in Hin, Hleast.
  set (least := (min_by_last_pong first_node_id _ nodes_iter _).1) in *.
  set (cache := (min_by_last_pong first_node_id _ nodes_iter _).2) in *.
  rewrite Hget.
  set (st1 := with_last_pong_at (lru_getitem least cache).2 st).
  assert (Hcache1 : forall key,
             lru_get key (_last_pong_at st1) = lru_get key (_last_pong_at st))
    by (intros key; simpl; now rewrite lru_get_getitem).
  assert (Hprobe :
            (forall last_pong_at,
                lru_get least (_last_pong_at st) = Some last_pong_at ->
                (last_pong_at <= now - ROUTING_TABLE_KEEP_ALIVE)%Q) ->
            (let (r, st0) := bond least None st1 in
             match r with
             | Ok true => (Ok (Bonded least true), st0)
             | Ok false =>
                 (Ok (Bonded least false),
                  with_net
                    (with_routing_table
                       (rt_remove least (routing_table (net st0))) (net st0))
                    st0)
             | Raise e => (Raise e, st0)
             end) = (Ok turn, st') ->
            (forall key,
                lru_get key (_last_pong_at st')
                = lru_get key (_last_pong_at st))
            /\ match turn with
               | Slept seconds =>
                   (first_node_id :: nodes_iter = []
                    /\ seconds = ROUTING_TABLE_KEEP_ALIVE /\ st' = st)
                   \/ exists node_id last_pong_at,
                        node_id ∈ first_node_id :: nodes_iter
                        /\ lru_get node_id (_last_pong_at st)
                           = Some last_pong_at
                        /\ (forall other,
                              other ∈ first_node_id :: nodes_iter ->
                              (last_pong_at
                               <= last_pong (_last_pong_at st) other)%Q)
                        /\ (now - ROUTING_TABLE_KEEP_ALIVE < last_pong_at)%Q
                        /\ seconds
                           = (last_pong_at
                              - (now - ROUTING_TABLE_KEEP_ALIVE))%Q
                        /\ net st' = net st /\ pings st' = pings st
               | Bonded node_id did_bond =>
                   node_id ∈ first_node_id :: nodes_iter
                   /\ (forall other,
                         other ∈ first_node_id :: nodes_iter ->
                         (last_pong (_last_pong_at st) node_id
                          <= last_pong (_last_pong_at st) other)%Q)
                   /\ (forall last_pong_at,
                         lru_get node_id (_last_pong_at st)
                         = Some last_pong_at ->
                         (last_pong_at
                          <= now - ROUTING_TABLE_KEEP_ALIVE)%Q)
               end).
  { intros Hold. destruct (bond_cache least None st1) as [Hsame _].
    destruct (bond least None st1) as [[[|]|e] st2]; simpl in Hsame;
      intros [= <- <-]; simpl; rewrite Hsame;
      (split; [exact Hcache1|]); (split; [exact Hin|]);
      (split; [exact Hleast|exact Hold]). }
  destruct (lru_get least (_last_pong_at st)) as [last_pong_at|] eqn:Hlast.
  - destruct (decide (now - ROUTING_TABLE_KEEP_ALIVE < last_pong_at)%Q)
      as [Hyoung|Hold].
    + intros [= <- <-]. split; [exact Hcache1|]. right.
      exists least, last_pong_at. simpl in Hleast.
      repeat split; assumption.
    + apply Hprobe. intros t [= <-]. now apply Qnot_lt_le.
  - apply Hprobe. intros t Ht. discriminate.
Qed.

Abbreviation _maybe_add_to_routing_table :=
  (Maintenance._maybe_add_to_routing_table client recursive_find_nodes depth
     rt_update).

Lemma ping_oldest_turn_bonded nodes now st node_id did_bond st' :
  ping_oldest_turn nodes now st = (Ok (Bonded node_id did_bond), st') ->
  exists st1,
    net st1 = net st
    /\ (bond node_id None st1).1 = Ok did_bond
    /\ net st'
       = if did_bond then net (bond node_id None st1).2
         else with_routing_table
                (rt_remove node_id
                   (routing_table (net (bond node_id None st1).2)))
                (net (bond node_id None st1).2).
Proof using Type.
  unfold Maintenance.ping_oldest_turn.
  destruct nodes as [|first_node_id nodes_iter]; [discriminate|].
  cbv zeta.
  set (least := (min_by_last_pong first_node_id _ nodes_iter _).1).
  set (cache := (min_by_last_pong first_node_id _ nodes_iter _).2).
  set (st1 := with_last_pong_at (lru_getitem least cache).2 st).
  assert (Hprobe :
            (let (r, st0) := bond least None st1 in
             match r with
             | Ok true => (Ok (Bonded least true), st0)
             | Ok false =>
                 (Ok (Bonded least false),
                  with_net
                    (with_routing_table
                       (rt_remove least (routing_table (net st0))) (net st0))
                    st0)
             | Raise e => (Raise e, st0)
             end) = (Ok (Bonded node_id did_bond), st') ->
            exists st1,
              net st1 = net st
              /\ (bond node_id None st1).1 = Ok did_bond
              /\ net st'
                 = if did_bond then net (bond node_id None st1).2
                   else with_routing_table
                          (rt_remove node_id
                             (routing_table (net (bond node_id None st1).2)))
                          (net (bond node_id None st1).2)).
  { destruct (bond least None st1) as [[[|]|e] st2] eqn:Hbond;
      intros [= <- <- <-]; exists st1; rewrite Hbond;
      (split; [reflexivity|]); split; reflexivity. }
  destruct (lru_getitem least cache).1 as [last_pong_at|];
    [|exact Hprobe].
  destruct (decide (now - ROUTING_TABLE_KEEP_ALIVE < last_pong_at)%Q);
    [discriminate|exact Hprobe].
Qed.

(** X21. One turn of the keep-alive loop.  With an empty routing table
    it sleeps for the keep-alive time.  Otherwise it looks at a node of
    the table whose last pong is the oldest, a node that never ponged
    counting as ponged at clock reading 0: when that pong is younger
    than the keep-alive time it sleeps until the pong is that old,
    touching nothing; else it bonds with the node, and the routing table
    ends with the node updated when the bond succeeded and removed when
    it failed.  The reads reorder the cache of pongs and change none of
    its values. *)
Theorem keep_alive_turn_spec (nodes : list NodeID) (now : Q) (st : Node)
    (turn : keep_alive_turn) (st' : Node) :
  keyed (enr_db (net st)) ->
  ping_oldest_turn nodes now st = (Ok turn, st') ->
  (forall key,
      lru_get key (_last_pong_at st') = lru_get key (_last_pong_at st))
  /\ match turn with
     | Slept seconds =>
         (nodes = [] /\ seconds = ROUTING_TABLE_KEEP_ALIVE /\ st' = st)
         \/ exists node_id last_pong_at,
              node_id ∈ nodes
              /\ lru_get node_id (_last_pong_at st) = Some last_pong_at
              /\ (forall other, other ∈ nodes ->
                    (last_pong_at <= last_pong (_last_pong_at st) other)%Q)
              /\ (now - ROUTING_TABLE_KEEP_ALIVE < last_pong_at)%Q
              /\ seconds
                 = (last_pong_at - (now - ROUTING_TABLE_KEEP_ALIVE))%Q
              /\ net st' = net st /\ pings st' = pings st
     | Bonded node_id did_bond =>
         node_id ∈ nodes
         /\ (forall other, other ∈ nodes ->
               (last_pong (_last_pong_at st) node_id
                <= last_pong (_last_pong_at st) other)%Q)
         /\ (forall last_pong_at,
               lru_get node_id (_last_pong_at st) = Some last_pong_at ->
               (last_pong_at <= now - ROUTING_TABLE_KEEP_ALIVE)%Q)
         /\ routing_table (net st')
            = (if did_bond then rt_update node_id else rt_remove node_id)
                (routing_table (net st))
         /\ (did_bond = true -> node_id ≠ local_node_id (net st))
     end.
Proof using Type* recursive_configuration recursive_keyed.
  intros Hkeyed Hturn.
  destruct (ping_oldest_turn_facts _ _ _ _ _ Hturn) as [Hcache Hfacts].
  split; [exact Hcache|].
  destruct turn as [seconds|node_id did_bond]; [exact Hfacts|].
  destruct Hfacts as (Hin & Hleast & Hold).
  split; [exact Hin|]. split; [exact Hleast|]. split; [exact Hold|].
  apply ping_oldest_turn_bonded in Hturn as (st1 & Hnet & Hbond & Hnet').
  assert (Hkeyed1 : keyed (enr_db (net st1))) by now rewrite Hnet.
  pose proof (bond_outcome node_id None st1 Hkeyed1) as Hout.
  rewrite Hbond in Hout. rewrite Hnet', <- Hnet.
  destruct did_bond.
  - destruct Hout as (Hne & Hrt & _). split; [exact Hrt|]. intros _. exact Hne.
  - destruct Hout as [Hrt _]. simpl. rewrite Hrt. split; [reflexivity|].
    discriminate.
Qed.



(** X23. The task started for an inbound PING ends normally with the
    routing table and the event as before, or with the sender, who is
    then not the local node, updated in the routing table and the event
    set.  It catches a timeout and an empty response only: a PING that
    carries the local node id makes the task raise the plain exception
    of [lookup_enr], the network object untouched.  Whatever the task
    does, the PONG sent before it stands: it carries the id of the
    request, the sequence number of the local ENR and the endpoint the
    PING came from. *)
Theorem maybe_add_to_routing_table_spec (request : PingRequest) (st : Node) :
  keyed (enr_db (net st)) ->
  match (_maybe_add_to_routing_table request st).1 with
  | Ok _ =>
      (routing_table (net (_maybe_add_to_routing_table request st).2)
       = routing_table (net st)
       /\ _routing_table_ready (_maybe_add_to_routing_table request st).2
          = _routing_table_ready st)
      \/ (pr_sender_node_id request ≠ local_node_id (net st)
          /\ routing_table (net (_maybe_add_to_routing_table request st).2)
             = rt_update (pr_sender_node_id request)
                 (routing_table (net st))
          /\ _routing_table_ready (_maybe_add_to_routing_table request st).2
             = true)
  | Raise e =>
      e ≠ TooSlowError /\ e ≠ EmptyFindNodesResponse
      /\ routing_table (net (_maybe_add_to_routing_table request st).2)
         = routing_table (net st)
  end
  /\ (pr_sender_node_id request = local_node_id (net st) ->
      (0 < depth)%nat ->
      (_maybe_add_to_routing_table request st).1 = Raise PlainException
      /\ net (_maybe_add_to_routing_table request st).2 = net st)
  /\ pongs (_maybe_add_to_routing_table request (send_pong request st)).2
     = pongs st
       ++ [{| sp_node_id := pr_sender_node_id request;
              sp_endpoint := pr_sender_endpoint request;
              sp_message :=
                {| pong_request_id := pr_request_id request;
                   pong_enr_seq := sequence_number (local_enr (net st));
                   pong_packet_ip := ip_address (pr_sender_endpoint request);
                   pong_packet_port := port (pr_sender_endpoint request) |} |}].
Proof using Type* recursive_configuration recursive_keyed.
  intros Hkeyed. unfold Maintenance._maybe_add_to_routing_table, in_net.
  split; [|split].
  - assert (Hinit : tracked (net st) (net st))
      by (split; [repeat split|exact Hkeyed]).
    pose proof (tracked_lookup_enr (net st) (pr_sender_node_id request)
                  (pr_enr_seq request) (Some (pr_sender_endpoint request))
                  (net st) Hinit)
      as [(Hrt & _) _].
    destruct (lookup_enr _ _ _ (net st)) as [[enr|e] net'] eqn:Hlookup;
      simpl in *.
    + right.
      apply lookup_enr_own in Hlookup as (Hne & Hown & _); [|exact Hkeyed].
      split; [exact Hne|]. split; [congruence|reflexivity].
    + destruct (decide (e = TooSlowError ∨ e = EmptyFindNodesResponse))
        as [He|He]; simpl.
      * left. split; [exact Hrt|reflexivity].
      * split; [intros ->; apply He; now left|].
        split; [intros ->; apply He; now right|exact Hrt].
  - intros Hlocal Hdepth. destruct depth as [|depth']; [lia|]. simpl.
    rewrite decide_True by exact Hlocal. simpl. split; reflexivity.
  - destruct (lookup_enr _ _ _ (net (send_pong request st)))
      as [[enr|e] net']; simpl; [reflexivity|].
    now destruct (decide (e = TooSlowError ∨ e = EmptyFindNodesResponse)).
Qed.

(** X24. For a peer with a record in the database and no endpoint
    given, [ping] asks the client for the PING and nothing else, at the
    endpoint of the stored record: it makes no FINDNODE call and leaves
    the network object as it is.  When the stored record has no IP
    address or no UDP port it raises [MissingEndpointFields] and pings
    no one. *)
Theorem ping_stored_peer (node_id : NodeID) (request_id : option bytes)
    (st : Node) (stored : ENR) :
  enr_db (net st) !! node_id = Some stored ->
  net (ping node_id None request_id st).2 = net st
  /\ match from_enr stored with
     | Ok endpoint =>
         (ping node_id None request_id st).1
         = client_ping (calls (net st)) (pings st) node_id endpoint
             request_id
         /\ pings (ping node_id None request_id st).2
            = pings st
              ++ [{| pc_node_id := node_id; pc_endpoint := endpoint;
                     pc_request_id := request_id |}]
     | Raise _ =>
         (ping node_id None request_id st).1 = Raise MissingEndpointFields
         /\ pings (ping node_id None request_id st).2 = pings st
     end.
Proof using Type.
  intros Hstored. unfold Maintenance.ping, in_net. simpl.
  unfold endpoint_for_node_id_with, get_enr. rewrite Hstored.
  unfold from_enr. destruct (ip stored), (udp stored); simpl;
    split; try split; reflexivity.
Qed.

End Bonding.

(** *** Witnesses *)

Lemma demo_recursive_configuration target net :
  same_configuration net (demo_recursive_find_nodes target net).2.
Proof. repeat split. Qed.

Lemma demo_recursive_keyed target net :
  keyed (enr_db net) ->
  keyed (enr_db (demo_recursive_find_nodes target net).2).
Proof. intros Hkeyed. exact Hkeyed. Qed.

Lemma demo_keyed : keyed (enr_db demo_net).
Proof. refine (bool_decide_unpack _ _). vm_compute. exact I. Qed.

Abbreviation demo_bond :=
  (Maintenance.bond demo_client demo_recursive_find_nodes 1 demo_ping
     demo_update).
Abbreviation demo_turn :=
  (Maintenance.ping_oldest_turn demo_client demo_recursive_find_nodes 1
     demo_ping demo_update demo_remove 300%Q).

Lemma bond_spec_witness :
  routing_table (net (demo_bond 5 None demo_node).2)
  = demo_update 5 (routing_table demo_net).
Proof.
  pose proof (bond_spec demo_client demo_recursive_find_nodes 1 demo_ping
                demo_update demo_recursive_configuration demo_recursive_keyed
                5 None demo_node demo_keyed) as Hbond.
  assert (Htrue : (demo_bond 5 None demo_node).1 = Ok true)
    by (vm_compute; reflexivity).
  rewrite Htrue in Hbond. apply Hbond.
Defined.

Lemma keep_alive_turn_spec_witness :
  routing_table (net (demo_turn [5; 6; 7] 600%Q demo_node).2)
  = demo_remove 6 (routing_table demo_net).
Proof.
  assert (Hturn : (demo_turn [5; 6; 7] 600%Q demo_node).1
                  = Ok (Bonded 6 false))
    by (vm_compute; reflexivity).
  assert (Hpair : demo_turn [5; 6; 7] 600%Q demo_node
                  = (Ok (Bonded 6 false),
                     (demo_turn [5; 6; 7] 600%Q demo_node).2))
    by (rewrite <- Hturn; apply surjective_pairing).
  apply (keep_alive_turn_spec demo_client demo_recursive_find_nodes 1
           demo_ping demo_update demo_remove 300%Q
           demo_recursive_configuration demo_recursive_keyed
           [5; 6; 7] 600%Q demo_node _ _ demo_keyed Hpair).
Defined.


Lemma maybe_add_to_routing_table_spec_witness :
  (Maintenance._maybe_add_to_routing_table demo_client
     demo_recursive_find_nodes 1 demo_update
     {| pr_sender_node_id := 1; pr_sender_endpoint := ep 30301;
        pr_request_id := b "rq"; pr_enr_seq := 1 |} demo_node).1
  = Raise PlainException.
Proof.
  apply (proj2 (maybe_add_to_routing_table_spec demo_client
                  demo_recursive_find_nodes 1 demo_update
                  demo_recursive_configuration demo_recursive_keyed
                  {| pr_sender_node_id := 1; pr_sender_endpoint := ep 30301;
                     pr_request_id := b "rq"; pr_enr_seq := 1 |}
                  demo_node demo_keyed)); [reflexivity|lia].
Defined.

Lemma ping_stored_peer_witness :
  net (Maintenance.ping demo_client demo_recursive_find_nodes 1 demo_ping
         5 None None demo_node).2
  = net demo_node.
Proof.
  apply (ping_stored_peer demo_client demo_recursive_find_nodes 1 demo_ping
           5 None demo_node (enr_of 5 1)).
  vm_compute. reflexivity.
Defined.

(** *** The bootnodes and the refresh *)



(** X26. A refresh bonds with the node ids of the ENRs that the
    recursive lookup delivers, in order, the local node left out.  It
    never raises, and every node id it bonds with has a record in the
    database by then; no record is lost or replaced by an older one,
    and nothing but the database changes. *)
Theorem bond_found_spec (found : list ENR) (net : Network) :
  (bond_found found net).1
  = Ok (filter (fun node_id => node_id ≠ local_node_id net)
               (node_id <$> found))
  /\ (forall target,
        target ∈ filter (fun node_id => node_id ≠ local_node_id net)
                        (node_id <$> found) ->
        is_Some (enr_db (bond_found found net).2 !! target))
  /\ at_least_as_new (enr_db net) (enr_db (bond_found found net).2)
  /\ same_configuration net (bond_found found net).2
  /\ calls (bond_found found net).2 = calls net.
Proof.
  revert net. induction found as [|enr rest IH]; intros net; simpl.
  - split; [reflexivity|].
    split; [intros target Hin; now apply not_elem_of_nil in Hin|].
    split; [apply at_least_as_new_refl|]. repeat split.
  - rewrite filter_cons.
    destruct (decide (node_id enr = local_node_id net)) as [Hlocal|Hother].
    + rewrite decide_False by tauto. apply IH.
    + rewrite decide_True by exact Hother.
      unfold bind. rewrite set_enr_ignoring_old_eq.
      set (net1 := with_enr_db (stored_unless_older enr (enr_db net)) net).
      destruct (IH net1) as (Hres & Hstored & Hnew & Hconf & Hcalls).
      change (local_node_id net1) with (local_node_id net) in Hres, Hstored.
      destruct (bond_found rest net1) as [[bonds|e] net2]; simpl in *;
        [|discriminate].
      injection Hres as ->.
      split; [reflexivity|]. split; [|split; [|split]].
      * intros target Hin. apply elem_of_cons in Hin as [->|Hin];
          [|now apply Hstored].
        destruct (stored_unless_older_stores enr (enr_db net))
          as (stored & Hs & _).
        destruct (Hnew _ _ Hs) as (stored' & Hs' & _). now rewrite Hs'.
      * apply at_least_as_new_trans with (enr_db net1); [|exact Hnew].
        apply at_least_as_new_stored.
      * exact Hconf.
      * exact Hcalls.
Qed.

End MaintenanceFacts.

(** * Further properties of the start of the application *)

Module AppMoreFacts.
Import App AppBoot AppDemo AppFacts.

Section WithKeys.
Context {PrivateKey : Type}.
Variable to_compressed_bytes : PrivateKey -> bytes.
Variable create_enr_signature : UnsignedENR -> PrivateKey -> bytes.
Variable extract_node_id : gmap bytes value -> bytes.

Abbreviation get_local_enr :=
  (App.get_local_enr to_compressed_bytes create_enr_signature
     extract_node_id).
Abbreviation store_local_enr :=
  (AppBoot.store_local_enr to_compressed_bytes create_enr_signature
     extract_node_id).
Abbreviation minimal_kv_pairs := (App.minimal_kv_pairs to_compressed_bytes).

Lemma get_local_enr_holds_minimal boot_info node_db key :
  map_Forall
    (fun k v => kv_pairs (get_local_enr boot_info node_db key) !! k = Some v)
    (minimal_kv_pairs boot_info key).
Proof using Type.
  unfold App.get_local_enr, node_id.
  cbn [kv_pairs to_signed_enr unsigned_kv_pairs].
  destruct (node_db !! _) as [base_enr|].
  - destruct (existsb _ _) eqn:Hany.
    + intros k v Hkv. cbn. unfold merge.
      now apply lookup_union_Some_l.
    + now apply any_changed_false in Hany.
  - intros k v Hkv. exact Hkv.
Qed.

Lemma get_local_enr_sequence boot_info node_db key stored :
  node_db !! extract_node_id (minimal_kv_pairs boot_info key) = Some stored ->
  (sequence_number stored
   <= sequence_number (get_local_enr boot_info node_db key))%Z.
Proof using Type.
  intros Hstored. unfold App.get_local_enr, node_id.
  cbn [kv_pairs to_signed_enr unsigned_kv_pairs]. rewrite Hstored.
  destruct (existsb _ _); cbn; lia.
Qed.

(** X27. At the start of the application the local ENR is computed
    and stored.  When the node id of a record is determined by the pairs
    of the minimal record, storing the local ENR never meets an old
    sequence number: its sequence number is at least the stored one.
    Once it is stored, computing the local ENR again gives the same
    record, so a restart with the same key and port does not raise the
    sequence number again. *)
Theorem local_enr_stored_and_stable (boot_info : BootInfo)
    (node_db : gmap bytes ENR) (key : PrivateKey) :
  let minimal := minimal_kv_pairs boot_info key in
  let local_enr := get_local_enr boot_info node_db key in
  let node_db' := <[extract_node_id minimal := local_enr]> node_db in
  (forall kv,
      map_Forall (fun k v => kv !! k = Some v) minimal ->
      extract_node_id kv = extract_node_id minimal) ->
  store_local_enr boot_info node_db key = Ok (local_enr, node_db')
  /\ (forall stored,
        node_db !! extract_node_id minimal = Some stored ->
        (sequence_number stored <= sequence_number local_enr)%Z)
  /\ get_local_enr boot_info node_db' key = local_enr
  /\ store_local_enr boot_info node_db' key = Ok (local_enr, node_db').
Proof using Type.
  intros minimal local_enr node_db' Hid.
  assert (Hlocal : node_id extract_node_id local_enr
                   = extract_node_id minimal)
    by (apply Hid, get_local_enr_holds_minimal).
  assert (Hagain : get_local_enr boot_info node_db' key = local_enr).
  { unfold App.get_local_enr at 1, node_id.
    cbn [kv_pairs to_signed_enr unsigned_kv_pairs]. fold minimal.
    unfold node_db'. rewrite lookup_insert_eq.
    pose proof (get_local_enr_holds_minimal boot_info node_db key) as Hall.
    apply any_changed_false in Hall. fold local_enr minimal in Hall.
    now rewrite Hall. }
  split; [|split; [|split]].
  - unfold AppBoot.store_local_enr, set_enr. fold local_enr.
    rewrite Hlocal.
    destruct (node_db !! extract_node_id minimal) as [stored|] eqn:Hstored;
      [|reflexivity].
    pose proof (get_local_enr_sequence _ _ _ _ Hstored) as Hle.
    fold local_enr in Hle.
    destruct (Z.ltb_spec (sequence_number local_enr)
                (sequence_number stored)); [lia|reflexivity].
  - intros stored Hstored. now apply get_local_enr_sequence.
  - exact Hagain.
  - unfold AppBoot.store_local_enr, set_enr. rewrite Hagain, Hlocal.
    unfold node_db' at 1. rewrite lookup_insert_eq, Z.ltb_irrefl.
    unfold node_db'. now rewrite insert_insert_eq.
Qed.

End WithKeys.

(** X28. A configured private key is returned as it is and the key
    file is not touched.  Without one, the key returned is the key that
    the file holds afterwards: an existing file is read and not
    generated again, and a second call returns the same key whatever
    would be generated then. *)
Theorem node_key_stable {PrivateKey : Type}
    (private_key : option PrivateKey) (generated generated' : PrivateKey)
    (nodekey : option PrivateKey) :
  let first := get_local_private_key private_key generated nodekey in
  get_local_private_key private_key generated' first.2 = first
  /\ match private_key with
     | Some key => first = (key, nodekey)
     | None =>
         first.2 = Some first.1
         /\ forall stored, nodekey = Some stored -> first = (stored, nodekey)
     end.
Proof.
  unfold get_local_private_key.
  destruct private_key as [key|], nodekey as [stored|]; simpl;
    repeat split; try reflexivity; intros ? [= <-]; reflexivity.
Qed.

Lemma local_enr_stored_and_stable_witness :
  App.get_local_enr demo_pubkey demo_sign demo_node_id demo_boot
    (<[demo_local_id :=
         App.get_local_enr demo_pubkey demo_sign demo_node_id demo_boot
           {[ demo_local_id := demo_stored_old_port ]} demo_key]>
       {[ demo_local_id := demo_stored_old_port ]})
    demo_key
  = App.get_local_enr demo_pubkey demo_sign demo_node_id demo_boot
      {[ demo_local_id := demo_stored_old_port ]} demo_key.
Proof.
  apply (local_enr_stored_and_stable demo_pubkey demo_sign demo_node_id
           demo_boot {[ demo_local_id := demo_stored_old_port ]} demo_key).
  intros kv Hall. unfold demo_node_id.
  rewrite (Hall (b "secp256k1") (VBytes (demo_pubkey demo_key)))
    by (vm_compute; reflexivity).
  vm_compute. reflexivity.
Defined.

End AppMoreFacts.

(** * Properties of the Alexandria messages and advertisements *)

Module AlexandriaFacts.
Import Alexandria AlexandriaDemo.

(** *** The registry *)

Lemma register_all_spec (cs : list message_class) :
  forall registry,
    NoDup (message_id <$> cs) ->
    (forall c, c ∈ cs -> registry !! message_id c = None) ->
    exists registry',
      register_all cs registry = inr registry'
      /\ forall id c,
           registry' !! id = Some c
           <-> (c ∈ cs /\ message_id c = id) \/ registry !! id = Some c.
Proof.
  induction cs as [|c cs IH]; intros registry Hdup Hfree; simpl.
  - exists registry. split; [reflexivity|]. intros id c.
    rewrite elem_of_nil. tauto.
  - unfold register. rewrite (Hfree c) by apply list_elem_of_here.
    rewrite decide_False by (intros [x Hx]; discriminate).
    rewrite fmap_cons in Hdup. apply NoDup_cons in Hdup as [Hnew Hdup].
    destruct (IH (<[message_id c := c]> registry) Hdup)
      as (registry' & Hall & Hspec).
    { intros c' Hc'. rewrite lookup_insert_ne; [|].
      - apply Hfree. now apply list_elem_of_further.
      - intros Heq. apply Hnew. rewrite Heq. now apply list_elem_of_fmap_2. }
    exists registry'. split; [exact Hall|]. intros id c'.
    rewrite Hspec, elem_of_cons.
    destruct (decide (message_id c = id)) as [<-|Hne].
    + rewrite lookup_insert_eq, (Hfree c) by apply list_elem_of_here.
      split.
      * intros [[Hin Hid]|[= <-]]; [|left; split; [now left|reflexivity]].
        left. split; [now right|exact Hid].
      * intros [[[->|Hin] Hid]|Hno]; [now right| |discriminate].
        left. split; assumption.
    + rewrite lookup_insert_ne by exact Hne. split.
      * intros [[Hin Hid]|Hold]; [|now right].
        left. split; [now right|exact Hid].
      * intros [[[->|Hin] Hid]|Hold]; [contradiction| |now right].
        left. split; assumption.
Qed.

Lemma every_class_is_decorated (c : message_class) : c ∈ message_classes.
Proof.
  unfold message_classes. destruct c; repeat constructor.
Qed.

Lemma message_registry_loaded :
  exists registry,
    MESSAGE_REGISTRY = inr registry
    /\ forall id c, registry !! id = Some c <-> message_id c = id.
Proof.
  destruct (register_all_spec message_classes ∅) as (registry & Hall & Hspec).
  - refine (bool_decide_unpack _ _). vm_compute. exact I.
  - intros c _. apply lookup_empty.
  - exists registry. split; [exact Hall|]. intros id c. rewrite Hspec.
    rewrite lookup_empty. pose proof (every_class_is_decorated c).
    split; [intros [[_ Hid]|Hno]; [exact Hid|discriminate]|tauto].
Qed.

Lemma message_id_byte (c : message_class) :
  exists first,
    UINT8_TO_BYTES (message_id c) = inr [first]
    /\ Byte.to_N first = message_id c.
Proof.
  unfold UINT8_TO_BYTES.
  destruct (Byte.of_N (message_id c)) as [first|] eqn:Hbyte.
  - exists first. split; [reflexivity|]. now apply Byte.to_of_N.
  - destruct c; discriminate.
Qed.

Section WithSsz.
Context {Payload SszValue : Type}.
Variable ssz_encode : message_class -> SszValue -> bytes.
Variable ssz_decode : message_class -> bytes -> option SszValue.
Variable get_payload_for_encoding : message_class -> Payload -> SszValue.
Variable from_payload_args : message_class -> SszValue -> Payload.

Abbreviation to_wire_bytes :=
  (Alexandria.to_wire_bytes ssz_encode get_payload_for_encoding).
Abbreviation decode_message :=
  (Alexandria.decode_message ssz_decode from_payload_args).

(** X29. Loading the module registers the ten message classes without
    a clash: the registry maps an id to the class with that id and to
    nothing else, and registering a class once more raises
    [ValueError].  [decode_message] raises [IndexError] on empty data,
    and [DecodingError] when the first byte is not the id of a class or
    when the rest does not decode with the sedes of that class.  When
    the ssz codec and the payload conversions of the classes invert each
    other, every message decodes from its wire bytes to itself. *)
Theorem alexandria_wire_format :
  exists registry,
    MESSAGE_REGISTRY = inr registry
    /\ (forall id c, registry !! id = Some c <-> message_id c = id)
    /\ (forall c, register c registry = inl ValueError)
    /\ decode_message registry [] = inl IndexError
    /\ (forall first rest,
          ~ (1 <= Byte.to_N first <= 10) ->
          decode_message registry (first :: rest) = inl DecodingError)
    /\ (forall first rest c,
          Byte.to_N first = message_id c -> ssz_decode c rest = None ->
          decode_message registry (first :: rest) = inl DecodingError)
    /\ ((forall c value, ssz_decode c (ssz_encode c value) = Some value) ->
        (forall c payload,
            from_payload_args c (get_payload_for_encoding c payload)
            = payload) ->
        forall message,
          exists data,
            to_wire_bytes message = inr data
            /\ decode_message registry data = inr message).
Proof using Type.
  destruct message_registry_loaded as (registry & Hload & Hspec).
  exists registry. split; [exact Hload|]. split; [exact Hspec|].
  split; [|split; [reflexivity|split; [|split]]].
  - intros c. unfold register. rewrite decide_True; [reflexivity|].
    exists c. now apply Hspec.
  - intros first rest Hout. simpl.
    destruct (registry !! Byte.to_N first) as [c|] eqn:Hc; [|reflexivity].
    apply Hspec in Hc. exfalso. apply Hout. rewrite <- Hc.
    destruct c; simpl; lia.
  - intros first rest c Hfirst Hnone. simpl.
    rewrite (proj2 (Hspec _ c) (eq_sym Hfirst)). now rewrite Hnone.
  - intros Hssz Hargs [c payload].
    destruct (message_id_byte c) as (first & Hbyte & Hfirst).
    unfold Alexandria.to_wire_bytes. simpl. rewrite Hbyte.
    eexists. split; [reflexivity|]. simpl.
    rewrite (proj2 (Hspec _ c) (eq_sym Hfirst)), Hssz, Hargs. reflexivity.
Qed.

End WithSsz.

(** *** The advertisement provider *)

Section Provider.
Context {Advertisement ContentKey : Type}.
Implicit Types dbs : list (ContentKey -> list Advertisement).

Lemma take_source_spec dbs (content_key : ContentKey) : forall n : nat,
  (take_source n dbs content_key).1
  = take n (_source_advertisements dbs content_key)
  /\ ((take_source n dbs content_key).2 <= length dbs)%nat
  /\ ((0 < (take_source n dbs content_key).2)%nat ->
      (length (_source_advertisements
                 (take ((take_source n dbs content_key).2 - 1) dbs)
                 content_key) < n)%nat)
  /\ (((take_source n dbs content_key).2 < length dbs)%nat ->
      (n <= length (_source_advertisements
                      (take (take_source n dbs content_key).2 dbs)
                      content_key))%nat).
Proof.
  unfold _source_advertisements.
  induction dbs as [|db rest IH]; intros n.
  - destruct n; simpl; repeat split; try reflexivity; lia.
  - destruct n as [|n]; [simpl; repeat split; try reflexivity; lia|].
    cbn [take_source flat_map]. 
    destruct (decide (S n <= length (db content_key))%nat) as [Hle|Hgt].
    + cbn [fst snd]. split; [now rewrite take_app_le|].
      split; [simpl; lia|]. split; [simpl; lia|].
      intros _. simpl. rewrite app_nil_r. exact Hle.
    + destruct (IH (S n - length (db content_key))%nat)
        as (Htaken & Hcount & Hbefore & Hafter).
      cbn [fst snd]. split; [|split; [|split]].
      * rewrite take_app_ge by lia. now rewrite Htaken.
      * simpl. lia.
      * intros _. simpl. rewrite Nat.sub_0_r.
        destruct (take_source _ rest content_key).2 as [|q] eqn:Hq.
        -- simpl. lia.
        -- simpl. rewrite length_app.
           simpl in Hbefore. rewrite Nat.sub_0_r in Hbefore. lia.
      * intros Hshort. simpl in Hshort. simpl. rewrite length_app.
        assert (Hshort' : ((take_source (S n - length (db content_key))
                              rest content_key).2 < length rest)%nat)
          by lia.
        specialize (Hafter Hshort'). lia.
Qed.

(** X30. The advertisements served for a request are the first 32 of
    what the databases hold for the content key, the databases in
    order.  The databases are queried one after the other and only as
    far as needed: the ones queried before the last hold fewer than 32
    advertisements together, and when a database is left unqueried the
    queried ones hold 32 or more. *)
Theorem served_advertisements_spec dbs (content_key : ContentKey) :
  let queried :=
    (take_source MAX_RESPONSE_ADVERTISEMENTS dbs content_key).2 in
  served_advertisements dbs content_key
  = take MAX_RESPONSE_ADVERTISEMENTS
      (_source_advertisements dbs content_key)
  /\ (length (served_advertisements dbs content_key)
      <= MAX_RESPONSE_ADVERTISEMENTS)%nat
  /\ (queried <= length dbs)%nat
  /\ ((0 < queried)%nat ->
      (length (_source_advertisements (take (queried - 1) dbs) content_key)
       < MAX_RESPONSE_ADVERTISEMENTS)%nat)
  /\ ((queried < length dbs)%nat ->
      (MAX_RESPONSE_ADVERTISEMENTS
       <= length (_source_advertisements (take queried dbs) content_key))%nat).
Proof.
  intros queried. unfold served_advertisements.
  destruct (take_source_spec dbs content_key MAX_RESPONSE_ADVERTISEMENTS)
    as (Htaken & Hcount & Hbefore & Hafter).
  split; [exact Htaken|]. split; [|tauto].
  rewrite Htaken, length_take. lia.
Qed.

End Provider.

Lemma alexandria_wire_format_witness :
  exists registry data,
    MESSAGE_REGISTRY = inr registry
    /\ Alexandria.to_wire_bytes demo_encode demo_payload_for_encoding
         demo_message = inr data
    /\ Alexandria.decode_message demo_decode demo_from_payload_args
         registry data = inr demo_message.
Proof.
  destruct (alexandria_wire_format demo_encode demo_decode
              demo_payload_for_encoding demo_from_payload_args)
    as (registry & Hload & _ & _ & _ & _ & _ & Hround).
  destruct (Hround (fun c value => eq_refl) (fun c payload => eq_refl)
              demo_message) as (data & Hwire & Hdecode).
  exists registry, data. split; [exact Hload|]. split; assumption.
Defined.

End AlexandriaFacts.
